(** * WhatsApp gateway: delivery queue, drip scheduler, webhook dispatcher,
      viewer broadcaster and session registry

    A shallow embedding of the orchestration core of the service
    ([src/queue/queue.ts], [src/index.ts], [src/webhooks/notify.ts],
    [src/events/broadcaster.ts], [src/whatsapp/SessionManager.ts]) and the
    properties of it that the specification states.

    Conventions.  A JavaScript [Map<string, V>] is a [gmap string V], a
    [Set<string>] a [gset string]; an array used as a FIFO is a [list] whose
    head is the oldest element ([push] appends, [shift] takes the head).  An
    optional or nullable string is an [option string].  Calls to the outside
    world (driver, storage, HTTP, file system) are recorded in an effect log
    and their results are supplied by the caller of the model as explicit
    outcomes. *)

From Stdlib Require Import ZArith Lia.
From stdpp Require Import gmap strings list fin_maps fin_sets.

Open Scope string_scope.
Open Scope list_scope.

(** ** JavaScript truthiness on optional strings *)

Module Js.

(** [!!x] for [x : string | null | undefined]: the empty string, [null]
    and [undefined] are falsy. *)
Definition truthy (x : option string) : bool :=
  match x with
  | Some s => negb (String.eqb s "")
  | None => false
  end.

(** [a || b] *)
Definition or (a b : option string) : option string :=
  if truthy a then a else b.

(** [a || d] where [d] is a string literal or a plain string. *)
Definition or_default (a : option string) (d : string) : string :=
  match a with
  | Some s => if String.eqb s "" then d else s
  | None => d
  end.

End Js.

(** ** [src/types/index.ts] *)

(** [interface QueuedMessage]. *)
Record QueuedMessage := mkQueuedMessage {
  qm_id : string;
  qm_jid : option string;
  qm_phoneNumber : option string;
  qm_message : string;
  qm_retries : Z;
  qm_sessionId : string;
}.

(** [interface Message], the persisted record: the fields the delivery
    pipeline reads. *)
Record Message := mkMessage {
  msg_id : string;
  msg_jid : option string;
  msg_phone_number : option string;
  msg_message : string;
  msg_session_id : option string;
}.

(** ** [src/queue/queue.ts]: class [MessageQueue] *)

Module Queue.

Record MessageQueue := mkMessageQueue {
  queues : gmap string (list QueuedMessage);
  processedIds : gset string;
}.

(** [new MessageQueue()] *)
Definition empty : MessageQueue :=
  {| queues := ∅; processedIds := ∅ |}.

(** [message.sessionId || 'default'] *)
Definition session_of (message : QueuedMessage) : string :=
  Js.or_default (Some (qm_sessionId message)) "default".

(** [queue.some((m) => m.id === message.id)] *)
Definition has_id (i : string) (queue : list QueuedMessage) : bool :=
  existsb (λ m, String.eqb (qm_id m) i) queue.

Definition enqueue (message : QueuedMessage) (q : MessageQueue) : MessageQueue :=
  let sessionId := session_of message in
  if decide (qm_id message ∈ processedIds q) then q
  else
    let queues1 :=
      match queues q !! sessionId with
      | Some _ => queues q
      | None => <[sessionId := []]> (queues q)
      end in
    let queue := default [] (queues1 !! sessionId) in
    if has_id (qm_id message) queue
    then {| queues := queues1; processedIds := processedIds q |}
    else {| queues := <[sessionId := queue ++ [message]]> queues1;
            processedIds := processedIds q |}.

Definition dequeue (sessionId : string) (q : MessageQueue)
  : option QueuedMessage * MessageQueue :=
  match queues q !! sessionId with
  | None | Some [] => (None, q)
  | Some (message :: rest) =>
      (Some message,
       {| queues := <[sessionId := rest]> (queues q);
          processedIds := {[qm_id message]} ∪ processedIds q |})
  end.

(** [this.queues.get(sessionId)?.length || 0] *)
Definition size (sessionId : string) (q : MessageQueue) : nat :=
  match queues q !! sessionId with
  | Some queue => length queue
  | None => 0
  end.

Definition isEmpty (sessionId : string) (q : MessageQueue) : bool :=
  Nat.eqb (size sessionId q) 0.

Definition clear (sessionId : string) (q : MessageQueue) : MessageQueue :=
  {| queues := <[sessionId := []]> (queues q); processedIds := processedIds q |}.

Definition clearAllQueues (q : MessageQueue) : MessageQueue :=
  {| queues := ∅; processedIds := processedIds q |}.

Definition clearProcessedIds (q : MessageQueue) : MessageQueue :=
  {| queues := queues q; processedIds := ∅ |}.

(** The public methods that change the queue, as a command language, so
    that properties can quantify over every way the class is driven. *)
Inductive Op :=
| OpEnqueue (message : QueuedMessage)
| OpDequeue (sessionId : string)
| OpClear (sessionId : string)
| OpClearAllQueues
| OpClearProcessedIds.

Definition run_op (o : Op) (q : MessageQueue) : MessageQueue :=
  match o with
  | OpEnqueue m => enqueue m q
  | OpDequeue s => snd (dequeue s q)
  | OpClear s => clear s q
  | OpClearAllQueues => clearAllQueues q
  | OpClearProcessedIds => clearProcessedIds q
  end.

Definition run (ops : list Op) (q : MessageQueue) : MessageQueue :=
  foldl (λ acc o, run_op o acc) q ops.

Definition is_clearProcessedIds (o : Op) : bool :=
  match o with OpClearProcessedIds => true | _ => false end.

(** The entries of one session's queue ([[]] when the session has none). *)
Definition queue_of (sessionId : string) (q : MessageQueue) : list QueuedMessage :=
  default [] (queues q !! sessionId).

(** Number of entries with a given id in a queue. *)
Definition count_id (i : string) (queue : list QueuedMessage) : nat :=
  length (filter (λ m, qm_id m = i) queue).

(** No session's queue holds two entries with the same id. *)
Definition unique_ids (q : MessageQueue) : Prop :=
  ∀ s, NoDup (qm_id <$> queue_of s q).

(** [enqueue] called on each message of a list, in order. *)
Definition enqueue_all (ms : list QueuedMessage) (q : MessageQueue) : MessageQueue :=
  foldl (λ acc m, enqueue m acc) q ms.

(** Up to [n] calls of [dequeue(sessionId)], stopping at the first [null]:
    the messages returned, oldest first, and the state left. *)
Fixpoint dequeue_n (n : nat) (sessionId : string) (q : MessageQueue)
  : list QueuedMessage * MessageQueue :=
  match n with
  | O => ([], q)
  | S n' =>
      match dequeue sessionId q with
      | (Some m, q') =>
          let '(ms, q'') := dequeue_n n' sessionId q' in (m :: ms, q'')
      | (None, q') => ([], q')
      end
  end.

(** The ids of the messages that the [dequeue(sessionId)] calls of a run
    return, in the order of the calls. *)
Fixpoint dequeued_ids (sessionId : string) (ops : list Op) (q : MessageQueue)
  : list string :=
  match ops with
  | [] => []
  | o :: ops' =>
      match o with
      | OpDequeue s =>
          if String.eqb s sessionId
          then match fst (dequeue s q) with
               | Some m => [qm_id m]
               | None => []
               end
          else []
      | _ => []
      end ++ dequeued_ids sessionId ops' (run_op o q)
  end.

(** [enqueue] would refuse the message: its id is processed or is waiting
    in the queue of its session. *)
Definition refused (m : QueuedMessage) (q : MessageQueue) : Prop :=
  qm_id m ∈ processedIds q
  ∨ qm_id m ∈ qm_id <$> queue_of (session_of m) q.

End Queue.

(** ** [src/events/broadcaster.ts] *)

Module Broadcaster.

(** An Express [Response] object is compared by identity; a viewer handle
    is modelled by a number. *)
Definition Response := nat.

(** [const sseClients = new Map<string, Set<Response>>()] *)
Definition initial : gmap string (gset Response) := ∅.

(** The body of [clients.forEach((res) => { try { res.write(..) } catch
    { clients.delete(res) } })]: the set is visited once per member, and a
    member whose write throws is deleted from the very set being
    visited.  [write_throws] is the outcome of [res.write] per viewer. *)
Definition write_all (write_throws : Response → bool) (clients : gset Response)
  : gset Response :=
  foldl (λ cs res, if write_throws res then cs ∖ {[res]} else cs)
        clients (elements clients).

Definition broadcastMessageToSSE (write_throws : Response → bool)
    (sessionId : string) (sseClients : gmap string (gset Response))
  : gmap string (gset Response) :=
  match sseClients !! sessionId with
  | None => sseClients
  | Some clients =>
      if decide (size clients = 0) then sseClients
      else <[sessionId := write_all write_throws clients]> sseClients
  end.

Definition addSSEClient (sessionId : string) (response : Response)
    (sseClients : gmap string (gset Response)) : gmap string (gset Response) :=
  let m1 :=
    match sseClients !! sessionId with
    | Some _ => sseClients
    | None => <[sessionId := ∅]> sseClients
    end in
  <[sessionId := {[response]} ∪ default ∅ (m1 !! sessionId)]> m1.

Definition removeSSEClient (sessionId : string) (response : Response)
    (sseClients : gmap string (gset Response)) : gmap string (gset Response) :=
  match sseClients !! sessionId with
  | Some clients =>
      let clients' := clients ∖ {[response]} in
      let m1 := <[sessionId := clients']> sseClients in
      (* Clean up empty session *)
      if decide (size clients' = 0) then delete sessionId m1 else m1
  | None => sseClients
  end.

Definition getSSEClientCount (sessionId : string)
    (sseClients : gmap string (gset Response)) : nat :=
  match sseClients !! sessionId with
  | Some clients => size clients
  | None => 0
  end.

Definition disconnectAllSSEClients (sseClients : gmap string (gset Response))
  : gmap string (gset Response) := ∅.

(** The operations of the module as commands. *)
Inductive Op :=
| OpAdd (sessionId : string) (response : Response)
| OpRemove (sessionId : string) (response : Response)
| OpBroadcast (write_throws : Response → bool) (sessionId : string).

Definition run_op (o : Op) (m : gmap string (gset Response))
  : gmap string (gset Response) :=
  match o with
  | OpAdd s r => addSSEClient s r m
  | OpRemove s r => removeSSEClient s r m
  | OpBroadcast w s => broadcastMessageToSSE w s m
  end.

(** No session id is associated with an empty viewer set. *)
Definition no_empty_set (m : gmap string (gset Response)) : Prop :=
  ∀ s clients, m !! s = Some clients → clients ≠ ∅.

(** [sseClients.forEach((clients) => { total += clients.size })] *)
Definition getTotalSSEClients (sseClients : gmap string (gset Response)) : nat :=
  map_fold (λ _ clients total, total + size clients) 0 sseClients.

(** The viewers of a session, none when the session has no entry. *)
Definition viewers (sessionId : string)
    (sseClients : gmap string (gset Response)) : gset Response :=
  default ∅ (sseClients !! sessionId).

End Broadcaster.

(** ** [src/webhooks/notify.ts] *)

Module Webhooks.

Inductive EventType :=
| message_received | message_sent | message_failed
| session_connected | session_disconnected | session_qr_code.

(** [interface WebhookEvent]; [data] is opaque to the dispatcher. *)
Record WebhookEvent := mkWebhookEvent {
  type : EventType;
  tenant_id : string;
  session_id : string;
  timestamp : string;
  data : string;
}.

(** What [await fetch(..)] does on one attempt. *)
Inductive FetchOutcome :=
| ResponseOk                       (* [response.ok] *)
| ResponseNotOk (status : Z)       (* a response with a non-2xx status *)
| FetchThrows (error : string).    (* network error or the 10 s abort *)

(** The request of one attempt: the headers that vary and the body. *)
Record Request := mkRequest {
  url : string;
  X_Webhook_Event : EventType;
  X_Webhook_Timestamp : string;
  X_Webhook_Attempt : nat;            (* [String(attempt + 1)] *)
  X_Webhook_Signature : option string;
  body : string;
}.

(** One iteration of the loop: the [sleep] it starts with, if any
    ([Some None] is [sleep(undefined)]), and the request it posts. *)
Record Attempt := mkAttempt {
  slept : option (option Z);
  request : Request;
}.

(** [const delays = [0, 5000, 30000, 300000]] *)
Definition delays : list Z := [0; 5000; 30000; 300000]%Z.

(** The delay in ms that an attempt was preceded by: 0 when the
    iteration does not sleep, and none when [sleep] was handed
    [undefined]. *)
Definition waited (a : Attempt) : option Z :=
  match slept a with
  | None => Some 0%Z
  | Some d => d
  end.

Section Dispatcher.

(** [JSON.stringify] on events and Node's
    [crypto.createHmac('sha256', secret).update(payload).digest('hex')]
    are library functions. *)
Variable JSON_stringify : WebhookEvent → string.
Variable hmac_sha256_hex : string → string → string.

Definition generateSignature (payload secret : string) : string :=
  hmac_sha256_hex secret payload.

(** The [for] loop of [notifyTenant], [remaining] iterations before
    [attempt < maxRetries] fails. *)
Fixpoint attempts_from (webhookUrl : string) (event : WebhookEvent)
    (payload : string) (signature : option string) (maxRetries : Z)
    (fetch : nat → FetchOutcome) (remaining attempt : nat) : list Attempt :=
  match remaining with
  | O => []
  | S remaining' =>
      let a :=
        {| slept := if (0 <? attempt)%nat then Some (delays !! attempt) else None;
           request :=
             {| url := webhookUrl;
                X_Webhook_Event := type event;
                X_Webhook_Timestamp := timestamp event;
                X_Webhook_Attempt := attempt + 1;
                (* [...(signature && { 'X-Webhook-Signature': signature })] *)
                X_Webhook_Signature :=
                  if Js.truthy signature then signature else None;
                body := payload |} |} in
      match fetch attempt with
      | ResponseOk => [a]                              (* [return] *)
      | ResponseNotOk _ | FetchThrows _ =>
          (* not ok on the last attempt throws into the [catch], which
             returns; otherwise [continue] *)
          if (Z.of_nat attempt =? maxRetries - 1)%Z then [a]
          else a :: attempts_from webhookUrl event payload signature
                      maxRetries fetch remaining' (S attempt)
      end
  end.

Definition notifyTenant (webhookUrl : string) (event : WebhookEvent)
    (secret : option string) (maxRetries : Z) (fetch : nat → FetchOutcome)
  : list Attempt :=
  if String.eqb webhookUrl "" then []
  else
    let payload := JSON_stringify event in
    let signature :=
      if Js.truthy secret
      then Some (generateSignature payload (default "" secret))
      else None in
    attempts_from webhookUrl event payload signature maxRetries fetch
                  (Z.to_nat maxRetries) 0.

End Dispatcher.

(** [maxRetries: number = 3] *)
Definition default_maxRetries : Z := 3.

(** [sleep(ms)] is [new Promise((resolve) => setTimeout(resolve, ms))].
    Node starts the timer with the delay it is given when that is a number
    from 1 to 2^31 - 1, and with 1 ms otherwise: so for [undefined]. *)
Definition sleep (ms : option Z) : Z :=
  match ms with
  | Some d => if ((1 <=? d) && (d <=? 2147483647))%Z then d else 1%Z
  | None => 1%Z
  end.

(** The time in ms for which one iteration sleeps before its request. *)
Definition sleep_of (a : Attempt) : Z :=
  match slept a with
  | None => 0%Z
  | Some ms => sleep ms
  end.

(** The time in ms spent in [sleep] over a delivery. *)
Definition total_sleep (tr : list Attempt) : Z :=
  foldr (λ a acc, (sleep_of a + acc)%Z) 0%Z tr.

End Webhooks.

(** ** Exceptions

    A call that can throw returns an [Outcome]; [try_catch] is
    [try { .. } catch (error) { .. }]. *)

Inductive Outcome (A : Type) : Type :=
| Returned (a : A)
| Threw (error : string).

Arguments Returned {A} a.
Arguments Threw {A} error.

#[export] Instance Outcome_ret : MRet Outcome := λ A a, Returned a.

#[export] Instance Outcome_bind : MBind Outcome := λ A B k m,
  match m with
  | Returned a => k a
  | Threw e => Threw e
  end.

Definition try_catch {A : Type} (body : Outcome A) (handler : string → Outcome A)
  : Outcome A :=
  match body with
  | Returned a => Returned a
  | Threw e => handler e
  end.

(** ** [src/whatsapp/SessionManager.ts] *)

Module Sessions.

(** What an auth folder holds: the blank state that
    [useMultiFileAuthState] initialises in a folder it has to create, or
    the credentials that [saveCreds] has written there since. *)
Inductive AuthState := BlankCreds | SavedCreds.

(** [interface SessionData]; a [WASocket] is identified by the number of
    the [makeWASocket] call that made it. *)
Record SessionData := mkSessionData {
  socket : nat;
  connected : bool;
  reconnectAttempts : nat;
  authPath : string;
  qrCode : option string;
}.

(** The registry together with what its methods touch outside it: the
    auth folders on disk and the reconnect timers started with
    [setTimeout] and not yet fired (session id and delay in ms). *)
Record World := mkWorld {
  sessions : gmap string SessionData;
  files : gmap string AuthState;
  timers : list (string * Z);
  sockets_made : nat;
}.

Definition initial : World :=
  {| sessions := ∅; files := ∅; timers := []; sockets_made := 0 |}.

(** [private readonly maxReconnectAttempts = 5] *)
Definition maxReconnectAttempts : nat := 5.

(** Baileys' [DisconnectReason.loggedOut]. *)
Definition DisconnectReason_loggedOut : Z := 401.

(** Outcomes of the calls of one method that may throw. *)
Record Faults := mkFaults {
  logout_throws : bool;     (* [socket.logout()] rejects *)
  rmSync_throws : bool;     (* [rmSync(authPath, ..)] throws *)
  useMultiFileAuthState_throws : bool;
                            (* [useMultiFileAuthState(authPath)] rejects *)
  makeWASocket_throws : bool;
      (* [fetchLatestBaileysVersion()] rejects or [makeWASocket(..)] throws *)
}.

Definition no_faults : Faults :=
  {| logout_throws := false; rmSync_throws := false;
     useMultiFileAuthState_throws := false; makeWASocket_throws := false |}.

Definition socket_logout (env : Faults) (s : nat) : Outcome () :=
  if logout_throws env then Threw "logout failed" else Returned ().

Definition existsSync (path : string) (w : World) : bool :=
  bool_decide (is_Some (files w !! path)).

(** [rmSync(path, { recursive: true, force: true })] *)
Definition rmSync (env : Faults) (path : string) (w : World) : Outcome World :=
  if rmSync_throws env then Threw "rmSync failed"
  else Returned {| sessions := sessions w; files := delete path (files w);
                   timers := timers w; sockets_made := sockets_made w |}.

Definition set_sessions (f : gmap string SessionData → gmap string SessionData)
    (w : World) : World :=
  {| sessions := f (sessions w); files := files w;
     timers := timers w; sockets_made := sockets_made w |}.

(** [createSession] from its first [await] on, the [has] check having
    found no session.  [useMultiFileAuthState] creates the folder when it
    is missing and loads what is there otherwise; then the socket is made
    and the session registered, whatever the registry holds by then.  A
    driver call that fails throws out of [createSession]: the result is
    the state left behind and the socket or the error. *)
Definition createSession_resume (env : Faults) (sessionId authPath : string)
    (w : World) : World * Outcome nat :=
  if useMultiFileAuthState_throws env
  then (w, Threw "useMultiFileAuthState failed")
  else
    let w1 :=
      {| sessions := sessions w;
         files := match files w !! authPath with
                  | Some _ => files w
                  | None => <[authPath := BlankCreds]> (files w)
                  end;
         timers := timers w; sockets_made := sockets_made w |} in
    if makeWASocket_throws env then (w1, Threw "makeWASocket failed")
    else
      let sessionData :=
        {| socket := sockets_made w; connected := false; reconnectAttempts := 0;
           authPath := authPath; qrCode := None |} in
      ({| sessions := <[sessionId := sessionData]> (sessions w1);
          files := files w1; timers := timers w1;
          sockets_made := S (sockets_made w1) |},
       Returned (sockets_made w)).

(** [createSession({ sessionId, authPath = `auth_info_${sessionId}` })],
    run without interleaving. *)
Definition createSession (env : Faults) (sessionId : string)
    (authPath_arg : option string) (w : World) : World * Outcome nat :=
  let authPath := default ("auth_info_" +:+ sessionId) authPath_arg in
  match sessions w !! sessionId with
  | Some sessionData => (w, Returned (socket sessionData))
  | None => createSession_resume env sessionId authPath w
  end.

(** [handleLogoutAndRegenerate] up to its 1 s wait: the state it leaves
    and the [authPath] it goes on with, or none when it has returned (no
    session, or [rmSync] threw into the [catch]). *)
Definition handleLogoutAndRegenerate_begin (env : Faults) (sessionId : string)
    (w : World) : World * option string :=
  match sessions w !! sessionId with
  | None => (w, None)
  | Some sessionData =>
      let authPath := authPath sessionData in
      (* Remove session from map *)
      let w1 := set_sessions (delete sessionId) w in
      (* Delete authentication folder if it exists *)
      if existsSync authPath w1 then
        match rmSync env authPath w1 with
        | Returned w2 => (w2, Some authPath)
        | Threw _ => (w1, None)
        end
      else (w1, Some authPath)
  end.

(** [handleLogoutAndRegenerate] after the wait: [createSession], whose
    error, if it throws, is caught and logged. *)
Definition handleLogoutAndRegenerate_resume (env : Faults)
    (sessionId authPath : string) (w : World) : World :=
  fst (createSession env sessionId (Some authPath) w).

(** The whole method, run without interleaving. *)
Definition handleLogoutAndRegenerate (env : Faults) (sessionId : string)
    (w : World) : World :=
  match handleLogoutAndRegenerate_begin env sessionId w with
  | (w, None) => w
  | (w, Some authPath) => handleLogoutAndRegenerate_resume env sessionId authPath w
  end.

(** [reconnectSession] up to its call of [createSession]: the session is
    removed from the registry. *)
Definition reconnectSession_begin (sessionId : string) (w : World)
  : World * option string :=
  match sessions w !! sessionId with
  | None => (w, None)
  | Some sessionData =>
      (set_sessions (delete sessionId) w, Some (authPath sessionData))
  end.

(** The whole method, run without interleaving; an error of
    [createSession] is caught and logged. *)
Definition reconnectSession (env : Faults) (sessionId : string) (w : World)
  : World :=
  match reconnectSession_begin sessionId w with
  | (w, None) => w
  | (w, Some authPath) => fst (createSession env sessionId (Some authPath) w)
  end.

Inductive Connection := connection_close | connection_open | connection_connecting.

(** The fields of a [connection.update] payload that the handler reads;
    [statusCode] is [(lastDisconnect?.error as Boom)?.output?.statusCode]. *)
Record ConnectionUpdate := mkUpdate {
  connection : option Connection;
  statusCode : option Z;
  qr : option string;
}.

(** [Math.min(1000 * Math.pow(2, reconnectAttempts), 30000)] *)
Definition reconnect_delay (reconnectAttempts : nat) : Z :=
  Z.min (1000 * 2 ^ Z.of_nat reconnectAttempts) 30000.

Definition update_session (sessionId : string) (f : SessionData → SessionData)
    (w : World) : World :=
  set_sessions (alter f sessionId) w.

(** The [connection.update] handler installed by [setupEventHandlers],
    run without interleaving; it looks the session up by id at the time of
    the event.  Webhook notifications and the status row update do not
    touch the registry and are left out. *)
Definition on_connection_update (env : Faults) (sessionId : string)
    (update : ConnectionUpdate) (w : World) : World :=
  let w :=
    if Js.truthy (qr update)
    then update_session sessionId
           (λ sd, {| socket := socket sd; connected := connected sd;
                     reconnectAttempts := reconnectAttempts sd;
                     authPath := authPath sd; qrCode := qr update |}) w
    else w in
  match connection update with
  | Some connection_close =>
      let sessionData := sessions w !! sessionId in
      let w := update_session sessionId
                 (λ sd, {| socket := socket sd; connected := false;
                           reconnectAttempts := reconnectAttempts sd;
                           authPath := authPath sd; qrCode := qrCode sd |}) w in
      let shouldReconnect :=
        negb (bool_decide (statusCode update = Some DisconnectReason_loggedOut)) in
      match sessionData with
      | Some sd =>
          if shouldReconnect then
            if (reconnectAttempts sd <? maxReconnectAttempts)%nat then
              let attempts := S (reconnectAttempts sd) in
              let delay := reconnect_delay attempts in
              let w := update_session sessionId
                         (λ sd, {| socket := socket sd; connected := connected sd;
                                   reconnectAttempts := attempts;
                                   authPath := authPath sd; qrCode := qrCode sd |}) w in
              {| sessions := sessions w; files := files w;
                 timers := timers w ++ [(sessionId, delay)];
                 sockets_made := sockets_made w |}
            else handleLogoutAndRegenerate env sessionId w
          else handleLogoutAndRegenerate env sessionId w
      | None => handleLogoutAndRegenerate env sessionId w
      end
  | Some connection_open =>
      update_session sessionId
        (λ sd, {| socket := socket sd; connected := true; reconnectAttempts := 0;
                  authPath := authPath sd; qrCode := None |}) w
  | _ => w
  end.

(** [socket.ev.on('creds.update', saveCreds)]: the driver stores the
    credentials of the session's socket in its auth folder. *)
Definition on_creds_update (sessionId : string) (w : World) : World :=
  match sessions w !! sessionId with
  | Some sd =>
      {| sessions := sessions w;
         files := <[authPath sd := SavedCreds]> (files w);
         timers := timers w; sockets_made := sockets_made w |}
  | None => w
  end.

(** [setTimeout(() => this.reconnectSession(sessionId), delay)] coming
    due: the oldest pending timer of the session is removed and its
    callback runs. *)
Fixpoint take_timer (sessionId : string) (ts : list (string * Z))
  : option (list (string * Z)) :=
  match ts with
  | [] => None
  | t :: ts' =>
      if String.eqb (fst t) sessionId then Some ts'
      else option_map (cons t) (take_timer sessionId ts')
  end.

Definition on_timer (env : Faults) (sessionId : string) (w : World) : World :=
  match take_timer sessionId (timers w) with
  | None => w
  | Some ts =>
      reconnectSession env sessionId
        {| sessions := sessions w; files := files w; timers := ts;
           sockets_made := sockets_made w |}
  end.

(** The same up to the call of [createSession]. *)
Definition on_timer_begin (sessionId : string) (w : World)
  : World * option string :=
  match take_timer sessionId (timers w) with
  | None => (w, None)
  | Some ts =>
      reconnectSession_begin sessionId
        {| sessions := sessions w; files := files w; timers := ts;
           sockets_made := sockets_made w |}
  end.

Definition getSocket (sessionId : string) (w : World) : option nat :=
  socket <$> sessions w !! sessionId.

Definition getQRCode (sessionId : string) (w : World) : option string :=
  match sessions w !! sessionId with
  | Some sd => if Js.truthy (qrCode sd) then qrCode sd else None
  | None => None
  end.

(** [this.sessions.get(sessionId)?.connected || false] *)
Definition isConnected (sessionId : string) (w : World) : bool :=
  match sessions w !! sessionId with
  | Some sd => connected sd
  | None => false
  end.

(** [sessionData?.authPath || `auth_info_${sessionId}`] *)
Definition authPath_or_default (sessionData : option SessionData)
    (sessionId : string) : string :=
  Js.or_default (authPath <$> sessionData) ("auth_info_" +:+ sessionId).

(** [closeSession]: the logout is not guarded, so a rejected logout
    propagates and the session stays registered. *)
Definition closeSession (env : Faults) (sessionId : string) (w : World)
  : Outcome World :=
  match sessions w !! sessionId with
  | Some sessionData =>
      _ ← socket_logout env (socket sessionData);
      Returned (set_sessions (delete sessionId) w)
  | None => Returned w
  end.

Definition deleteSession (env : Faults) (sessionId : string) (w : World)
  : Outcome World :=
  let sessionData := sessions w !! sessionId in
  (* Close socket if active *)
  _ ← match sessionData with
      | Some sd =>
          try_catch (socket_logout env (socket sd))
                    (λ _, Returned ())  (* Continue even if logout fails *)
      | None => Returned ()
      end;
  (* Remove from sessions map *)
  let w1 :=
    if decide (is_Some (sessions w !! sessionId))
    then set_sessions (delete sessionId) w
    else w in
  (* Delete authentication files *)
  let authPath := authPath_or_default sessionData sessionId in
  if existsSync authPath w1
  then try_catch (rmSync env authPath w1) (λ _, Returned w1)
  else Returned w1.

(** [regenerateQR], run without interleaving.  Its last call,
    [createSession], is not guarded: the result is the state left behind
    and whether the method returned or threw. *)
Definition regenerateQR (env : Faults) (sessionId : string) (w : World)
  : World * Outcome () :=
  let sessionData := sessions w !! sessionId in
  let authPath := authPath_or_default sessionData sessionId in
  (* Close existing session if active *)
  let w1 :=
    match sessionData with
    | Some sd =>
        match socket_logout env (socket sd) with
        | Returned _ => set_sessions (delete sessionId) w
        | Threw _ => w              (* caught before [sessions.delete] *)
        end
    | None => w
    end in
  (* Delete auth files to force fresh QR generation *)
  let w2 :=
    if existsSync authPath w1 then
      match rmSync env authPath w1 with
      | Returned w' => w'
      | Threw _ => w1
      end
    else w1 in
  (* Wait a moment, then create fresh session *)
  let r := createSession env sessionId (Some authPath) w2 in
  (fst r, _ ← snd r; Returned ()).

(** What can happen to the registry from outside. *)
Inductive Event :=
| EvCreate (sessionId : string) (authPath : option string)
| EvCredsUpdate (sessionId : string)
| EvConnectionUpdate (sessionId : string) (update : ConnectionUpdate)
| EvTimer (sessionId : string).

(** The callers of [createSession] in [index.ts] catch what it throws. *)
Definition step (env : Faults) (e : Event) (w : World) : World :=
  match e with
  | EvCreate s p => fst (createSession env s p w)
  | EvCredsUpdate s => on_creds_update s w
  | EvConnectionUpdate s u => on_connection_update env s u w
  | EvTimer s => on_timer env s w
  end.

Definition run (env : Faults) (es : list Event) (w : World) : World :=
  foldl (λ acc e, step env e acc) w es.

(** The driver events of the specification. *)
Definition link_lost_recoverable : ConnectionUpdate :=
  {| connection := Some connection_close; statusCode := Some 428%Z; qr := None |}.

Definition link_lost_terminal : ConnectionUpdate :=
  {| connection := Some connection_close;
     statusCode := Some DisconnectReason_loggedOut; qr := None |}.

Definition link_established : ConnectionUpdate :=
  {| connection := Some connection_open; statusCode := None; qr := None |}.

Definition pairing_code (code : string) : ConnectionUpdate :=
  {| connection := None; statusCode := None; qr := Some code |}.

(** Everything that can reach the registry: the driver events and timers
    above and the calls of the HTTP layer ([/disconnect], [DELETE
    /session/:id], [/regenerate-qr]), each run to its end; and, for the
    two waits during which a session is missing from the registry, the
    parts before and after the wait, between which other calls can run: a
    regeneration up to its 1 s wait and from there on, a reconnect up to
    [createSession], and a [createSession] from its first [await] on. *)
Inductive Call :=
| CallEvent (e : Event)
| CallCloseSession (sessionId : string)
| CallDeleteSession (sessionId : string)
| CallRegenerateQR (sessionId : string)
| CallRegenerateBegin (sessionId : string)
| CallRegenerateResume (sessionId authPath : string)
| CallReconnectBegin (sessionId : string)
| CallCreateResume (sessionId authPath : string).

(** [closeSession] throws before it has changed anything, [deleteSession]
    does not throw. *)
Definition settled (w : World) (o : Outcome World) : World :=
  match o with
  | Returned w' => w'
  | Threw _ => w
  end.

Definition call (env : Faults) (c : Call) (w : World) : World :=
  match c with
  | CallEvent e => step env e w
  | CallCloseSession s => settled w (closeSession env s w)
  | CallDeleteSession s => settled w (deleteSession env s w)
  | CallRegenerateQR s => fst (regenerateQR env s w)
  | CallRegenerateBegin s => fst (handleLogoutAndRegenerate_begin env s w)
  | CallRegenerateResume s p => handleLogoutAndRegenerate_resume env s p w
  | CallReconnectBegin s => fst (on_timer_begin s w)
  | CallCreateResume s p => fst (createSession_resume env s p w)
  end.

(** A run in which every call meets its own outcomes of the driver and
    of the file system. *)
Definition calls (cs : list (Faults * Call)) (w : World) : World :=
  foldl (λ acc c, call (fst c) (snd c) acc) w cs.

(** Whether a call runs [sessions.set] for the session: that is in
    [createSession] only, reached through a create request, through
    [regenerateQR], and from a regeneration or a [createSession] that was
    already under way. *)
Definition registers (sessionId : string) (c : Call) : bool :=
  match c with
  | CallEvent (EvCreate s _) => String.eqb s sessionId
  | CallRegenerateQR s => String.eqb s sessionId
  | CallRegenerateResume s _ => String.eqb s sessionId
  | CallCreateResume s _ => String.eqb s sessionId
  | _ => false
  end.

(** Every registered session has a socket of its own, made by an earlier
    [makeWASocket] call. *)
Definition sockets_distinct (w : World) : Prop :=
  (∀ s sd, sessions w !! s = Some sd → socket sd < sockets_made w)
  ∧ (∀ s1 s2 sd1 sd2,
       sessions w !! s1 = Some sd1 → sessions w !! s2 = Some sd2 →
       socket sd1 = socket sd2 → s1 = s2).

(** The record that [createSession] registers. *)
Definition fresh_session (w : World) (path : string) : SessionData :=
  {| socket := sockets_made w; connected := false; reconnectAttempts := 0;
     authPath := path; qrCode := None |}.

(** Environments in which one call fails. *)
Definition logout_fails : Faults :=
  {| logout_throws := true; rmSync_throws := false;
     useMultiFileAuthState_throws := false; makeWASocket_throws := false |}.

Definition rmSync_fails : Faults :=
  {| logout_throws := false; rmSync_throws := true;
     useMultiFileAuthState_throws := false; makeWASocket_throws := false |}.

Definition makeWASocket_fails : Faults :=
  {| logout_throws := false; rmSync_throws := false;
     useMultiFileAuthState_throws := false; makeWASocket_throws := true |}.

End Sessions.

(** ** [src/config/index.ts] *)

Record QueueConfig := mkQueueConfig {
  pollIntervalMs : Z;
  maxMessagesPerMinute : Z;
  sendIntervalMs : Z;
  maxRetries : Z;
}.

(** [config.queue] *)
Definition config_queue : QueueConfig :=
  {| pollIntervalMs := 10000; maxMessagesPerMinute := 3;
     sendIntervalMs := 20000; maxRetries := 3 |}.

(** ** [src/index.ts]: the poll and the drip scheduler *)

Module Orchestrator.

(** Calls issued to the collaborators, oldest first. *)
Inductive Effect :=
| SendMessage (sessionId : string) (socket : nat) (recipient message : string)
| MarkMessageSent (messageId : string) (sentJid : string)
| MarkMessageFailed (messageId : string) (errorMessage : string)
| NotifyTenant (webhookUrl : string) (kind : Webhooks.EventType)
               (tenantId sessionId messageId : string).

Record State := mkState {
  pollingLocks : gmap string bool;
  sendingLocks : gmap string bool;
  messageQueue : Queue.MessageQueue;
  sessionManager : Sessions.World;
  effects : list Effect;
}.

(** [locks.get(sessionId)] as a condition: a missing key is falsy. *)
Definition held (locks : gmap string bool) (sessionId : string) : bool :=
  default false (locks !! sessionId).

Definition set_polling (sessionId : string) (b : bool) (st : State) : State :=
  {| pollingLocks := <[sessionId := b]> (pollingLocks st);
     sendingLocks := sendingLocks st; messageQueue := messageQueue st;
     sessionManager := sessionManager st; effects := effects st |}.

Definition set_sending (sessionId : string) (b : bool) (st : State) : State :=
  {| pollingLocks := pollingLocks st;
     sendingLocks := <[sessionId := b]> (sendingLocks st);
     messageQueue := messageQueue st;
     sessionManager := sessionManager st; effects := effects st |}.

Definition set_queue (q : Queue.MessageQueue) (st : State) : State :=
  {| pollingLocks := pollingLocks st; sendingLocks := sendingLocks st;
     messageQueue := q;
     sessionManager := sessionManager st; effects := effects st |}.

Definition emit (e : Effect) (st : State) : State :=
  {| pollingLocks := pollingLocks st; sendingLocks := sendingLocks st;
     messageQueue := messageQueue st;
     sessionManager := sessionManager st; effects := effects st ++ [e] |}.

(** *** [pollSupabaseForMessages] *)

(** [msg.jid || msg.phone_number] is truthy. *)
Definition has_recipient (msg : Message) : bool :=
  Js.truthy (Js.or (msg_jid msg) (msg_phone_number msg)).

(** The [QueuedMessage] built from a stored record. *)
Definition queuedMessage_of (sessionId : string) (msg : Message) : QueuedMessage :=
  {| qm_id := msg_id msg;
     qm_jid := msg_jid msg;
     qm_phoneNumber := msg_phone_number msg;
     qm_message := msg_message msg;
     qm_retries := 0;
     qm_sessionId := Js.or_default (msg_session_id msg) sessionId |}.

(** The [for (const msg of messages)] loop.  [storage_throws id] tells
    whether the storage update for record [id] is rejected, in which
    case [markMessageFailed] throws, the loop is left and the [catch] of
    the poll logs the error. *)
Fixpoint poll_loop (storage_throws : string → bool) (sessionId : string)
    (messages : list Message) (st : State) : State :=
  match messages with
  | [] => st
  | msg :: rest =>
      let recipient := Js.or (msg_jid msg) (msg_phone_number msg) in
      if negb (Js.truthy recipient) then
        let st' := emit (MarkMessageFailed (msg_id msg)
                           "No recipient identifier provided") st in
        if storage_throws (msg_id msg) then st'
        else poll_loop storage_throws sessionId rest st'      (* [continue] *)
      else
        poll_loop storage_throws sessionId rest
          (set_queue (Queue.enqueue (queuedMessage_of sessionId msg)
                                    (messageQueue st)) st)
  end.

(** [messages] is what [getQueuedMessages(sessionId)] returned. *)
Definition pollSupabaseForMessages (storage_throws : string → bool)
    (messages : list Message) (sessionId : string) (st : State) : State :=
  if held (pollingLocks st) sessionId then st
  else
    let st := set_polling sessionId true st in
    let st := poll_loop storage_throws sessionId messages st in
    set_polling sessionId false st.                          (* [finally] *)

(** *** [processDripQueue] *)

(** How [await sendMessage(..)] settles. *)
Inductive SendResult :=
| SendResolves (jid : string)
| SendRejects (errorMessage : string).

(** The results of the other awaited calls of one tick. *)
Record TickEnv := mkTickEnv {
  send_result : SendResult;
  markMessageSent_error : option string;  (* [Some e]: the update throws *)
  markMessageFailed_throws : bool;
  tenantId : option string;               (* [getTenantBySession] *)
  webhookUrl : option string;             (* [getWebhookUrl] *)
}.

(** A send that has been issued and not yet settled. *)
Record InFlight := mkInFlight {
  if_message : QueuedMessage;
  if_recipient : string;
  if_socket : nat;
}.

(** The tick up to [await sendMessage(..)]: guards, lock, dequeue. *)
Definition processDripQueue_begin (sessionId : string) (st : State)
  : State * option InFlight :=
  if held (sendingLocks st) sessionId
     || Queue.isEmpty sessionId (messageQueue st) then (st, None)
  else if negb (Sessions.isConnected sessionId (sessionManager st)) then (st, None)
  else
    let st := set_sending sessionId true st in
    match Queue.dequeue sessionId (messageQueue st) with
    | (None, _) => (set_sending sessionId false st, None)
    | (Some message, q) =>
        let st := set_queue q st in
        let recipient := Js.or (qm_jid message) (qm_phoneNumber message) in
        if negb (Js.truthy recipient) then
          (set_sending sessionId false
             (emit (MarkMessageFailed (qm_id message) "No recipient identifier") st),
           None)
        else
          match Sessions.getSocket sessionId (sessionManager st) with
          | None => (set_sending sessionId false st, None)
          | Some socket =>
              let recipient := default "" recipient in
              (emit (SendMessage sessionId socket recipient (qm_message message)) st,
               Some {| if_message := message; if_recipient := recipient;
                       if_socket := socket |})
          end
    end.

(** [if (tenantId && webhookUrl) { await notifyTenant(webhookUrl, event) }] *)
Definition notify (env : TickEnv) (kind : Webhooks.EventType)
    (sessionId : string) (message : QueuedMessage) (st : State) : State :=
  if Js.truthy (tenantId env) && Js.truthy (webhookUrl env)
  then emit (NotifyTenant (default "" (webhookUrl env)) kind
               (default "" (tenantId env)) sessionId (qm_id message)) st
  else st.

(** [message.retries++] on the dequeued object. *)
Definition bump_retries (message : QueuedMessage) : QueuedMessage :=
  {| qm_id := qm_id message; qm_jid := qm_jid message;
     qm_phoneNumber := qm_phoneNumber message;
     qm_message := qm_message message;
     qm_retries := qm_retries message + 1;
     qm_sessionId := qm_sessionId message |}.

(** The inner [catch (error)] block. *)
Definition on_send_failure (cfg : QueueConfig) (env : TickEnv)
    (sessionId : string) (message : QueuedMessage) (errorMessage : string)
    (st : State) : State :=
  if (qm_retries message <? maxRetries cfg)%Z then
    set_queue (Queue.enqueue (bump_retries message) (messageQueue st)) st
  else
    let st := emit (MarkMessageFailed (qm_id message) errorMessage) st in
    if markMessageFailed_throws env then st       (* outer [catch] logs *)
    else notify env Webhooks.message_failed sessionId message st.

(** The tick from the settling of [sendMessage] to the [finally]. *)
Definition processDripQueue_resume (cfg : QueueConfig) (env : TickEnv)
    (sessionId : string) (f : InFlight) (st : State) : State :=
  let message := if_message f in
  let st :=
    match send_result env with
    | SendResolves jid =>
        let st := emit (MarkMessageSent (qm_id message) jid) st in
        match markMessageSent_error env with
        | Some e => on_send_failure cfg env sessionId message e st
        | None => notify env Webhooks.message_sent sessionId message st
        end
    | SendRejects e => on_send_failure cfg env sessionId message e st
    end in
  set_sending sessionId false st.

(** One whole tick, run without interleaving. *)
Definition processDripQueue (cfg : QueueConfig) (env : TickEnv)
    (sessionId : string) (st : State) : State :=
  match processDripQueue_begin sessionId st with
  | (st, None) => st
  | (st, Some f) => processDripQueue_resume cfg env sessionId f st
  end.

(** A tick whose send succeeds and one whose send is rejected, with
    storage accepting every update and no webhook configured. *)
Definition send_ok (jid : string) : TickEnv :=
  {| send_result := SendResolves jid; markMessageSent_error := None;
     markMessageFailed_throws := false; tenantId := None; webhookUrl := None |}.

Definition send_fails (errorMessage : string) : TickEnv :=
  {| send_result := SendRejects errorMessage; markMessageSent_error := None;
     markMessageFailed_throws := false; tenantId := None; webhookUrl := None |}.

(** The ids of the messages marked sent, in order of completion. *)
Definition sent_ids (es : list Effect) : list string :=
  omap (λ e, match e with MarkMessageSent i _ => Some i | _ => None end) es.

Definition failed_ids (es : list Effect) : list string :=
  omap (λ e, match e with MarkMessageFailed i _ => Some i | _ => None end) es.

(** The ids of the messages handed to the driver, one per delivery
    attempt. *)
Definition attempted (es : list Effect) : list (string * string) :=
  omap (λ e, match e with
             | SendMessage _ _ r m => Some (r, m)
             | _ => None
             end) es.

(** The orchestrator after the registry has moved to [w]. *)
Definition set_sessionManager (w : Sessions.World) (st : State) : State :=
  {| pollingLocks := pollingLocks st; sendingLocks := sendingLocks st;
     messageQueue := messageQueue st;
     sessionManager := w; effects := effects st |}.

(** The records of a poll that reach [enqueue]: those with a recipient,
    up to the first record whose [markMessageFailed] throws. *)
Fixpoint admitted (storage_throws : string → bool) (messages : list Message)
  : list Message :=
  match messages with
  | [] => []
  | msg :: rest =>
      if has_recipient msg then msg :: admitted storage_throws rest
      else if storage_throws (msg_id msg) then []
      else admitted storage_throws rest
  end.

(** The records that the loop of a poll gets to: all of them, up to and
    including the first record without recipient whose
    [markMessageFailed] throws. *)
Fixpoint reached (storage_throws : string → bool) (messages : list Message)
  : list Message :=
  match messages with
  | [] => []
  | msg :: rest =>
      if negb (has_recipient msg) && storage_throws (msg_id msg) then [msg]
      else msg :: reached storage_throws rest
  end.

(** Consecutive ticks of one session, each with its own outcomes. *)
Definition ticks (cfg : QueueConfig) (envs : list TickEnv) (sessionId : string)
    (st : State) : State :=
  foldl (λ acc env, processDripQueue cfg env sessionId acc) st envs.

(** A tick in which the send and the storage update succeed. *)
Definition succeeds (env : TickEnv) : Prop :=
  (∃ jid, send_result env = SendResolves jid) ∧ markMessageSent_error env = None.

End Orchestrator.

(** ** [src/whatsapp/sendMessage.ts], [resolveRecipient] of
    [src/whatsapp/sendMedia.ts] *)

Module Recipient.

Import Stdlib.Strings.Ascii.

(** [s.includes(c)] for a one-character string [c]. *)
Fixpoint includes_char (c : Ascii.ascii) (s : string) : bool :=
  match s with
  | EmptyString => false
  | String c' s' => Ascii.eqb c' c || includes_char c s'
  end.

(** [s.startsWith(pat)], with what follows the prefix. *)
Fixpoint strip_prefix (pat s : string) : option string :=
  match pat, s with
  | EmptyString, _ => Some s
  | String c pat', String c' s' =>
      if Ascii.eqb c c' then strip_prefix pat' s' else None
  | String _ _, EmptyString => None
  end.

(** [s.replace(pat, '')] with a string pattern: the first occurrence of
    [pat] is removed. *)
Fixpoint remove_first (pat s : string) : string :=
  match strip_prefix pat s with
  | Some rest => rest
  | None =>
      match s with
      | EmptyString => EmptyString
      | String c s' => String c (remove_first pat s')
      end
  end.

(** [s.endsWith(suffix)] *)
Fixpoint ends_with (suffix s : string) : bool :=
  String.eqb s suffix
  || match s with
     | EmptyString => false
     | String _ s' => ends_with suffix s'
     end.

Definition pn_suffix : string := "@s.whatsapp.net".

(** What [repo.getLIDForPN(targetJid)] comes to: there is no repository
    or no such function, the call throws, or it returns a LID or
    nothing. *)
Inductive LidLookup :=
| NoRepository
| LookupThrows
| LookupReturns (lid : option string).

Section Driver.

(** Baileys' [isPnUser]. *)
Variable isPnUser : string → bool.

(** The first step of [sendMessage] and of [resolveRecipient]: a
    recipient without [@] is taken for a phone number. *)
Definition target_jid (recipient : string) : string :=
  if includes_char "@"%char recipient then recipient
  else recipient +:+ pn_suffix.

Definition resolveRecipient (lookup : string → LidLookup) (recipient : string)
  : string :=
  let targetJid := target_jid recipient in
  if isPnUser targetJid then
    match lookup targetJid with
    | LookupReturns lid => if Js.truthy lid then default "" lid else targetJid
    | NoRepository | LookupThrows => targetJid
    end
  else targetJid.

(** [sendMessage(socket, recipient, message)]; [driver_error] is the
    error that [socket.sendMessage] rejects with, if it does. *)
Definition sendMessage (socket : option nat) (lookup : string → LidLookup)
    (driver_error : option string) (recipient message : string)
  : Outcome (bool * string) :=
  match socket with
  | None => Threw "WhatsApp socket is not initialized"
  | Some _ =>
      let targetJid := resolveRecipient lookup recipient in
      match driver_error with
      | Some e => Threw e
      | None => Returned (true, targetJid)
      end
  end.

(** [extractPhoneNumber(jid)], also the first lines of
    [handleIncomingMessage] and [handleOutgoingMessage]. *)
Definition extractPhoneNumber (jid : string) : option string :=
  if isPnUser jid then Some (remove_first pn_suffix jid) else None.

End Driver.

End Recipient.

(** ** File names: [src/whatsapp/mediaHandler.ts] and the [/files]
    endpoint of [src/index.ts]

    A file name is the sequence of its UTF-16 code units, which is what
    [String.prototype.replace] with a regular expression without the [u]
    flag and [String.prototype.includes] work on. *)

Module Media.

(** A code unit matched by [[a-z0-9._-]] under the [i] flag. *)
Definition allowed (u : N) : bool :=
  ((97 <=? u) && (u <=? 122) || (65 <=? u) && (u <=? 90)
   || (48 <=? u) && (u <=? 57)
   || (u =? 46) || (u =? 95) || (u =? 45))%N.

(** [fileName.replace(/[^a-z0-9._-]/gi, '_')] *)
Definition sanitize (fileName : list N) : list N :=
  (λ u, if allowed u then u else 95%N) <$> fileName.

(** [fileName.includes('..')] *)
Fixpoint includes_dotdot (fileName : list N) : bool :=
  match fileName with
  | a :: rest =>
      match rest with
      | b :: _ => (a =? 46)%N && (b =? 46)%N
      | [] => false
      end || includes_dotdot rest
  | [] => false
  end.

(** [fileName.includes(c)] for a one-character string. *)
Definition includes_unit (u : N) (fileName : list N) : bool :=
  existsb (N.eqb u) fileName.

(** The guard of [GET /files/:sessionId/:fileName] that answers 403:
    [fileName.includes('..') || fileName.includes('/') ||
    fileName.includes('\\')]. *)
Definition invalid_file_name (fileName : list N) : bool :=
  includes_dotdot fileName || includes_unit 47 fileName
  || includes_unit 92 fileName.

End Media.

(** ** Scenario data

    The concrete sessions, messages and states used by the examples. *)

Module Scenario.

Definition queued (i : string) : QueuedMessage :=
  {| qm_id := i; qm_jid := None; qm_phoneNumber := Some "391234567890";
     qm_message := "hello " +:+ i; qm_retries := 0; qm_sessionId := "S" |}.

Definition A : QueuedMessage := queued "A".
Definition B : QueuedMessage := queued "B".
Definition C : QueuedMessage := queued "C".

(** A stored record in status QUEUED for session [S]. *)
Definition stored (i : string) : Message :=
  {| msg_id := i; msg_jid := None; msg_phone_number := Some "391234567890";
     msg_message := "hello " +:+ i; msg_session_id := Some "S" |}.

(** A stored record with neither recipient field. *)
Definition no_recipient (i : string) : Message :=
  {| msg_id := i; msg_jid := None; msg_phone_number := None;
     msg_message := "hello " +:+ i; msg_session_id := Some "S" |}.

(** Stand-ins for the library functions of the dispatcher, to run it. *)
Definition sample_stringify (ev : Webhooks.WebhookEvent) : string :=
  "{tenant_id:" +:+ Webhooks.tenant_id ev +:+ ",session_id:"
    +:+ Webhooks.session_id ev +:+ ",data:" +:+ Webhooks.data ev +:+ "}".

Definition sample_hmac (secret payload : string) : string :=
  "hmac(" +:+ secret +:+ "," +:+ payload +:+ ")".

Definition sent_event : Webhooks.WebhookEvent :=
  {| Webhooks.type := Webhooks.message_sent;
     Webhooks.tenant_id := "T";
     Webhooks.session_id := "S";
     Webhooks.timestamp := "2025-01-01T00:00:00.000Z";
     Webhooks.data := "A" |}.

Definition hook : string := "https://tenant.example/hook".

(** Session [S] created, paired and connected. *)
Definition connected_S : Sessions.World :=
  Sessions.run Sessions.no_faults
    [Sessions.EvCreate "S" None;
     Sessions.EvConnectionUpdate "S" (Sessions.pairing_code "2@pairing");
     Sessions.EvCredsUpdate "S";
     Sessions.EvConnectionUpdate "S" Sessions.link_established]
    Sessions.initial.

(** Session [S] created with an auth folder of its own, as a row of the
    sessions table can name one, paired and connected. *)
Definition custom_S : Sessions.World :=
  Sessions.run Sessions.no_faults
    [Sessions.EvCreate "S" (Some "sessions/S");
     Sessions.EvCredsUpdate "S";
     Sessions.EvConnectionUpdate "S" Sessions.link_established]
    Sessions.initial.

(** A recoverable link loss followed by the reconnect it schedules. *)
Definition lost_and_reconnected : list Sessions.Event :=
  [Sessions.EvConnectionUpdate "S" Sessions.link_lost_recoverable;
   Sessions.EvTimer "S"].

(** [n] link losses, each followed by its reconnect. *)
Fixpoint rounds (n : nat) : list Sessions.Event :=
  match n with
  | O => []
  | S n' => lost_and_reconnected ++ rounds n'
  end.

(** The orchestrator at start-up with session [S] connected. *)
Definition started : Orchestrator.State :=
  {| Orchestrator.pollingLocks := ∅;
     Orchestrator.sendingLocks := ∅;
     Orchestrator.messageQueue := Queue.empty;
     Orchestrator.sessionManager := connected_S;
     Orchestrator.effects := [] |}.

(** After a poll that found A, B and C queued, in this order. *)
Definition ready : Orchestrator.State :=
  Orchestrator.pollSupabaseForMessages (λ _, false)
    [stored "A"; stored "B"; stored "C"] "S" started.

(** The same with the link of [S] lost since. *)
Definition ready_link_down : Orchestrator.State :=
  {| Orchestrator.pollingLocks := Orchestrator.pollingLocks ready;
     Orchestrator.sendingLocks := Orchestrator.sendingLocks ready;
     Orchestrator.messageQueue := Orchestrator.messageQueue ready;
     Orchestrator.sessionManager :=
       Sessions.on_connection_update Sessions.no_faults "S"
         Sessions.link_lost_recoverable connected_S;
     Orchestrator.effects := Orchestrator.effects ready |}.

(** [config.queue] with [maxRetries = 1]. *)
Definition retry_once : QueueConfig :=
  {| pollIntervalMs := 10000; maxMessagesPerMinute := 3;
     sendIntervalMs := 20000; maxRetries := 1 |}.

(** [n] link losses delivered with no timer coming due in between. *)
Definition losses (n : nat) : list Sessions.Event :=
  replicate n (Sessions.EvConnectionUpdate "S" Sessions.link_lost_recoverable).

End Scenario.

(** * Properties *)

(** ** JavaScript truthiness *)

Lemma or_falsy (a b : option string) :
  Js.truthy (Js.or a b) = false ↔ Js.truthy a = false ∧ Js.truthy b = false.
Proof.
  unfold Js.or. destruct (Js.truthy a) eqn:Ha.
  - rewrite Ha. split; [discriminate | intros [? _]; discriminate].
  - split; [auto | intros [_ ?]; assumption].
Qed.

Lemma truthy_Some_nonempty (x : string) : x ≠ "" → Js.truthy (Some x) = true.
Proof.
  intros Hne. unfold Js.truthy. by destruct (String.eqb_spec x "").
Qed.

(** ** The delivery queue *)

Section QueueFacts.
Import Queue.

Implicit Types (q : MessageQueue) (m : QueuedMessage) (s i : string).

(** An id recorded as processed makes [enqueue] return at once. *)
Lemma enqueue_processed m q :
  qm_id m ∈ processedIds q → enqueue m q = q.
Proof. intros Hin. unfold enqueue. by rewrite decide_True. Qed.

Lemma has_id_true i (queue : list QueuedMessage) :
  has_id i queue = true ↔ i ∈ qm_id <$> queue.
Proof.
  unfold has_id. rewrite existsb_exists, list_elem_of_fmap. split.
  - intros (m & Hm & Heq). apply String.eqb_eq in Heq.
    exists m. split; [done | by apply list_elem_of_In].
  - intros (m & -> & Hm). exists m. split; [by apply list_elem_of_In |].
    apply String.eqb_refl.
Qed.

Lemma has_id_false i (queue : list QueuedMessage) :
  has_id i queue = false ↔ i ∉ qm_id <$> queue.
Proof.
  rewrite <- has_id_true. destruct (has_id i queue); split; congruence.
Qed.

(** An id already waiting in the session's queue makes [enqueue] leave
    the whole state as it is. *)
Lemma enqueue_present m q :
  qm_id m ∈ qm_id <$> queue_of (session_of m) q → enqueue m q = q.
Proof.
  intros Hin. unfold enqueue, queue_of in *.
  destruct (decide (qm_id m ∈ processedIds q)) as [|_]; [done |].
  destruct (queues q !! session_of m) as [queue|] eqn:Hq; simpl in *.
  - rewrite Hq. simpl. apply has_id_true in Hin. rewrite Hin.
    by destruct q.
  - by apply elem_of_nil in Hin.
Qed.

(** A fresh id is appended at the tail of its session's queue. *)
Lemma enqueue_fresh m q :
  qm_id m ∉ processedIds q →
  qm_id m ∉ qm_id <$> queue_of (session_of m) q →
  queue_of (session_of m) (enqueue m q) = queue_of (session_of m) q ++ [m]
  ∧ processedIds (enqueue m q) = processedIds q
  ∧ ∀ s, s ≠ session_of m → queue_of s (enqueue m q) = queue_of s q.
Proof.
  intros Hp Hin. unfold enqueue, queue_of in *.
  rewrite decide_False by done.
  destruct (queues q !! session_of m) as [queue|] eqn:Hq; simpl in *.
  - rewrite Hq. simpl. apply has_id_false in Hin. rewrite Hin. simpl.
    rewrite lookup_insert_eq. split; [done |]. split; [done |].
    intros s Hs. by rewrite lookup_insert_ne.
  - rewrite lookup_insert_eq. simpl. rewrite lookup_insert_eq.
    split; [done |]. split; [done |].
    intros s Hs. by rewrite !lookup_insert_ne.
Qed.

(** What [dequeue] does to the queues and to the processed set. *)
Lemma dequeue_Some s q m q' :
  dequeue s q = (Some m, q') →
  queue_of s q = m :: queue_of s q'
  ∧ processedIds q' = {[qm_id m]} ∪ processedIds q
  ∧ ∀ s', s' ≠ s → queue_of s' q' = queue_of s' q.
Proof.
  unfold dequeue, queue_of.
  destruct (queues q !! s) as [[|m0 rest]|] eqn:Hq; intros [= <- <-]; simpl.
  rewrite lookup_insert_eq. split; [done |]. split; [done |].
  intros s' Hs'. by rewrite lookup_insert_ne.
Qed.

Lemma dequeue_None s q q' : dequeue s q = (None, q') → q' = q.
Proof.
  unfold dequeue.
  by destruct (queues q !! s) as [[|m0 rest]|]; intros [= <-].
Qed.

(** Only [clearProcessedIds] takes ids out of the processed set. *)
Lemma run_op_processed_mono (o : Op) q :
  is_clearProcessedIds o = false →
  processedIds q ⊆ processedIds (run_op o q).
Proof.
  destruct o as [m|s|s| |]; simpl; intros Hc; try done.
  - unfold enqueue. destruct (decide _); [done |].
    by destruct (has_id _ _).
  - destruct (dequeue s q) as [[m|] q'] eqn:Hd; simpl.
    + apply dequeue_Some in Hd as (_ & -> & _). set_solver.
    + by apply dequeue_None in Hd as ->.
Qed.

Lemma run_processed_mono (ops : list Op) q :
  forallb (λ o, negb (is_clearProcessedIds o)) ops = true →
  processedIds q ⊆ processedIds (run ops q).
Proof.
  revert q. induction ops as [|o ops IH]; intros q Hops; simpl in *.
  - done.
  - apply andb_true_iff in Hops as [Ho Hops].
    apply negb_true_iff in Ho.
    etrans; [by apply run_op_processed_mono | by apply IH].
Qed.

(** The invariant of the class: ids are unique within a queue. *)
Lemma enqueue_unique_ids m q : unique_ids q → unique_ids (enqueue m q).
Proof.
  intros Hu.
  destruct (decide (qm_id m ∈ processedIds q)) as [Hp|Hp];
    [by rewrite enqueue_processed |].
  destruct (decide (qm_id m ∈ qm_id <$> queue_of (session_of m) q)) as [Hin|Hin];
    [by rewrite enqueue_present |].
  destruct (enqueue_fresh m q Hp Hin) as (Hq & _ & Hother).
  intros s. destruct (decide (s = session_of m)) as [->|Hs].
  - rewrite Hq, fmap_app. simpl. apply NoDup_app. split; [apply Hu |].
    split; [| apply NoDup_singleton].
    intros i Hi ->%list_elem_of_singleton. contradiction.
  - rewrite Hother by done. apply Hu.
Qed.

Lemma run_op_unique_ids (o : Op) q : unique_ids q → unique_ids (run_op o q).
Proof.
  intros Hu. destruct o as [m|s|s| |]; simpl.
  - by apply enqueue_unique_ids.
  - destruct (dequeue s q) as [[m|] q'] eqn:Hd; simpl.
    + apply dequeue_Some in Hd as (Hq & _ & Hother).
      intros s'. destruct (decide (s' = s)) as [->|Hs].
      * specialize (Hu s). rewrite Hq in Hu. simpl in Hu.
        by apply NoDup_cons in Hu as [_ ?].
      * rewrite Hother by done. apply Hu.
    + by apply dequeue_None in Hd as ->.
  - intros s'. unfold queue_of, clear. simpl.
    destruct (decide (s = s')) as [->|Hs].
    + rewrite lookup_insert_eq. simpl. apply NoDup_nil_2.
    + rewrite lookup_insert_ne by done. apply Hu.
  - intros s'. unfold queue_of, clearAllQueues. simpl.
    rewrite lookup_empty. simpl. apply NoDup_nil_2.
  - exact Hu.
Qed.

Lemma run_unique_ids (ops : list Op) q : unique_ids q → unique_ids (run ops q).
Proof.
  revert q. induction ops as [|o ops IH]; intros q Hu; simpl; [done |].
  apply IH. by apply run_op_unique_ids.
Qed.

Lemma empty_unique_ids : unique_ids empty.
Proof. intros s. unfold queue_of. simpl. rewrite lookup_empty. apply NoDup_nil_2. Qed.

Lemma count_id_absent i (queue : list QueuedMessage) :
  i ∉ qm_id <$> queue → count_id i queue = 0.
Proof.
  unfold count_id. induction queue as [|m queue IH]; simpl; [done |].
  intros Hin. apply not_elem_of_cons in Hin as [Hne Hin].
  rewrite filter_cons. destruct (decide (qm_id m = i)); [congruence | auto].
Qed.

Lemma count_id_NoDup i (queue : list QueuedMessage) :
  NoDup (qm_id <$> queue) → i ∈ qm_id <$> queue → count_id i queue = 1.
Proof.
  induction queue as [|m queue IH]; simpl.
  - intros _ Hin. by apply elem_of_nil in Hin.
  - intros [Hm Hnd]%NoDup_cons Hin. unfold count_id in *.
    rewrite filter_cons. destruct (decide (qm_id m = i)) as [<-|Hne]; simpl.
    + f_equal. by apply count_id_absent.
    + apply IH; [done |]. apply elem_of_cons in Hin as [Heq|?]; [congruence | done].
Qed.

End QueueFacts.

(** ** Claims about the queue *)

Section QueueClaims.
Import Queue.

(** C2.  Once [dequeue(sessionId)] has returned a message, its id is in
    the processed set, and it is still there after any further use of the
    queue that does not call [clearProcessedIds]; every later [enqueue]
    of a message with that id, the retry of the message itself with an
    incremented counter included, returns the state it was given. *)
Theorem dequeued_id_blocks_enqueue
    (q q' : MessageQueue) (s : string) (m m' : QueuedMessage) (ops : list Op) :
  dequeue s q = (Some m, q') →
  forallb (λ o, negb (is_clearProcessedIds o)) ops = true →
  qm_id m' = qm_id m →
  qm_id m ∈ processedIds q'
  ∧ qm_id m ∈ processedIds (run ops q')
  ∧ enqueue m' (run ops q') = run ops q'
  ∧ enqueue (Orchestrator.bump_retries m) (run ops q') = run ops q'.
Proof.
  intros Hd Hops Hid.
  apply dequeue_Some in Hd as (_ & Hp & _).
  assert (Hin : qm_id m ∈ processedIds q') 
    by (rewrite Hp; apply elem_of_union; left; by apply elem_of_singleton).
  assert (Hin' : qm_id m ∈ processedIds (run ops q'))
    by (by apply (run_processed_mono ops q' Hops)).
  split; [done |]. split; [done |]. split.
  - apply enqueue_processed. by rewrite Hid.
  - by apply enqueue_processed.
Qed.

Lemma dequeued_id_blocks_enqueue_witness :
  let q := enqueue Scenario.B (enqueue Scenario.A empty) in
  let q' := snd (dequeue "S" q) in
  let ops := [OpEnqueue Scenario.C; OpClear "S"; OpClearAllQueues;
              OpDequeue "S"; OpEnqueue Scenario.B] in
  "A" ∈ processedIds q'
  ∧ "A" ∈ processedIds (run ops q')
  ∧ enqueue Scenario.A (run ops q') = run ops q'
  ∧ enqueue (Orchestrator.bump_retries Scenario.A) (run ops q') = run ops q'.
Proof.
  intros q q' ops.
  apply (dequeued_id_blocks_enqueue q q' "S" Scenario.A Scenario.A ops);
    reflexivity.
Defined.

(** C6.  In every state the queue can reach, enqueuing a message whose
    id is already recorded as processed, or already waiting in the queue
    of its session, leaves the state unchanged, and an id waiting in a
    queue has exactly one entry there; enqueuing the same id twice before
    it is dequeued leaves exactly one entry. *)
Theorem enqueue_idempotent (ops : list Op) (m m' : QueuedMessage) :
  qm_id m' = qm_id m →
  session_of m' = session_of m →
  let q := run ops empty in
  (qm_id m ∈ processedIds q → enqueue m q = q)
  ∧ (qm_id m ∈ qm_id <$> queue_of (session_of m) q →
     enqueue m q = q ∧ count_id (qm_id m) (queue_of (session_of m) q) = 1)
  ∧ (qm_id m ∉ processedIds q →
     enqueue m' (enqueue m q) = enqueue m q
     ∧ count_id (qm_id m) (queue_of (session_of m) (enqueue m q)) = 1).
Proof.
  intros Hid Hs q.
  assert (Hu : unique_ids q) by apply run_unique_ids, empty_unique_ids.
  split; [apply enqueue_processed |]. split.
  - intros Hin. split; [by apply enqueue_present |].
    by apply count_id_NoDup.
  - intros Hp.
    assert (Hin : qm_id m ∈ qm_id <$> queue_of (session_of m) (enqueue m q)).
    { destruct (decide (qm_id m ∈ qm_id <$> queue_of (session_of m) q)) as [?|Hn].
      - by rewrite enqueue_present.
      - destruct (enqueue_fresh m q Hp Hn) as (-> & _ & _).
        rewrite fmap_app. set_solver. }
    split.
    + apply enqueue_present. by rewrite Hid, Hs.
    + apply count_id_NoDup; [| done]. by apply enqueue_unique_ids.
Qed.

Lemma enqueue_idempotent_witness :
  let q := run [OpEnqueue Scenario.B; OpEnqueue Scenario.C; OpDequeue "S"] empty in
  let A' := Orchestrator.bump_retries Scenario.A in
  (qm_id Scenario.A ∈ processedIds q → enqueue Scenario.A q = q)
  ∧ (qm_id Scenario.A ∈ qm_id <$> queue_of "S" q →
     enqueue Scenario.A q = q ∧ count_id "A" (queue_of "S" q) = 1)
  ∧ (qm_id Scenario.A ∉ processedIds q →
     enqueue A' (enqueue Scenario.A q) = enqueue Scenario.A q
     ∧ count_id "A" (queue_of "S" (enqueue Scenario.A q)) = 1).
Proof.
  intros q A'.
  apply (enqueue_idempotent
           [OpEnqueue Scenario.B; OpEnqueue Scenario.C; OpDequeue "S"]
           Scenario.A A'); reflexivity.
Defined.

End QueueClaims.

(** ** The viewer broadcaster *)

Section BroadcasterFacts.
Import Broadcaster.

Implicit Types (m : gmap string (gset Response)) (s : string) (r : Response).

Lemma initial_no_empty_set : no_empty_set initial.
Proof. intros s clients Hs. unfold initial in Hs. by rewrite lookup_empty in Hs. Qed.

(** [addSSEClient] never leaves an empty set behind. *)
Lemma addSSEClient_no_empty_set s r m :
  no_empty_set m → no_empty_set (addSSEClient s r m).
Proof.
  intros Hm s' clients. unfold addSSEClient.
  destruct (decide (s = s')) as [<-|Hne].
  - rewrite lookup_insert_eq. intros [= <-]. set_solver.
  - rewrite lookup_insert_ne by done.
    destruct (m !! s) eqn:Hs; [apply Hm |].
    rewrite lookup_insert_ne by done. apply Hm.
Qed.

(** [removeSSEClient] prunes the session whose last viewer leaves. *)
Lemma removeSSEClient_no_empty_set s r m :
  no_empty_set m → no_empty_set (removeSSEClient s r m).
Proof.
  intros Hm s' clients. unfold removeSSEClient.
  destruct (m !! s) as [cs|] eqn:Hs; [| apply Hm].
  destruct (decide (size (cs ∖ {[r]}) = 0)) as [Hz|Hnz].
  - destruct (decide (s = s')) as [<-|Hne].
    + by rewrite lookup_delete_eq.
    + rewrite lookup_delete_ne, lookup_insert_ne by done. apply Hm.
  - destruct (decide (s = s')) as [<-|Hne].
    + rewrite lookup_insert_eq. intros [= <-] Hempty.
      apply Hnz. rewrite Hempty. apply size_empty.
    + rewrite lookup_insert_ne by done. apply Hm.
Qed.

(** The visit of the viewer set keeps the members whose write succeeds
    and no others. *)
Lemma write_all_foldl (write_throws : Response → bool) (l : list Response) :
  ∀ (acc : gset Response) r,
    r ∈ foldl (λ cs res, if write_throws res then cs ∖ {[res]} else cs) acc l
    ↔ r ∈ acc ∧ ¬ (r ∈ l ∧ write_throws r = true).
Proof.
  induction l as [|x l IH]; intros acc r; simpl.
  - split; [| by intros [? _]].
    intros Hr. split; [done |]. intros [Hl _]. by apply elem_of_nil in Hl.
  - rewrite IH. destruct (write_throws x) eqn:Hx.
    + rewrite elem_of_difference, elem_of_singleton, elem_of_cons. split.
      * intros [[Hacc Hne] Hn]. split; [done |].
        intros [[->|Hl] Ht]; [done |]. by apply Hn.
      * intros [Hacc Hn]. split; [split; [done |] |].
        -- intros ->. apply Hn. split; [by left | done].
        -- intros [Hl Ht]. apply Hn. split; [by right | done].
    + rewrite elem_of_cons. split.
      * intros [Hacc Hn]. split; [done |].
        intros [[->|Hl] Ht]; [congruence |]. by apply Hn.
      * intros [Hacc Hn]. split; [done |].
        intros [Hl Ht]. apply Hn. split; [by right | done].
Qed.

Lemma elem_of_write_all write_throws (clients : gset Response) r :
  r ∈ write_all write_throws clients ↔ r ∈ clients ∧ write_throws r = false.
Proof.
  unfold write_all. rewrite write_all_foldl, elem_of_elements.
  destruct (write_throws r); split.
  - intros [Hr Hn]. exfalso. by apply Hn.
  - by intros [_ ?].
  - by intros [Hr _].
  - intros [Hr _]. split; [done |]. by intros [_ ?].
Qed.

(** A broadcast to a session all of whose viewers fail leaves the session
    in the map, with an empty set. *)
Lemma broadcast_all_writes_fail write_throws s m (clients : gset Response) :
  m !! s = Some clients → clients ≠ ∅ →
  (∀ r, r ∈ clients → write_throws r = true) →
  broadcastMessageToSSE write_throws s m !! s = Some ∅.
Proof.
  intros Hs Hne Hall. unfold broadcastMessageToSSE. rewrite Hs.
  destruct (decide (size clients = 0)) as [Hz|_].
  - by apply size_empty_inv, leibniz_equiv in Hz.
  - rewrite lookup_insert_eq. f_equal. apply set_eq. intros r.
    rewrite elem_of_write_all. split.
    + intros [Hr Hf]. by rewrite (Hall r Hr) in Hf.
    + intros Hr. by apply elem_of_empty in Hr.
Qed.

(** A failed write removes that viewer and no other. *)
Lemma broadcast_keeps_live_viewers write_throws s m (clients : gset Response) r :
  m !! s = Some clients → clients ≠ ∅ →
  (r ∈ default ∅ (broadcastMessageToSSE write_throws s m !! s)
   ↔ r ∈ clients ∧ write_throws r = false).
Proof.
  intros Hs Hne. unfold broadcastMessageToSSE. rewrite Hs.
  destruct (decide (size clients = 0)) as [Hz|_].
  - by apply size_empty_inv, leibniz_equiv in Hz.
  - rewrite lookup_insert_eq. simpl. apply elem_of_write_all.
Qed.

(** C7, on the code.  A session with a single viewer whose write fails:
    the broadcast deletes the viewer from the set and leaves the session
    id in the map with an empty set, where [removeSSEClient] on the same
    state deletes the key. *)
Theorem broadcast_leaves_empty_set :
  let m := addSSEClient "S" 1 initial in
  no_empty_set m
  ∧ broadcastMessageToSSE (λ _, true) "S" m = {["S" := ∅]}
  ∧ ¬ no_empty_set (broadcastMessageToSSE (λ _, true) "S" m)
  ∧ removeSSEClient "S" 1 m = ∅.
Proof.
  intros m.
  assert (Hb : broadcastMessageToSSE (λ _, true) "S" m = {["S" := ∅]})
    by (vm_compute; reflexivity).
  split; [apply addSSEClient_no_empty_set, initial_no_empty_set |].
  split; [exact Hb |]. split.
  - rewrite Hb. intros H. apply (H "S" ∅); [| reflexivity].
    apply lookup_singleton_eq.
  - vm_compute. reflexivity.
Qed.

End BroadcasterFacts.

(** ** The webhook dispatcher *)

Section WebhookFacts.
Import Webhooks.

Variable JSON_stringify : WebhookEvent → string.
Variable hmac_sha256_hex : string → string → string.

(** The loop, iteration by iteration: what the [j]-th attempt made from
    loop counter [attempt] on looks like, and when the loop stops. *)
Lemma attempts_from_spec url ev payload signature maxRetries fetch :
  ∀ remaining attempt,
    let tr := attempts_from url ev payload signature maxRetries fetch
                            remaining attempt in
    (length tr ≤ remaining)%nat
    ∧ ∀ j a, tr !! j = Some a →
        slept a = (if (0 <? attempt + j)%nat
                   then Some (delays !! (attempt + j)) else None)
        ∧ request a =
            {| Webhooks.url := url;
               X_Webhook_Event := type ev;
               X_Webhook_Timestamp := timestamp ev;
               X_Webhook_Attempt := attempt + j + 1;
               X_Webhook_Signature :=
                 if Js.truthy signature then signature else None;
               body := payload |}
        ∧ (fetch (attempt + j) = ResponseOk → length tr = S j)
        ∧ ((S j < length tr)%nat → fetch (attempt + j) ≠ ResponseOk).
Proof.
  induction remaining as [|remaining IH]; intros attempt; simpl.
  - split; [lia |]. intros j a Hj. by rewrite lookup_nil in Hj.
  - specialize (IH (S attempt)). simpl in IH. destruct IH as [IHlen IH].
    set (rest := attempts_from url ev payload signature maxRetries fetch
                               remaining (S attempt)) in *.
    assert (Hhead : ∀ (tl : list Attempt) j a,
               (mkAttempt
                  (if (0 <? attempt)%nat then Some (delays !! attempt) else None)
                  (mkRequest url (type ev) (timestamp ev) (attempt + 1)
                     (if Js.truthy signature then signature else None) payload)
                :: tl) !! j = Some a →
               j = 0 →
               slept a = (if (0 <? attempt + j)%nat
                          then Some (delays !! (attempt + j)) else None)
               ∧ request a =
                   mkRequest url (type ev) (timestamp ev) (attempt + j + 1)
                     (if Js.truthy signature then signature else None) payload).
    { intros tl j a Hj ->. simpl in Hj. injection Hj as <-. simpl.
      by rewrite !Nat.add_0_r. }
    destruct (fetch attempt) as [|status|error] eqn:Hf.
    + split; [simpl; lia |]. intros [|j] a Hj; [| simpl in Hj; by rewrite lookup_nil in Hj].
      destruct (Hhead [] 0 a Hj eq_refl) as [-> ->].
      split; [done |]. split; [done |]. split; [done |]. simpl. lia.
    + destruct (Z.of_nat attempt =? maxRetries - 1)%Z.
      * split; [simpl; lia |].
        intros [|j] a Hj; [| simpl in Hj; by rewrite lookup_nil in Hj].
        destruct (Hhead [] 0 a Hj eq_refl) as [-> ->].
        split; [done |]. split; [done |]. rewrite Nat.add_0_r, Hf.
        split; [done |]. simpl. lia.
      * split; [simpl; lia |]. intros [|j] a Hj.
        -- destruct (Hhead rest 0 a Hj eq_refl) as [-> ->].
           split; [done |]. split; [done |]. rewrite Nat.add_0_r, Hf.
           split; [done | done].
        -- simpl in Hj. destruct (IH j a Hj) as (Hs & Hr & Hok & Hlt).
           replace (attempt + S j) with (S attempt + j) by lia.
           split; [done |]. split; [by rewrite Hr |].
           split; [intros Hfj; simpl; by rewrite Hok |].
           simpl. intros Hlen. apply Hlt. lia.
    + destruct (Z.of_nat attempt =? maxRetries - 1)%Z.
      * split; [simpl; lia |].
        intros [|j] a Hj; [| simpl in Hj; by rewrite lookup_nil in Hj].
        destruct (Hhead [] 0 a Hj eq_refl) as [-> ->].
        split; [done |]. split; [done |]. rewrite Nat.add_0_r, Hf.
        split; [done |]. simpl. lia.
      * split; [simpl; lia |]. intros [|j] a Hj.
        -- destruct (Hhead rest 0 a Hj eq_refl) as [-> ->].
           split; [done |]. split; [done |]. rewrite Nat.add_0_r, Hf.
           split; [done | done].
        -- simpl in Hj. destruct (IH j a Hj) as (Hs & Hr & Hok & Hlt).
           replace (attempt + S j) with (S attempt + j) by lia.
           split; [done |]. split; [by rewrite Hr |].
           split; [intros Hfj; simpl; by rewrite Hok |].
           simpl. intros Hlen. apply Hlt. lia.
Qed.

(** When no attempt succeeds the loop runs for all its iterations. *)
Lemma attempts_from_all_fail url ev payload signature maxRetries fetch :
  (∀ i, fetch i ≠ ResponseOk) →
  ∀ remaining attempt,
    length (attempts_from url ev payload signature maxRetries fetch
                          remaining attempt) = remaining
    ∨ (Z.of_nat (attempt + remaining) ≠ maxRetries
       ∧ (0 < remaining)%nat).
Proof.
  intros Hfail. induction remaining as [|remaining IH]; intros attempt; simpl.
  - by left.
  - destruct (Z.eqb_spec (Z.of_nat attempt) (maxRetries - 1)) as [Heq|Hne].
    + destruct remaining as [|remaining].
      * left. by destruct (fetch attempt).
      * right. split; lia.
    + destruct (IH (S attempt)) as [Hlen|[Hne' Hpos]].
      * left. specialize (Hfail attempt).
        destruct (fetch attempt); [done | |]; simpl; by rewrite Hlen.
      * right. split; lia.
Qed.

End WebhookFacts.


(** ** The session registry *)

Section SessionFacts.
Import Sessions.

Implicit Types (w : World) (s : string) (env : Faults).

Example connected_S_state :
  Scenario.connected_S
  = {| sessions := {[ "S" := {| socket := 0; connected := true;
                                reconnectAttempts := 0;
                                authPath := "auth_info_S"; qrCode := None |} ]};
       files := {[ "auth_info_S" := SavedCreds ]};
       timers := []; sockets_made := 1 |}.
Proof. vm_compute. reflexivity. Qed.

(** C4, on the code.  Six recoverable link losses, each followed by the
    reconnect that the handler schedules: [reconnectSession] replaces the
    session's record by a new one whose counter is 0, so every loss finds
    the counter at 0, the ceiling is never reached, the stored credentials
    stay on disk and the session is not re-paired. *)
Theorem six_losses_with_reconnects_never_regenerate :
  let before_last_timer :=
    run no_faults
        (Scenario.rounds 5 ++ [EvConnectionUpdate "S" link_lost_recoverable])
        Scenario.connected_S in
  let final := run no_faults (Scenario.rounds 6) Scenario.connected_S in
  (reconnectAttempts <$> sessions before_last_timer !! "S") = Some 1
  ∧ timers before_last_timer = [("S", 2000%Z)]
  ∧ files before_last_timer = {[ "auth_info_S" := SavedCreds ]}
  ∧ final
    = {| sessions := {[ "S" := {| socket := 6; connected := false;
                                  reconnectAttempts := 0;
                                  authPath := "auth_info_S"; qrCode := None |} ]};
         files := {[ "auth_info_S" := SavedCreds ]};
         timers := []; sockets_made := 7 |}.
Proof. vm_compute. repeat split. Qed.

(** The same six losses delivered back to back, before any reconnect
    timer comes due, do reach the ceiling: the sixth one removes the
    credentials and registers a fresh session. *)
Lemma six_losses_back_to_back_regenerate :
  run no_faults (Scenario.losses 6) Scenario.connected_S
  = {| sessions := {[ "S" := {| socket := 1; connected := false;
                                reconnectAttempts := 0;
                                authPath := "auth_info_S"; qrCode := None |} ]};
       files := {[ "auth_info_S" := BlankCreds ]};
       timers := [("S", 2000%Z); ("S", 4000%Z); ("S", 8000%Z);
                  ("S", 16000%Z); ("S", 30000%Z)];
       sockets_made := 2 |}.
Proof. vm_compute. reflexivity. Qed.

Lemma take_timer_app_None s ts d :
  take_timer s ts = None → take_timer s (ts ++ [(s, d)]) = Some ts.
Proof.
  induction ts as [|t ts IH]; simpl; intros H.
  - by rewrite String.eqb_refl.
  - destruct (String.eqb (fst t) s); [done |].
    destruct (take_timer s ts); [done |]. by rewrite IH.
Qed.

(** One loss and its reconnect, from any state in which the session is
    registered with its counter at 0: the counter is at 0 again, on a new
    socket, and nothing on disk has changed. *)
Lemma round_keeps_counter env w sd :
  useMultiFileAuthState_throws env = false →
  makeWASocket_throws env = false →
  sessions w !! "S" = Some sd →
  reconnectAttempts sd = 0 →
  is_Some (files w !! authPath sd) →
  take_timer "S" (timers w) = None →
  let w' := run env Scenario.lost_and_reconnected w in
  files w' = files w ∧ timers w' = timers w
  ∧ sessions w' !! "S"
    = Some {| socket := sockets_made w; connected := false;
              reconnectAttempts := 0; authPath := authPath sd;
              qrCode := None |}.
Proof.
  intros Hu Hm Hs Hr [c Hf] Ht. simpl.
  unfold on_connection_update. simpl. rewrite Hs, Hr. simpl.
  unfold on_timer. simpl. rewrite (take_timer_app_None _ _ _ Ht).
  unfold reconnectSession, reconnectSession_begin. simpl.
  rewrite !lookup_alter_eq, Hs. simpl.
  unfold createSession, createSession_resume. simpl.
  rewrite lookup_delete_eq, Hu, Hm. simpl.
  by rewrite Hf, lookup_insert_eq.
Qed.

Lemma run_app env (es1 es2 : list Event) w :
  run env (es1 ++ es2) w = run env es2 (run env es1 w).
Proof. unfold run. apply foldl_app. Qed.

(** Any number of losses, each followed by its reconnect, leaves the
    credentials in place and the counter at 0. *)
Lemma rounds_never_regenerate env (n : nat) :
  useMultiFileAuthState_throws env = false →
  makeWASocket_throws env = false →
  ∀ w sd,
    sessions w !! "S" = Some sd →
    reconnectAttempts sd = 0 →
    is_Some (files w !! authPath sd) →
    take_timer "S" (timers w) = None →
    let w' := run env (Scenario.rounds n) w in
    files w' = files w ∧ timers w' = timers w
    ∧ ∃ sd', sessions w' !! "S" = Some sd'
             ∧ reconnectAttempts sd' = 0 ∧ authPath sd' = authPath sd.
Proof.
  intros Hu Hm. induction n as [|n IH]; intros w sd Hs Hr Hf Ht.
  - simpl. split; [done |]. split; [done |]. by exists sd.
  - cbn [Scenario.rounds]. cbv zeta. rewrite run_app.
    destruct (round_keeps_counter env w sd Hu Hm Hs Hr Hf Ht) as (Hf1 & Ht1 & Hs1).
    set (w1 := run env Scenario.lost_and_reconnected w) in *.
    destruct (IH w1 _ Hs1 eq_refl) as (Hf2 & Ht2 & sd' & Hs2 & Hr2 & Ha2).
    + simpl. by rewrite Hf1.
    + by rewrite Ht1.
    + rewrite Hf2, Ht2, Hf1, Ht1. split; [done |]. split; [done |].
      exists sd'. by simpl in Ha2.
Qed.

(** *** Reconnect delays *)

Lemma reconnect_delay_le (k : nat) : (reconnect_delay k ≤ 30000)%Z.
Proof. unfold reconnect_delay. apply Z.le_min_r. Qed.

Lemma createSession_resume_timers env s p w :
  timers (fst (createSession_resume env s p w)) = timers w.
Proof.
  unfold createSession_resume.
  by destruct (useMultiFileAuthState_throws env), (makeWASocket_throws env).
Qed.

Lemma createSession_timers env s p w :
  timers (fst (createSession env s p w)) = timers w.
Proof.
  unfold createSession. destruct (sessions w !! s); [done |].
  apply createSession_resume_timers.
Qed.

Lemma handleLogoutAndRegenerate_timers env s w :
  timers (handleLogoutAndRegenerate env s w) = timers w.
Proof.
  unfold handleLogoutAndRegenerate, handleLogoutAndRegenerate_begin,
    handleLogoutAndRegenerate_resume.
  destruct (sessions w !! s); [| done].
  unfold rmSync. destruct (existsSync _ _), (rmSync_throws env); simpl;
    try done; by rewrite createSession_timers.
Qed.

Lemma take_timer_Forall (P : string * Z → Prop) s ts ts' :
  take_timer s ts = Some ts' → Forall P ts → Forall P ts'.
Proof.
  revert ts'. induction ts as [|t ts IH]; simpl; intros ts' H Hall; [done |].
  apply Forall_cons in Hall as [Ht Hall].
  destruct (String.eqb (fst t) s); [by injection H as <- |].
  destruct (take_timer s ts) as [ts0|]; [| done].
  injection H as <-. apply Forall_cons. split; [done | by apply IH].
Qed.

(** The handler either leaves the timers alone or starts one, with a
    delay computed by [reconnect_delay]. *)
Lemma on_connection_update_timers env s u w :
  timers (on_connection_update env s u w) = timers w
  ∨ ∃ k, timers (on_connection_update env s u w)
         = timers w ++ [(s, reconnect_delay k)].
Proof.
  unfold on_connection_update.
  set (w0 := if Js.truthy (qr u) then _ else w).
  assert (Hw0 : timers w0 = timers w) by (unfold w0; by destruct (Js.truthy _)).
  destruct (connection u) as [[| |]|]; simpl; try (by left).
  destruct (sessions w0 !! s) as [sd|];
    [| left; by rewrite handleLogoutAndRegenerate_timers].
  destruct (negb _); [| left; by rewrite handleLogoutAndRegenerate_timers].
  destruct (_ <? _)%nat; [| left; by rewrite handleLogoutAndRegenerate_timers].
  right. exists (S (reconnectAttempts sd)). simpl. by rewrite Hw0.
Qed.

(** No timer the registry ever starts is longer than 30 s. *)
Lemma timers_bounded env (es : list Event) w :
  Forall (λ t, (snd t ≤ 30000)%Z) (timers w) →
  Forall (λ t, (snd t ≤ 30000)%Z) (timers (run env es w)).
Proof.
  revert w. induction es as [|e es IH]; intros w Hw; simpl; [done |].
  apply IH. destruct e as [s p|s|s u|s]; simpl.
  - by rewrite createSession_timers.
  - unfold on_creds_update. by destruct (sessions w !! s).
  - destruct (on_connection_update_timers env s u w) as [->|[k ->]]; [done |].
    apply Forall_app. split; [done |].
    apply Forall_singleton. simpl. apply reconnect_delay_le.
  - unfold on_timer. destruct (take_timer s (timers w)) as [ts|] eqn:Ht; [| done].
    unfold reconnectSession, reconnectSession_begin. simpl.
    destruct (sessions w !! s); simpl; [rewrite createSession_timers; simpl |];
      by eapply take_timer_Forall.
Qed.

End SessionFacts.

Section SessionClaims.
Import Sessions.

Implicit Types (w : World) (s : string) (env : Faults).

(** C5 as it is stated fails on its particular case: the first
    recoverable loss after a successful connection finds the counter at
    0, increments it first, and starts the reconnect timer with
    [min(1000 * 2^1, 30000)], 2 s and not 1 s. *)
Lemma first_reconnect_waits_two_seconds :
  let w := on_connection_update no_faults "S" link_lost_recoverable
             Scenario.connected_S in
  (reconnectAttempts <$> sessions Scenario.connected_S !! "S") = Some 0
  ∧ timers w = [("S", 2000%Z)]
  ∧ timers w ≠ [("S", Z.min (1000 * 2 ^ 0) 30000)].
Proof. vm_compute. repeat split. discriminate. Qed.

(** C5, as amended.  A recoverable loss that finds the counter at
    [n < 5] increments it and starts one reconnect timer, with delay
    [min(1000 * 2^(n+1), 30000)] ms: between 2 s and 30 s, and 2 s for the
    first reconnect after a successful connection.  No timer that the
    registry starts, in any run, is longer than 30 s. *)
Theorem reconnect_delay_schedule env s (u : ConnectionUpdate) w (sd : SessionData) :
  sessions w !! s = Some sd →
  connection u = Some connection_close →
  statusCode u ≠ Some DisconnectReason_loggedOut →
  (reconnectAttempts sd < maxReconnectAttempts)%nat →
  let w' := on_connection_update env s u w in
  let delay := Z.min (1000 * 2 ^ (Z.of_nat (reconnectAttempts sd) + 1)) 30000 in
  timers w' = timers w ++ [(s, delay)]
  ∧ (reconnectAttempts <$> sessions w' !! s) = Some (S (reconnectAttempts sd))
  ∧ (2000 ≤ delay ≤ 30000)%Z
  ∧ (reconnectAttempts sd = 0 → delay = 2000%Z)
  ∧ ∀ env' (es : list Event),
      Forall (λ t, (snd t ≤ 30000)%Z) (timers (run env' es initial)).
Proof.
  intros Hs Hc Hcode Hlt w' delay.
  assert (Hdelay : reconnect_delay (S (reconnectAttempts sd)) = delay).
  { unfold reconnect_delay, delay. by rewrite Nat2Z.inj_succ, Z.add_1_r. }
  assert (Hpow : (1 ≤ 2 ^ Z.of_nat (reconnectAttempts sd))%Z).
  { pose proof (Z.pow_pos_nonneg 2 (Z.of_nat (reconnectAttempts sd))). lia. }
  assert (Hbounds : (2000 ≤ delay ≤ 30000)%Z).
  { unfold delay. rewrite Z.pow_add_r by lia. lia. }
  assert (Hw' : timers w' = timers w ++ [(s, delay)]
                ∧ (reconnectAttempts <$> sessions w' !! s)
                  = Some (S (reconnectAttempts sd))).
  { unfold w', on_connection_update. rewrite Hc.
    set (w0 := if Js.truthy (qr u) then _ else w).
    assert (Hw0 : timers w0 = timers w ∧
                  ∃ sd0, sessions w0 !! s = Some sd0
                         ∧ reconnectAttempts sd0 = reconnectAttempts sd).
    { unfold w0. destruct (Js.truthy (qr u)); simpl.
      - split; [done |]. rewrite lookup_alter_eq, Hs. simpl. eauto.
      - eauto. }
    destruct Hw0 as (Ht0 & sd0 & Hs0 & Hr0). rewrite Hs0.
    rewrite bool_decide_eq_false_2 by done. simpl. rewrite Hr0.
    apply Nat.ltb_lt in Hlt. rewrite Hlt. simpl.
    rewrite Ht0, Hdelay. split; [done |].
    by rewrite !lookup_alter_eq, Hs0. }
  destruct Hw' as [Ht' Hr'].
  split; [done |]. split; [done |]. split; [done |]. split.
  - intros H0. unfold delay. by rewrite H0.
  - intros env' es. apply timers_bounded. simpl. apply Forall_nil_2.
Qed.

Lemma reconnect_delay_schedule_witness :
  let w := on_connection_update no_faults "S" link_lost_recoverable
             Scenario.connected_S in
  timers w = [] ++ [("S", Z.min (1000 * 2 ^ (Z.of_nat 0 + 1)) 30000)]
  ∧ (reconnectAttempts <$> sessions w !! "S") = Some 1.
Proof.
  intros w.
  destruct (reconnect_delay_schedule no_faults "S" link_lost_recoverable
              Scenario.connected_S
              {| socket := 0; connected := true; reconnectAttempts := 0;
                 authPath := "auth_info_S"; qrCode := None |})
    as (Ht & Hr & _).
  - reflexivity.
  - reflexivity.
  - discriminate.
  - unfold maxReconnectAttempts. simpl. lia.
  - split; [exact Ht | exact Hr].
Defined.

(** C9 as it is stated fails when the auth folder cannot be removed.
    Session [S] is connected and its credentials are saved in its own
    folder; [rmSync] throws.  [deleteSession] catches the error, logs it
    and returns: the session is out of the registry, and its credentials
    are still on disk. *)
Lemma deleteSession_keeps_credentials_when_rmSync_throws :
  let w := Scenario.custom_S in
  (authPath <$> sessions w !! "S") = Some "sessions/S"
  ∧ ∃ w', deleteSession rmSync_fails "S" w = Returned w'
          ∧ sessions w' !! "S" = None
          ∧ files w' !! "sessions/S" = Some SavedCreds
          ∧ files w' !! "sessions/S" ≠ None.
Proof.
  split; [reflexivity |]. eexists. split; [vm_compute; reflexivity |].
  split; [reflexivity |]. split; [reflexivity | discriminate].
Qed.

(** C9, as amended.  [deleteSession] returns normally for every registry,
    every session id and every outcome of the driver's logout and of the
    folder removal.  The session is then absent from the registry, the
    other sessions, the timers and the sockets are as before, and for an
    id that is not registered the registry is left as it is.  The folder
    removed is the one named by the session's [authPath] when the session
    is registered with a non-empty [authPath], and [auth_info_<id>]
    otherwise; no other folder is touched, and when [rmSync] throws the
    error is caught and nothing on disk changes. *)
Theorem deleteSession_completes env s w :
  ∃ w', deleteSession env s w = Returned w'
    ∧ sessions w' = delete s (sessions w)
    ∧ (sessions w !! s = None → sessions w' = sessions w)
    ∧ timers w' = timers w ∧ sockets_made w' = sockets_made w
    ∧ (∀ sd, sessions w !! s = Some sd → authPath sd ≠ "" →
         (rmSync_throws env = false → files w' = delete (authPath sd) (files w))
         ∧ (rmSync_throws env = true → files w' = files w))
    ∧ (sessions w !! s = None
       ∨ (∃ sd, sessions w !! s = Some sd ∧ authPath sd = "") →
         (rmSync_throws env = false →
          files w' = delete ("auth_info_" +:+ s) (files w))
         ∧ (rmSync_throws env = true → files w' = files w)).
Proof.
  unfold deleteSession.
  set (path := authPath_or_default (sessions w !! s) s).
  set (w1 := if decide (is_Some (sessions w !! s))
             then set_sessions (delete s) w else w).
  assert (Hw1 : sessions w1 = delete s (sessions w)
                ∧ files w1 = files w ∧ timers w1 = timers w
                ∧ sockets_made w1 = sockets_made w).
  { unfold w1. destruct (decide (is_Some (sessions w !! s))) as [Hsome|Hnone];
      simpl; [done |].
    split; [| done]. symmetry. apply delete_id. by apply eq_None_not_Some. }
  destruct Hw1 as (Hsess & Hfiles & Htimers & Hsock).
  assert (Hlogout :
            (match sessions w !! s with
             | Some sd => try_catch (socket_logout env (socket sd))
                                    (λ _, Returned ())
             | None => Returned ()
             end) = Returned ()).
  { destruct (sessions w !! s); [| done].
    unfold socket_logout. by destruct (logout_throws env). }
  rewrite Hlogout. unfold mbind, Outcome_bind.
  (* the folder that is removed *)
  assert (Hrm : ∃ w', (if existsSync path w1
                       then try_catch (rmSync env path w1) (λ _, Returned w1)
                       else Returned w1) = Returned w'
                ∧ sessions w' = sessions w1 ∧ timers w' = timers w1
                ∧ sockets_made w' = sockets_made w1
                ∧ (rmSync_throws env = false → files w' = delete path (files w))
                ∧ (rmSync_throws env = true → files w' = files w)).
  { destruct (existsSync path w1) eqn:Hex.
    - unfold rmSync. destruct (rmSync_throws env); simpl.
      + exists w1. by rewrite Hfiles.
      + eexists. split; [reflexivity |]. simpl. by rewrite Hfiles.
    - exists w1. repeat (split; [done |]). split; [| by rewrite Hfiles].
      intros _. rewrite Hfiles. symmetry. apply delete_id.
      unfold existsSync in Hex. apply bool_decide_eq_false in Hex.
      rewrite Hfiles in Hex. by apply eq_None_not_Some. }
  destruct Hrm as (w' & -> & Hs' & Ht' & Hn' & Hok & Hthrow).
  exists w'. split; [done |]. split; [by rewrite Hs' |]. split.
  { intros Hn. rewrite Hs', Hsess. apply delete_id. exact Hn. }
  split; [by rewrite Ht' |]. split; [by rewrite Hn' |]. split.
  - intros sd Hsd Hpath.
    assert (path = authPath sd) as <-; [| done].
    unfold path, authPath_or_default, Js.or_default, Js.truthy. rewrite Hsd. simpl.
    apply String.eqb_neq in Hpath. by rewrite Hpath.
  - intros Hcase.
    assert (path = "auth_info_" +:+ s) as <-; [| done].
    unfold path, authPath_or_default, Js.or_default, Js.truthy.
    destruct Hcase as [->|(sd & -> & Hempty)]; simpl; [done |].
    by rewrite Hempty.
Qed.

Lemma deleteSession_completes_witness :
  ∃ w', deleteSession logout_fails "S" Scenario.custom_S = Returned w'
        ∧ sessions w' !! "S" = None
        ∧ files Scenario.custom_S !! "sessions/S" = Some SavedCreds
        ∧ files w' !! "sessions/S" = None.
Proof.
  destruct (deleteSession_completes logout_fails "S" Scenario.custom_S)
    as (w' & Hret & Hs & _ & _ & _ & Hpath & _).
  exists w'. split; [exact Hret |]. split; [rewrite Hs; apply lookup_delete_eq |].
  split; [reflexivity |].
  destruct (Hpath {| socket := 0; connected := true; reconnectAttempts := 0;
                     authPath := "sessions/S"; qrCode := None |})
    as [Hok _]; [reflexivity | discriminate |].
  rewrite Hok by reflexivity. apply lookup_delete_eq.
Defined.

(** The sibling [closeSession] does not guard the logout: there a
    rejected logout is thrown on to the caller. *)
Lemma closeSession_throws s w (sd : SessionData) :
  sessions w !! s = Some sd →
  closeSession logout_fails s w = Threw "logout failed".
Proof. intros Hs. unfold closeSession. by rewrite Hs. Qed.

Example deleteSession_logout_throws :
  deleteSession logout_fails "S" Scenario.connected_S
  = Returned {| sessions := ∅; files := ∅; timers := []; sockets_made := 1 |}.
Proof. vm_compute. reflexivity. Qed.

End SessionClaims.

(** ** The poll and the drip scheduler *)

Section OrchestratorFacts.
Import Orchestrator.

Implicit Types (st : State) (s : string) (q : Queue.MessageQueue).

Example ready_queue :
  Queue.queue_of "S" (messageQueue Scenario.ready)
  = [Scenario.A; Scenario.B; Scenario.C]
  ∧ effects Scenario.ready = [].
Proof. vm_compute. split; reflexivity. Qed.

(** An entry found in a queue after [enqueue] was there before or is the
    message just given. *)
Lemma enqueue_entries (m qm : QueuedMessage) s q :
  qm ∈ Queue.queue_of s (Queue.enqueue m q) →
  qm ∈ Queue.queue_of s q ∨ qm = m.
Proof.
  destruct (decide (qm_id m ∈ Queue.processedIds q)) as [Hp|Hp];
    [rewrite enqueue_processed by done; auto |].
  destruct (decide (qm_id m ∈ qm_id <$> Queue.queue_of (Queue.session_of m) q))
    as [Hin|Hin]; [rewrite enqueue_present by done; auto |].
  destruct (enqueue_fresh m q Hp Hin) as (Hq & _ & Hother).
  destruct (decide (s = Queue.session_of m)) as [->|Hs].
  - rewrite Hq. intros [?| ->%list_elem_of_singleton]%elem_of_app; auto.
  - rewrite Hother by done. auto.
Qed.

(** The poll loop enqueues nothing but records that have a recipient. *)
Lemma poll_loop_entries storage_throws s (messages : list Message) :
  ∀ st s' (qm : QueuedMessage),
    qm ∈ Queue.queue_of s' (messageQueue (poll_loop storage_throws s messages st)) →
    qm ∈ Queue.queue_of s' (messageQueue st)
    ∨ ∃ msg, msg ∈ messages ∧ has_recipient msg = true
             ∧ qm = queuedMessage_of s msg.
Proof.
  induction messages as [|msg rest IH]; intros st s' qm; simpl; [auto |].
  fold (has_recipient msg). destruct (has_recipient msg) eqn:Hr; simpl.
  - intros [Hin|(m & Hm & Hrm & ->)]%IH.
    + simpl in Hin. apply enqueue_entries in Hin as [?| ->]; [auto |].
      right. exists msg. split; [apply elem_of_cons; auto | done].
    + right. exists m. split; [apply elem_of_cons; auto | done].
  - destruct (storage_throws (msg_id msg)); [auto |].
    intros [Hin|(m & Hm & Hrm & ->)]%IH; [auto |].
    right. exists m. split; [apply elem_of_cons; auto | done].
Qed.

(** The loop issues one [markMessageFailed] per record without recipient
    that it gets to, in the order of the records, and nothing else. *)
Lemma poll_loop_effects storage_throws s (messages : list Message) :
  ∀ st,
    effects (poll_loop storage_throws s messages st)
    = effects st
      ++ ((λ msg, MarkMessageFailed (msg_id msg) "No recipient identifier provided")
            <$> filter (λ msg, has_recipient msg = false)
                       (reached storage_throws messages)).
Proof.
  induction messages as [|msg rest IH]; intros st; simpl.
  - by rewrite app_nil_r.
  - fold (has_recipient msg).
    destruct (has_recipient msg) eqn:Hr; simpl.
    + rewrite filter_cons_False by congruence. by rewrite IH.
    + destruct (storage_throws (msg_id msg)); simpl.
      * rewrite filter_cons_True by done. by rewrite filter_nil.
      * rewrite filter_cons_True by done. rewrite IH. simpl.
        by rewrite <- app_assoc.
Qed.

(** The loop gets to a record when no update before it was rejected. *)
Lemma reached_lookup storage_throws (messages : list Message) :
  ∀ i msg,
    messages !! i = Some msg →
    (∀ j m, (j < i)%nat → messages !! j = Some m → has_recipient m = false →
            storage_throws (msg_id m) = false) →
    reached storage_throws messages !! i = Some msg.
Proof.
  induction messages as [|m0 rest IH]; intros i msg Hi Hok; [done |].
  simpl. destruct i as [|i].
  - simpl in Hi. injection Hi as ->. by destruct (_ && _).
  - assert (H0 : negb (has_recipient m0) && storage_throws (msg_id m0) = false).
    { destruct (has_recipient m0) eqn:Hr; [done |]. simpl.
      apply (Hok 0 m0); [lia | done | done]. }
    rewrite H0. simpl. apply IH; [done |].
    intros j m Hj Hm. apply (Hok (S j) m); [lia | done].
Qed.

Lemma reached_all storage_throws (messages : list Message) :
  (∀ m, m ∈ messages → has_recipient m = false →
        storage_throws (msg_id m) = false) →
  reached storage_throws messages = messages.
Proof.
  induction messages as [|m0 rest IH]; intros Hok; [done |]. simpl.
  assert (H0 : negb (has_recipient m0) && storage_throws (msg_id m0) = false).
  { destruct (has_recipient m0) eqn:Hr; [done |]. simpl.
    apply Hok; [apply elem_of_cons; auto | done]. }
  rewrite H0, IH; [done |]. intros m Hm. apply Hok, elem_of_cons. auto.
Qed.

(** What the loop does to the queue: [enqueue] on the records with a
    recipient that it gets to, in their order. *)
Lemma poll_loop_queue_reached storage_throws s (messages : list Message) :
  ∀ st, messageQueue (poll_loop storage_throws s messages st)
        = Queue.enqueue_all
            (queuedMessage_of s
               <$> filter (λ msg, has_recipient msg = true)
                          (reached storage_throws messages))
            (messageQueue st).
Proof.
  unfold Queue.enqueue_all.
  induction messages as [|msg rest IH]; intros st; simpl; [done |].
  fold (has_recipient msg). destruct (has_recipient msg) eqn:Hr; simpl.
  - rewrite filter_cons_True by done. simpl. by rewrite IH.
  - destruct (storage_throws (msg_id msg)); simpl.
    + rewrite filter_cons_False by congruence. by rewrite filter_nil.
    + rewrite filter_cons_False by congruence. by rewrite IH.
Qed.

(** The loop ends with the first record whose update is rejected. *)
Lemma reached_first_rejected storage_throws (messages : list Message) :
  ∀ j m,
    messages !! j = Some m → has_recipient m = false →
    storage_throws (msg_id m) = true →
    (∀ k m', (k < j)%nat → messages !! k = Some m' → has_recipient m' = false →
             storage_throws (msg_id m') = false) →
    reached storage_throws messages = take (S j) messages.
Proof.
  induction messages as [|m0 rest IH]; intros j m Hj Hr Hthrows Hbefore; [done |].
  simpl. destruct j as [|j].
  - simpl in Hj. injection Hj as ->. rewrite Hr, Hthrows. simpl.
    by rewrite take_0.
  - assert (H0 : negb (has_recipient m0) && storage_throws (msg_id m0) = false).
    { destruct (has_recipient m0) eqn:Hr0; [done |]. simpl.
      apply (Hbefore 0 m0); [lia | done | done]. }
    rewrite H0. f_equal. apply (IH j m); try done.
    intros k m' Hk Hm'. apply (Hbefore (S k) m'); [lia | done].
Qed.

End OrchestratorFacts.

Section OrchestratorClaims.
Import Orchestrator.

Implicit Types (st : State) (s : string).

(** C8 as it is stated fails when storage rejects an update.  Of two
    polled records without recipient, the update of the first is
    rejected: [markMessageFailed] throws, the loop is left, and the second
    record is neither marked failed nor enqueued; the record with a
    recipient behind them is not enqueued either. *)
Lemma poll_stops_at_rejected_update :
  let messages := [Scenario.no_recipient "X1"; Scenario.no_recipient "X2";
                   Scenario.stored "B"] in
  let st' := pollSupabaseForMessages (λ i, String.eqb i "X1") messages "S"
               Scenario.started in
  effects st' = [MarkMessageFailed "X1" "No recipient identifier provided"]
  ∧ Queue.queue_of "S" (messageQueue st') = []
  ∧ ¬ (∀ msg, msg ∈ messages → has_recipient msg = false →
         MarkMessageFailed (msg_id msg) "No recipient identifier provided"
         ∈ effects st').
Proof.
  intros messages st'.
  assert (He : effects st'
               = [MarkMessageFailed "X1" "No recipient identifier provided"])
    by reflexivity.
  split; [exact He |]. split; [vm_compute; reflexivity |].
  intros H. specialize (H (Scenario.no_recipient "X2")). rewrite He in H.
  apply list_elem_of_singleton in H; [discriminate H | | reflexivity].
  apply elem_of_cons. right. apply elem_of_cons. by left.
Qed.

(** C8, as amended.  A poll that runs (its lock is free) never enqueues a
    record [msg] that has neither recipient field populated, whatever
    storage answers: every entry the poll adds to a queue comes from a
    record that has a recipient.  [markMessageFailed] is called for [msg],
    with the reason "No recipient identifier provided", when no update of
    a record before it in the same poll was rejected.  The calls of a poll
    are exactly those for the records without recipient that the loop gets
    to, in their order, and the records enqueued are those with a
    recipient that it gets to; the loop gets to every record when no
    update is rejected, and ends with the first record whose update is
    rejected, leaving the records behind it as they are. *)
Theorem no_recipient_failed_not_enqueued
    (storage_throws : string → bool) (messages : list Message) s st
    (i : nat) (msg : Message) :
  held (pollingLocks st) s = false →
  messages !! i = Some msg →
  Js.truthy (msg_jid msg) = false →
  Js.truthy (msg_phone_number msg) = false →
  let st' := pollSupabaseForMessages storage_throws messages s st in
  (∀ s', queuedMessage_of s msg ∈ Queue.queue_of s' (messageQueue st') →
         queuedMessage_of s msg ∈ Queue.queue_of s' (messageQueue st))
  ∧ (∀ s' qm, qm ∈ Queue.queue_of s' (messageQueue st') →
       qm ∈ Queue.queue_of s' (messageQueue st)
       ∨ ∃ m, m ∈ messages ∧ has_recipient m = true ∧ qm = queuedMessage_of s m)
  ∧ ((∀ j m, (j < i)%nat → messages !! j = Some m → has_recipient m = false →
             storage_throws (msg_id m) = false) →
     MarkMessageFailed (msg_id msg) "No recipient identifier provided" ∈ effects st')
  ∧ effects st'
    = effects st
      ++ ((λ m, MarkMessageFailed (msg_id m) "No recipient identifier provided")
            <$> filter (λ m, has_recipient m = false)
                       (reached storage_throws messages))
  ∧ messageQueue st'
    = Queue.enqueue_all
        (queuedMessage_of s
           <$> filter (λ m, has_recipient m = true)
                      (reached storage_throws messages))
        (messageQueue st)
  ∧ ((∀ m, m ∈ messages → has_recipient m = false →
           storage_throws (msg_id m) = false) →
     reached storage_throws messages = messages)
  ∧ (∀ j m,
       messages !! j = Some m → has_recipient m = false →
       storage_throws (msg_id m) = true →
       (∀ k m', (k < j)%nat → messages !! k = Some m' →
                has_recipient m' = false → storage_throws (msg_id m') = false) →
       reached storage_throws messages = take (S j) messages).
Proof.
  intros Hlock Hin Hjid Hphone st'.
  assert (Hnone : has_recipient msg = false).
  { unfold has_recipient. by apply or_falsy. }
  assert (Hq : ∀ s' qm, qm ∈ Queue.queue_of s' (messageQueue st') →
            qm ∈ Queue.queue_of s' (messageQueue st)
            ∨ ∃ m, m ∈ messages ∧ has_recipient m = true
                   ∧ qm = queuedMessage_of s m).
  { intros s' qm. unfold st', pollSupabaseForMessages. rewrite Hlock. simpl.
    intros H. by apply poll_loop_entries in H. }
  assert (He : effects st'
               = effects st
                 ++ ((λ m, MarkMessageFailed (msg_id m)
                             "No recipient identifier provided")
                       <$> filter (λ m, has_recipient m = false)
                                  (reached storage_throws messages))).
  { unfold st', pollSupabaseForMessages. rewrite Hlock. simpl.
    by rewrite poll_loop_effects. }
  split; [| split; [exact Hq | split; [| split; [exact He |]]]].
  - intros s' [H|(m & Hm & Hrm & Heq)]%Hq; [done |].
    exfalso. unfold has_recipient in Hrm, Hnone.
    apply (f_equal qm_jid) in Heq as Hj.
    apply (f_equal qm_phoneNumber) in Heq as Hp. simpl in Hj, Hp.
    rewrite <- Hj, <- Hp in Hrm. congruence.
  - intros Hok. rewrite He. apply elem_of_app. right.
    apply list_elem_of_fmap. exists msg. split; [done |].
    apply list_elem_of_filter. split; [done |].
    apply list_elem_of_lookup. exists i. by apply reached_lookup.
  - split; [| split; [apply reached_all | apply reached_first_rejected]].
    unfold st', pollSupabaseForMessages. rewrite Hlock. simpl.
    by rewrite poll_loop_queue_reached.
Qed.

Lemma no_recipient_failed_not_enqueued_witness :
  let messages := [Scenario.stored "A"; Scenario.no_recipient "X";
                   Scenario.stored "B"; Scenario.no_recipient "Y";
                   Scenario.no_recipient "Z"] in
  let st' := pollSupabaseForMessages (λ i, String.eqb i "Y") messages "S"
               Scenario.started in
  Queue.queue_of "S" (messageQueue st') = [Scenario.A; Scenario.B]
  ∧ MarkMessageFailed "X" "No recipient identifier provided" ∈ effects st'
  ∧ MarkMessageFailed "Y" "No recipient identifier provided" ∈ effects st'
  ∧ effects st' = [MarkMessageFailed "X" "No recipient identifier provided";
                   MarkMessageFailed "Y" "No recipient identifier provided"].
Proof.
  intros messages st'. split; [vm_compute; reflexivity |].
  destruct (no_recipient_failed_not_enqueued (λ i, String.eqb i "Y") messages "S"
              Scenario.started 1 (Scenario.no_recipient "X"))
    as (_ & _ & HX & _); [reflexivity .. |].
  destruct (no_recipient_failed_not_enqueued (λ i, String.eqb i "Y") messages "S"
              Scenario.started 3 (Scenario.no_recipient "Y"))
    as (_ & _ & HY & He & _); [reflexivity .. |].
  split; [| split; [| exact He]].
  - apply HX. intros [|[|j]] m Hj Hm Hr; try lia.
    + injection Hm as <-. discriminate Hr.
  - apply HY. intros [|[|[|[|j]]]] m Hj Hm Hr; try lia;
      injection Hm as <-; try discriminate Hr; reflexivity.
Defined.

(** C10.  A tick for a session that is not connected, or whose sending
    lock is held, returns the state it was given: nothing is dequeued,
    every queue, lock and session is as before, and no call to the
    driver, to storage or to a webhook is issued. *)
Theorem tick_skipped_when_guarded (cfg : QueueConfig) (env : TickEnv) s st :
  Sessions.isConnected s (sessionManager st) = false
  ∨ held (sendingLocks st) s = true →
  processDripQueue_begin s st = (st, None)
  ∧ processDripQueue cfg env s st = st.
Proof.
  intros Hguard.
  assert (Hb : processDripQueue_begin s st = (st, None)).
  { unfold processDripQueue_begin. destruct Hguard as [Hc|Hl].
    - rewrite Hc. simpl. by destruct (_ || _).
    - by rewrite Hl. }
  split; [exact Hb |]. unfold processDripQueue. by rewrite Hb.
Qed.

Lemma tick_skipped_when_guarded_witness :
  let in_flight := fst (processDripQueue_begin "S" Scenario.ready) in
  let env := send_ok "391234567890@s.whatsapp.net" in
  (held (sendingLocks in_flight) "S" = true
   ∧ Queue.queue_of "S" (messageQueue in_flight) = [Scenario.B; Scenario.C]
   ∧ processDripQueue config_queue env "S" in_flight = in_flight)
  ∧ (Sessions.isConnected "S" (sessionManager Scenario.ready_link_down) = false
     ∧ Queue.isEmpty "S" (messageQueue Scenario.ready_link_down) = false
     ∧ processDripQueue config_queue env "S" Scenario.ready_link_down
       = Scenario.ready_link_down).
Proof.
  intros in_flight env. split.
  - split; [reflexivity |]. split; [vm_compute; reflexivity |].
    apply (tick_skipped_when_guarded config_queue env "S" in_flight).
    right. reflexivity.
  - split; [reflexivity |]. split; [reflexivity |].
    apply (tick_skipped_when_guarded config_queue env "S" Scenario.ready_link_down).
    left. reflexivity.
Defined.

End OrchestratorClaims.

Section RetryFacts.
Import Orchestrator.

Implicit Types (st : State) (s : string).

(** What a tick that issues a send has done by then: it has dequeued the
    head of the session's queue, which put its id in the processed set. *)
Lemma begin_in_flight s st st1 (f : InFlight) :
  processDripQueue_begin s st = (st1, Some f) →
  Queue.dequeue s (messageQueue st) = (Some (if_message f), messageQueue st1)
  ∧ qm_id (if_message f) ∈ Queue.processedIds (messageQueue st1)
  ∧ held (sendingLocks st1) s = true.
Proof.
  unfold processDripQueue_begin.
  destruct (_ || _); [done |]. destruct (negb _); [done |]. simpl.
  destruct (Queue.dequeue s (messageQueue st)) as [[m|] q'] eqn:Hd; [| done].
  destruct (negb (Js.truthy _)); [done |].
  destruct (Sessions.getSocket _ _); [| done].
  intros [= <- <-]. simpl. split; [done |].
  apply dequeue_Some in Hd as (_ & -> & _).
  split; [set_solver |].
  unfold held. by rewrite lookup_insert_eq.
Qed.

(** The retry branch of the tick: the send is rejected while the retry
    counter is below the ceiling.  [enqueue] finds the id of the message
    in the processed set, where [dequeue] has just put it, and returns;
    the queue is left as [dequeue] left it and no storage update is
    issued. *)
Lemma rejected_send_is_not_requeued (cfg : QueueConfig) (env : TickEnv)
    s st st1 (f : InFlight) (e : string) :
  processDripQueue_begin s st = (st1, Some f) →
  send_result env = SendRejects e →
  (qm_retries (if_message f) < maxRetries cfg)%Z →
  messageQueue (processDripQueue cfg env s st)
  = snd (Queue.dequeue s (messageQueue st))
  ∧ effects (processDripQueue cfg env s st) = effects st1.
Proof.
  intros Hb He Hr. unfold processDripQueue. rewrite Hb.
  apply begin_in_flight in Hb as (Hd & Hp & _). rewrite Hd. simpl.
  unfold processDripQueue_resume. rewrite He. unfold on_send_failure.
  apply Z.ltb_lt in Hr. rewrite Hr. simpl.
  by rewrite enqueue_processed.
Qed.

(** C1, on the code.  A, B and C queued in this order, [maxRetries = 1],
    the first send of A rejected and every later send accepted.  After
    the first tick the queue is [B; C]: A is not at the tail.  B and C
    are then sent, the fourth tick finds the queue empty and does
    nothing, and a later poll that finds A still queued in storage does
    not bring it back: A is attempted once and is marked neither sent
    nor failed. *)
Theorem failed_send_is_dropped :
  let ok := send_ok "391234567890@s.whatsapp.net" in
  let tick env := processDripQueue Scenario.retry_once env "S" in
  let st1 := tick (send_fails "Connection Closed") Scenario.ready in
  let st3 := tick ok (tick ok st1) in
  let st4 := tick ok st3 in
  let st5 := tick ok (pollSupabaseForMessages (λ _, false) [Scenario.stored "A"]
                        "S" st4) in
  Queue.queue_of "S" (messageQueue st1) = [Scenario.B; Scenario.C]
  ∧ effects st1 = [SendMessage "S" 0 "391234567890" "hello A"]
  ∧ st4 = st3
  ∧ Queue.queue_of "S" (messageQueue st5) = []
  ∧ sent_ids (effects st5) = ["B"; "C"]
  ∧ failed_ids (effects st5) = []
  ∧ attempted (effects st5)
    = [("391234567890", "hello A"); ("391234567890", "hello B");
       ("391234567890", "hello C")].
Proof. vm_compute. repeat split. Qed.

(** With the shipped configuration ([maxRetries = 3]) the same run
    loses A in the same way. *)
Example failed_send_is_dropped_default_config :
  let st1 := processDripQueue config_queue (send_fails "Connection Closed")
               "S" Scenario.ready in
  Queue.queue_of "S" (messageQueue st1) = [Scenario.B; Scenario.C]
  ∧ "A" ∈ Queue.processedIds (messageQueue st1)
  ∧ failed_ids (effects st1) = [].
Proof. repeat split; vm_compute; reflexivity. Qed.

End RetryFacts.

(** * Further properties of the code *)

(** ** The delivery queue: order, bounds and isolation *)

Section QueueOrder.
Import Queue.

Implicit Types (q : MessageQueue) (m : QueuedMessage) (s i : string).

Lemma dequeue_None_iff s q :
  fst (dequeue s q) = None ↔ queue_of s q = [].
Proof.
  unfold dequeue, queue_of.
  destruct (queues q !! s) as [[|m rest]|]; simpl; split; done.
Qed.

Lemma isEmpty_queue_of s q : isEmpty s q = true ↔ queue_of s q = [].
Proof.
  unfold isEmpty, size, queue_of.
  destruct (queues q !! s) as [[|m rest]|]; simpl; split; done.
Qed.

(** X3.  [dequeue] on a session that has no queue, or an empty one,
    returns [null] and changes nothing; otherwise it returns the oldest
    entry, the size of that session's queue drops by exactly one and the
    queues of all other sessions are as before. *)
Theorem dequeue_takes_the_oldest s q :
  (isEmpty s q = true → dequeue s q = (None, q))
  ∧ (isEmpty s q = false →
     ∃ m q', dequeue s q = (Some m, q')
       ∧ queue_of s q = m :: queue_of s q'
       ∧ size s q = S (size s q')
       ∧ ∀ s', s' ≠ s → queue_of s' q' = queue_of s' q ∧ size s' q' = size s' q).
Proof.
  split.
  - intros He. apply isEmpty_queue_of in He.
    destruct (dequeue s q) as [[m|] q'] eqn:Hd.
    + apply dequeue_Some in Hd as (Hq & _). by rewrite He in Hq.
    + by apply dequeue_None in Hd as ->.
  - intros He. destruct (dequeue s q) as [[m|] q'] eqn:Hd.
    + exists m, q'. split; [done |].
      assert (Hsize : ∀ s0 q0, size s0 q0 = length (queue_of s0 q0)).
      { intros s0 q0. unfold size, queue_of. by destruct (queues q0 !! s0). }
      apply dequeue_Some in Hd as (Hq & _ & Hother).
      split; [done |]. split; [by rewrite !Hsize, Hq |].
      intros s' Hs'. split; [by apply Hother |].
      by rewrite !Hsize, Hother.
    + assert (Hn : fst (dequeue s q) = None) by (by rewrite Hd).
      apply dequeue_None_iff, isEmpty_queue_of in Hn. congruence.
Qed.

Lemma dequeue_n_spec (n : nat) s :
  ∀ q, fst (dequeue_n n s q) = take n (queue_of s q)
       ∧ queue_of s (snd (dequeue_n n s q)) = drop n (queue_of s q).
Proof.
  induction n as [|n IH]; intros q; simpl; [done |].
  destruct (dequeue s q) as [[m|] q'] eqn:Hd.
  - apply dequeue_Some in Hd as (Hq & _). rewrite Hq. simpl.
    destruct (IH q') as [IH1 IH2].
    destruct (dequeue_n n s q') as [ms q'']. simpl in *. by rewrite IH1, IH2.
  - assert (Hn : fst (dequeue s q) = None) by (by rewrite Hd).
    apply dequeue_None_iff in Hn. apply dequeue_None in Hd as ->.
    by rewrite Hn.
Qed.

Lemma enqueue_all_fresh (ms : list QueuedMessage) s :
  ∀ q,
    (∀ m, m ∈ ms → session_of m = s) →
    NoDup (qm_id <$> ms) →
    (∀ m, m ∈ ms → (qm_id m ∉ processedIds q)
                   ∧ (qm_id m ∉ qm_id <$> queue_of s q)) →
    queue_of s (enqueue_all ms q) = queue_of s q ++ ms.
Proof.
  unfold enqueue_all.
  induction ms as [|m ms IH]; intros q Hs Hnd Hfresh; simpl.
  - by rewrite app_nil_r.
  - apply NoDup_cons in Hnd as [Hm Hnd].
    assert (Hsm : session_of m = s) by (apply Hs, elem_of_cons; auto).
    destruct (Hfresh m) as [Hp Hq]; [apply elem_of_cons; auto |].
    rewrite <- Hsm in Hq.
    destruct (enqueue_fresh m q Hp Hq) as (Hq' & Hp' & _).
    rewrite Hsm in Hq'. rewrite IH.
    + by rewrite Hq', <- app_assoc.
    + intros m' Hm'. apply Hs, elem_of_cons. auto.
    + done.
    + intros m' Hm'. destruct (Hfresh m') as [Hp1 Hq1]; [apply elem_of_cons; auto |].
      rewrite Hp', Hq', fmap_app. split; [done |].
      intros [?| Hin]%elem_of_app; [done |]. simpl in Hin.
      apply list_elem_of_singleton in Hin. apply Hm. rewrite <- Hin.
      apply list_elem_of_fmap. eauto.
Qed.

(** X2.  First in, first out.  Messages of one session with distinct ids,
    none of them processed or already waiting, are appended to the
    session's queue in the order of the [enqueue] calls; if the queue was
    empty, as many [dequeue] calls return exactly these messages, in that
    order, and leave the queue empty. *)
Theorem queue_is_fifo (ms : list QueuedMessage) s q :
  (∀ m, m ∈ ms → session_of m = s) →
  NoDup (qm_id <$> ms) →
  (∀ m, m ∈ ms → (qm_id m ∉ processedIds q)
                 ∧ (qm_id m ∉ qm_id <$> queue_of s q)) →
  queue_of s (enqueue_all ms q) = queue_of s q ++ ms
  ∧ (queue_of s q = [] →
     fst (dequeue_n (length ms) s (enqueue_all ms q)) = ms
     ∧ queue_of s (snd (dequeue_n (length ms) s (enqueue_all ms q))) = []).
Proof.
  intros Hs Hnd Hfresh.
  pose proof (enqueue_all_fresh ms s q Hs Hnd Hfresh) as Hq.
  split; [done |]. intros He.
  destruct (dequeue_n_spec (length ms) s (enqueue_all ms q)) as [-> ->].
  rewrite Hq, He. simpl. by rewrite firstn_all, drop_all.
Qed.

Lemma queue_is_fifo_witness :
  fst (dequeue_n 3 "S" (enqueue_all [Scenario.A; Scenario.B; Scenario.C] empty))
  = [Scenario.A; Scenario.B; Scenario.C].
Proof.
  destruct (queue_is_fifo [Scenario.A; Scenario.B; Scenario.C] "S" empty)
    as [_ H].
  - intros m Hm. repeat (apply elem_of_cons in Hm as [->|Hm]; [reflexivity |]).
    by apply elem_of_nil in Hm.
  - apply (bool_decide_unpack _). reflexivity.
  - intros m Hm. split; [apply not_elem_of_empty |].
    intros Hin. by apply elem_of_nil in Hin.
  - destruct (H eq_refl) as [Hf _]. exact Hf.
Defined.

End QueueOrder.

Section QueueAtMostOnce.
Import Queue.

Implicit Types (q : MessageQueue) (m : QueuedMessage) (s i : string).

(** The ids already handed out by [dequeue(s)] stay processed and out of
    the queue of [s] under every method but [clearProcessedIds]. *)
Lemma run_op_keeps_handed_out (o : Op) s q (D : list string) :
  is_clearProcessedIds o = false →
  (∀ i, i ∈ D → i ∈ processedIds q ∧ (i ∉ qm_id <$> queue_of s q)) →
  ∀ i, i ∈ D →
    i ∈ processedIds (run_op o q) ∧ (i ∉ qm_id <$> queue_of s (run_op o q)).
Proof.
  intros Ho HD i Hi. destruct (HD i Hi) as [Hp Hq].
  split; [by apply (run_op_processed_mono o q Ho) |].
  destruct o as [m|s'|s'| |]; simpl; try done.
  - intros (qm & -> & Hin)%list_elem_of_fmap.
    rewrite enqueue_processed in Hin.
    + apply Hq, list_elem_of_fmap. eauto.
    + apply enqueue_entries in Hin as [Hin| ->]; [| done].
      exfalso. apply Hq, list_elem_of_fmap. eauto.
  - destruct (dequeue s' q) as [[m|] q'] eqn:Hd; simpl.
    + apply dequeue_Some in Hd as (Hq' & _ & Hother).
      destruct (decide (s = s')) as [->|Hne].
      * intros Hin. apply Hq. rewrite Hq'. simpl. apply elem_of_cons. auto.
      * by rewrite Hother.
    + by apply dequeue_None in Hd as ->.
  - unfold queue_of, clear. simpl. destruct (decide (s' = s)) as [->|Hne].
    + rewrite lookup_insert_eq. simpl. apply not_elem_of_nil.
    + by rewrite lookup_insert_ne.
  - unfold queue_of, clearAllQueues. simpl. rewrite lookup_empty. simpl.
    apply not_elem_of_nil.
Qed.

Lemma dequeued_ids_NoDup (ops : list Op) s :
  ∀ q (D : list string),
    unique_ids q →
    NoDup D →
    (∀ i, i ∈ D → i ∈ processedIds q ∧ (i ∉ qm_id <$> queue_of s q)) →
    forallb (λ o, negb (is_clearProcessedIds o)) ops = true →
    NoDup (D ++ dequeued_ids s ops q).
Proof.
  induction ops as [|o ops IH]; intros q D Hu HD Hinv Hops; simpl.
  - by rewrite app_nil_r.
  - apply andb_true_iff in Hops as [Ho Hops]. apply negb_true_iff in Ho.
    pose proof (run_op_unique_ids o q Hu) as Hu'.
    pose proof (run_op_keeps_handed_out o s q D Ho Hinv) as Hinv'.
    assert (Hplain : NoDup (D ++ dequeued_ids s ops (run_op o q)))
      by (by apply IH).
    destruct o as [m|s'|s'| |]; try exact Hplain.
    destruct (String.eqb_spec s' s) as [->|Hne]; [| exact Hplain].
    destruct (dequeue s q) as [[m|] q'] eqn:Hd; [| exact Hplain].
    simpl in *. rewrite Hd in *. simpl in *.
    apply dequeue_Some in Hd as (Hq & Hp & _).
    assert (Hm : qm_id m ∉ D).
    { intros Hin. destruct (Hinv _ Hin) as [_ Hnq]. apply Hnq.
      rewrite Hq. simpl. apply elem_of_cons. auto. }
    replace (D ++ qm_id m :: dequeued_ids s ops q')
      with ((D ++ [qm_id m]) ++ dequeued_ids s ops q')
      by (by rewrite <- app_assoc).
    apply IH; [done | | | done].
    + apply NoDup_app. split; [done |]. split; [| apply NoDup_singleton].
      intros i Hi ->%list_elem_of_singleton. contradiction.
    + intros i [Hi| ->%list_elem_of_singleton]%elem_of_app; [by apply Hinv' |].
      split; [rewrite Hp; apply elem_of_union; left; by apply elem_of_singleton |].
      specialize (Hu s). rewrite Hq in Hu. simpl in Hu.
      by apply NoDup_cons in Hu as [? _].
Qed.

(** X1.  At most once per session.  However the queue is driven from its
    initial state, as long as [clearProcessedIds] is not called, the
    [dequeue(sessionId)] calls of one session never return the same
    message id twice. *)
Theorem dequeue_never_repeats_an_id (ops : list Op) s :
  forallb (λ o, negb (is_clearProcessedIds o)) ops = true →
  NoDup (dequeued_ids s ops empty).
Proof.
  intros Hops.
  apply (dequeued_ids_NoDup ops s empty [] empty_unique_ids (NoDup_nil_2));
    [| done].
  intros i Hi. by apply elem_of_nil in Hi.
Qed.

Lemma dequeue_never_repeats_an_id_witness :
  let ops := [OpEnqueue Scenario.A; OpDequeue "S"; OpEnqueue Scenario.A;
              OpEnqueue Scenario.B; OpDequeue "S"; OpDequeue "S"] in
  dequeued_ids "S" ops empty = ["A"; "B"]
  ∧ NoDup (dequeued_ids "S" ops empty).
Proof.
  intros ops. split; [reflexivity |].
  apply (dequeue_never_repeats_an_id ops "S"). reflexivity.
Defined.

(** X4.  [clear(sessionId)] empties that session's queue only and forgets
    no processed id: a message that was waiting in the cleared queue is
    admitted again by [enqueue], one that had been dequeued is not. *)
Theorem clear_keeps_processed_ids s q m :
  session_of m = s →
  queue_of s (clear s q) = []
  ∧ processedIds (clear s q) = processedIds q
  ∧ (∀ s', s' ≠ s → queue_of s' (clear s q) = queue_of s' q)
  ∧ (qm_id m ∉ processedIds q → queue_of s (enqueue m (clear s q)) = [m])
  ∧ (qm_id m ∈ processedIds q → enqueue m (clear s q) = clear s q).
Proof.
  intros Hs.
  assert (Hc : queue_of s (clear s q) = []).
  { unfold queue_of, clear. simpl. by rewrite lookup_insert_eq. }
  split; [done |]. split; [done |]. split.
  - intros s' Hne. unfold queue_of, clear. simpl. by rewrite lookup_insert_ne.
  - split.
    + intros Hp. destruct (enqueue_fresh m (clear s q)) as (Hq & _).
      * done.
      * rewrite Hs, Hc. apply not_elem_of_nil.
      * rewrite Hs in Hq. by rewrite Hq, Hc.
    + intros Hp. by apply enqueue_processed.
Qed.

Lemma clear_keeps_processed_ids_witness :
  let q := enqueue Scenario.B (snd (dequeue "S" (enqueue Scenario.A empty))) in
  queue_of "S" (enqueue Scenario.B (clear "S" q)) = [Scenario.B]
  ∧ enqueue Scenario.A (clear "S" q) = clear "S" q.
Proof.
  intros q.
  destruct (clear_keeps_processed_ids "S" q Scenario.B eq_refl)
    as (_ & _ & _ & HB & _).
  destruct (clear_keeps_processed_ids "S" q Scenario.A eq_refl)
    as (_ & _ & _ & _ & HA).
  split.
  - apply HB. vm_compute. intros H. discriminate H.
  - apply HA. vm_compute. reflexivity.
Defined.

End QueueAtMostOnce.

(** ** The viewer broadcaster: subscriptions and counts *)

Section BroadcasterSubscriptions.
Import Broadcaster.

Implicit Types (m : gmap string (gset Response)) (s : string) (r : Response).

Lemma viewers_addSSEClient s r m :
  viewers s (addSSEClient s r m) = {[r]} ∪ viewers s m
  ∧ ∀ s', s' ≠ s → addSSEClient s r m !! s' = m !! s'.
Proof.
  unfold viewers, addSSEClient. split.
  - rewrite lookup_insert_eq. simpl.
    destruct (m !! s) eqn:Hs; simpl; [by rewrite Hs |].
    by rewrite lookup_insert_eq.
  - intros s' Hne. rewrite lookup_insert_ne by done.
    destruct (m !! s); [done |]. by rewrite lookup_insert_ne.
Qed.

Lemma union_singleton_difference r (clients : gset Response) :
  r ∉ clients → ({[r]} ∪ clients) ∖ {[r]} = clients.
Proof.
  intros Hr. apply set_eq. intros x.
  rewrite elem_of_difference, elem_of_union, elem_of_singleton. split.
  - by intros [[->|?] ?].
  - intros Hx. split; [by right |]. by intros ->.
Qed.

Lemma union_singleton_member r (clients : gset Response) :
  r ∈ clients → {[r]} ∪ clients = clients.
Proof.
  intros Hr. apply set_eq. intros x.
  rewrite elem_of_union, elem_of_singleton. split; [by intros [->|?] | by right].
Qed.

(** X5.  Subscribing a viewer and removing it again restores the map: for
    a viewer that was not subscribed to the session, in a map without
    empty sets, [removeSSEClient] undoes [addSSEClient], the key of a
    session that had no viewer included. *)
Theorem remove_undoes_add s r m :
  no_empty_set m →
  r ∉ viewers s m →
  removeSSEClient s r (addSSEClient s r m) = m.
Proof.
  intros Hm Hr. unfold removeSSEClient, addSSEClient, viewers in *.
  rewrite lookup_insert_eq.
  destruct (m !! s) as [clients|] eqn:Hs; cbn [default from_option id] in *.
  - rewrite Hs. cbn [default from_option id].
    rewrite union_singleton_difference by done. destruct (decide (size clients = 0)) as [Hz|_].
    + apply size_empty_inv, leibniz_equiv in Hz. by apply Hm in Hs.
    + rewrite insert_insert_eq. by apply insert_id.
  - rewrite lookup_insert_eq. cbn [default from_option id].
    rewrite union_singleton_difference by done. destruct (decide _) as [_|Hn]; [| by rewrite size_empty in Hn].
    rewrite !insert_insert_eq, delete_insert_eq. by apply delete_id.
Qed.

Lemma remove_undoes_add_witness :
  let m := addSSEClient "S" 1 initial in
  removeSSEClient "S" 2 (addSSEClient "S" 2 m) = m
  ∧ removeSSEClient "T" 2 (addSSEClient "T" 2 m) = m.
Proof.
  intros m. split.
  - apply (remove_undoes_add "S" 2 m).
    + apply addSSEClient_no_empty_set, initial_no_empty_set.
    + vm_compute. intros H. discriminate H.
  - apply (remove_undoes_add "T" 2 m).
    + apply addSSEClient_no_empty_set, initial_no_empty_set.
    + vm_compute. intros H. discriminate H.
Defined.

(** X6.  A viewer set is a set: subscribing a viewer that is already
    subscribed changes nothing, a new viewer raises the count of its
    session by one, and the counts of the other sessions never move. *)
Theorem addSSEClient_count s r m :
  (r ∈ viewers s m → addSSEClient s r m = m)
  ∧ (r ∉ viewers s m →
     getSSEClientCount s (addSSEClient s r m) = S (getSSEClientCount s m))
  ∧ (∀ s', s' ≠ s →
     getSSEClientCount s' (addSSEClient s r m) = getSSEClientCount s' m).
Proof.
  assert (Hcount : ∀ s0 m0, getSSEClientCount s0 m0 = size (viewers s0 m0)).
  { intros s0 m0. unfold getSSEClientCount, viewers.
    destruct (m0 !! s0); [done |]. cbn [default from_option id].
    symmetry. apply size_empty. }
  destruct (viewers_addSSEClient s r m) as [Hv Hother].
  split; [| split].
  - intros Hr. unfold addSSEClient, viewers in *.
    destruct (m !! s) as [clients|] eqn:Hs; cbn [default from_option id] in *.
    + rewrite Hs. cbn [default from_option id].
      apply insert_id. rewrite Hs. f_equal. symmetry.
      by apply union_singleton_member.
    + by apply elem_of_empty in Hr.
  - intros Hr. rewrite !Hcount, Hv.
    rewrite size_union by (by apply disjoint_singleton_l).
    by rewrite size_singleton.
  - intros s' Hne. unfold getSSEClientCount. by rewrite Hother.
Qed.

Lemma write_all_all_succeed (clients : gset Response) :
  write_all (λ _, false) clients = clients.
Proof.
  apply set_eq. intros r. rewrite elem_of_write_all. split; [by intros [? _] | done].
Qed.

(** X7.  A broadcast never adds a viewer and never touches another
    session; it removes from the session exactly the viewers whose write
    throws, and when every write succeeds, as when the session has no
    viewer at all, the map is returned as it was. *)
Theorem broadcast_removes_only_failed (write_throws : Response → bool) s m :
  (∀ r, r ∈ viewers s (broadcastMessageToSSE write_throws s m)
        ↔ r ∈ viewers s m ∧ write_throws r = false)
  ∧ (∀ s', s' ≠ s → broadcastMessageToSSE write_throws s m !! s' = m !! s')
  ∧ broadcastMessageToSSE (λ _, false) s m = m
  ∧ (viewers s m = ∅ → broadcastMessageToSSE write_throws s m = m).
Proof.
  unfold viewers, broadcastMessageToSSE.
  destruct (m !! s) as [clients|] eqn:Hs; simpl.
  - destruct (decide (size clients = 0)) as [Hz|Hnz].
    + apply size_empty_inv, leibniz_equiv in Hz. subst clients.
      rewrite Hs. simpl. split; [| done].
      intros r. split; [intros Hr; by apply elem_of_empty in Hr | by intros [? _]].
    + rewrite lookup_insert_eq. simpl. split; [apply elem_of_write_all |].
      split; [intros s' Hne; by rewrite lookup_insert_ne |].
      split; [rewrite write_all_all_succeed; by apply insert_id |].
      intros ->. by rewrite size_empty in Hnz.
  - rewrite Hs. simpl. split; [| done].
    intros r. split; [intros Hr; by apply elem_of_empty in Hr | by intros [? _]].
Qed.

End BroadcasterSubscriptions.

Section BroadcasterTotals.
Import Broadcaster.

Implicit Types (m : gmap string (gset Response)) (s : string) (r : Response).

Lemma total_insert_fresh s (clients : gset Response) m :
  m !! s = None →
  getTotalSSEClients (<[s := clients]> m) = getTotalSSEClients m + size clients.
Proof.
  intros Hs. unfold getTotalSSEClients.
  rewrite map_fold_insert_L; [done | | done].
  intros j1 j2 z1 z2 y _ _ _. lia.
Qed.

Lemma total_insert s (clients clients' : gset Response) m :
  m !! s = Some clients →
  getTotalSSEClients (<[s := clients']> m) + size clients
  = getTotalSSEClients m + size clients'.
Proof.
  intros Hs.
  rewrite <- (insert_delete_eq m s clients') .
  rewrite <- (insert_id m s clients Hs) at 2.
  rewrite <- (insert_delete_eq m s clients).
  rewrite !total_insert_fresh by apply lookup_delete_eq. lia.
Qed.

Lemma total_delete s (clients : gset Response) m :
  m !! s = Some clients →
  getTotalSSEClients (delete s m) + size clients = getTotalSSEClients m.
Proof.
  intros Hs. rewrite <- (insert_id m s clients Hs) at 2.
  rewrite <- (insert_delete_eq m s clients).
  by rewrite total_insert_fresh by apply lookup_delete_eq.
Qed.

(** X8.  The total over all sessions follows the subscriptions: a viewer
    newly subscribed to a session adds one to [getTotalSSEClients], and
    removing a subscribed viewer takes one off, whether or not its session
    is pruned with it. *)
Theorem total_follows_subscriptions s r m :
  (r ∉ viewers s m →
   getTotalSSEClients (addSSEClient s r m) = S (getTotalSSEClients m))
  ∧ (r ∈ viewers s m →
     S (getTotalSSEClients (removeSSEClient s r m)) = getTotalSSEClients m).
Proof.
  unfold viewers, addSSEClient, removeSSEClient. split.
  - destruct (m !! s) as [clients|] eqn:Hs; cbn [default from_option id];
      intros Hr.
    + rewrite Hs. cbn [default from_option id].
      pose proof (total_insert s clients ({[r]} ∪ clients) m Hs) as Ht.
      rewrite size_union, size_singleton in Ht
        by (by apply disjoint_singleton_l). lia.
    + rewrite lookup_insert_eq. cbn [default from_option id].
      rewrite insert_insert_eq, total_insert_fresh by done.
      rewrite union_empty_r_L, size_singleton. lia.
  - destruct (m !! s) as [clients|] eqn:Hs; cbn [default from_option id];
      intros Hr; [| by apply elem_of_empty in Hr].
    assert (Hsize : size clients = S (size (clients ∖ {[r]}))).
    { rewrite (union_difference_L {[r]} clients) at 1
        by (by apply singleton_subseteq_l).
      rewrite size_union, size_singleton; [done |].
      apply disjoint_difference_r1. done. }
    destruct (decide (size (clients ∖ {[r]}) = 0)) as [Hz|Hnz].
    + rewrite delete_insert_eq.
      pose proof (total_delete s clients m Hs). lia.
    + pose proof (total_insert s clients (clients ∖ {[r]}) m Hs). lia.
Qed.

Lemma total_follows_subscriptions_witness :
  let m := addSSEClient "T" 1 (addSSEClient "S" 1 initial) in
  getTotalSSEClients (addSSEClient "S" 2 m) = S (getTotalSSEClients m)
  ∧ S (getTotalSSEClients (removeSSEClient "T" 1 m)) = getTotalSSEClients m.
Proof.
  intros m.
  destruct (total_follows_subscriptions "S" 2 m) as [Hadd _].
  destruct (total_follows_subscriptions "T" 1 m) as [_ Hrem].
  split.
  - apply Hadd. vm_compute. intros H. discriminate H.
  - apply Hrem. vm_compute. reflexivity.
Defined.

End BroadcasterTotals.

(** ** The webhook dispatcher: when it does nothing and how long it waits *)

Section WebhookBounds.
Import Webhooks.

Variable JSON_stringify : WebhookEvent → string.
Variable hmac_sha256_hex : string → string → string.

(** X9.  A delivery makes no request at all exactly when no URL is
    configured or [maxRetries] is not positive; in every other case the
    first request is made at once, without any sleep. *)
Theorem notifyTenant_silent_iff url ev secret maxRetries fetch :
  let tr := notifyTenant JSON_stringify hmac_sha256_hex
              url ev secret maxRetries fetch in
  (tr = [] ↔ url = "" ∨ (maxRetries ≤ 0)%Z)
  ∧ ∀ a, tr !! 0 = Some a → slept a = None ∧ Webhooks.url (request a) = url.
Proof.
  intros tr. unfold tr, notifyTenant.
  destruct (String.eqb_spec url "") as [->|Hurl].
  - split; [split; auto |]. intros a Ha. simpl in Ha. discriminate.
  - destruct (Z.to_nat maxRetries) as [|n] eqn:Hn; cbn [attempts_from].
    + split; [split; [intros _; right; lia | done] |].
      intros a Ha. simpl in Ha. discriminate.
    + split.
      * split.
        -- intros Hnil. exfalso.
           destruct (fetch 0); [done | |];
             by destruct (Z.of_nat 0 =? maxRetries - 1)%Z.
        -- intros [?|Hle]; [done | lia].
      * intros a Ha.
        destruct (fetch 0); [| destruct (Z.of_nat 0 =? maxRetries - 1)%Z ..];
          simpl in Ha; injection Ha as <-; done.
Qed.

(** What the iteration with loop counter [attempt] sleeps: nothing on the
    first, the table's entry on the next three, 1 ms past the table. *)
Lemma sleep_of_iteration (attempt : nat) (r : Request) :
  sleep_of (mkAttempt (if (0 <? attempt)%nat then Some (delays !! attempt) else None) r)
  = match attempt with
    | 0 => 0%Z | 1 => 5000%Z | 2 => 30000%Z | 3 => 300000%Z | _ => 1%Z
    end.
Proof. by destruct attempt as [|[|[|[|attempt]]]]. Qed.

(** The sum of the table's entries from index [attempt] on. *)
Lemma delays_from (attempt : nat) :
  foldr Z.add 0%Z (drop attempt delays)
  = match attempt with
    | 0 | 1 => 335000%Z | 2 => 330000%Z | 3 => 300000%Z | _ => 0%Z
    end.
Proof. by destruct attempt as [|[|[|[|attempt]]]]; try done; destruct attempt. Qed.

(** The sleep that remains from loop counter [attempt] on: at most the
    table's entries from there, and 1 ms for each iteration past the
    table. *)
Lemma attempts_from_sleep url ev payload signature maxRetries fetch :
  ∀ remaining attempt,
    (0 ≤ total_sleep (attempts_from url ev payload signature maxRetries fetch
                                    remaining attempt)
     ≤ foldr Z.add 0 (drop attempt delays)
       + Z.max 0 (Z.of_nat (attempt + remaining) - Z.max 4 (Z.of_nat attempt)))%Z.
Proof.
  induction remaining as [|remaining IH]; intros attempt; rewrite delays_from.
  - cbn [attempts_from total_sleep foldr].
    destruct attempt as [|[|[|[|attempt]]]]; lia.
  - specialize (IH (S attempt)). rewrite delays_from in IH. cbn [attempts_from].
    set (a := mkAttempt _ _).
    assert (Ha : sleep_of a
                 = match attempt with
                   | 0 => 0%Z | 1 => 5000%Z | 2 => 30000%Z | 3 => 300000%Z
                   | _ => 1%Z
                   end) by apply sleep_of_iteration.
    assert (Hcons : ∀ tl, total_sleep (a :: tl) = (sleep_of a + total_sleep tl)%Z)
      by done.
    assert (Hone : total_sleep [a] = sleep_of a)
      by (rewrite Hcons; unfold total_sleep; cbn [foldr]; lia).
    clearbody a.
    destruct (fetch attempt); [| destruct (_ =? _)%Z ..];
      rewrite ?Hone, ?Hcons, Ha;
      destruct attempt as [|[|[|[|attempt]]]]; lia.
Qed.

(** When no request succeeds, the iterations past the table sleep 1 ms
    each. *)
Lemma attempts_from_sleep_past_table url ev payload signature maxRetries fetch :
  (∀ i, fetch i ≠ ResponseOk) →
  ∀ remaining attempt,
    (4 ≤ attempt)%nat →
    Z.of_nat (attempt + remaining) = maxRetries →
    total_sleep (attempts_from url ev payload signature maxRetries fetch
                               remaining attempt) = Z.of_nat remaining.
Proof.
  intros Hfail. induction remaining as [|remaining IH]; intros attempt H4 Hsum;
    [done |].
  cbn [attempts_from]. set (a := mkAttempt _ _).
  assert (Ha : sleep_of a = 1%Z).
  { unfold a. rewrite sleep_of_iteration. by destruct attempt as [|[|[|[|attempt]]]]; try lia. }
  assert (Hcons : ∀ tl, total_sleep (a :: tl) = (sleep_of a + total_sleep tl)%Z)
    by done.
  clearbody a. specialize (Hfail attempt).
  destruct (Z.eqb_spec (Z.of_nat attempt) (maxRetries - 1)) as [Heq|Hne].
  - assert (remaining = 0) as -> by lia.
    destruct (fetch attempt); [done | |]; rewrite Hcons, Ha; unfold total_sleep; simpl; lia.
  - destruct (fetch attempt); [done | |]; rewrite Hcons, Ha, IH; lia.
Qed.

(** X10.  A delivery sleeps for at most 335 s, the sum of the table, plus
    1 ms for every attempt that [maxRetries] allows beyond the table's
    four: there [sleep] is handed [undefined] and the timer runs for 1 ms.
    The bound is reached when no request succeeds.  With the default of
    three attempts the delivery sleeps 0 s when the first request
    succeeds, 5 s when the second does, and 35 s otherwise. *)
Theorem notifyTenant_total_sleep url ev secret fetch :
  url ≠ "" →
  (∀ maxRetries,
     (0 ≤ total_sleep (notifyTenant JSON_stringify hmac_sha256_hex
                         url ev secret maxRetries fetch)
      ≤ 335000 + Z.max 0 (maxRetries - 4))%Z)
  ∧ (∀ maxRetries,
       (∀ i, fetch i ≠ ResponseOk) → (4 ≤ maxRetries)%Z →
       total_sleep (notifyTenant JSON_stringify hmac_sha256_hex
                      url ev secret maxRetries fetch)
       = (335000 + (maxRetries - 4))%Z)
  ∧ let tr := notifyTenant JSON_stringify hmac_sha256_hex
                url ev secret default_maxRetries fetch in
    (fetch 0 = ResponseOk → length tr = 1 ∧ total_sleep tr = 0%Z)
    ∧ (fetch 0 ≠ ResponseOk → fetch 1 = ResponseOk →
       length tr = 2 ∧ total_sleep tr = 5000%Z)
    ∧ (fetch 0 ≠ ResponseOk → fetch 1 ≠ ResponseOk →
       length tr = 3 ∧ total_sleep tr = 35000%Z).
Proof.
  intros Hurl. apply String.eqb_neq in Hurl. split; [| split].
  - intros maxRetries. unfold notifyTenant. rewrite Hurl.
    pose proof (attempts_from_sleep url ev (JSON_stringify ev)
                  (if Js.truthy secret
                   then Some (generateSignature hmac_sha256_hex (JSON_stringify ev)
                                                (default "" secret))
                   else None)
                  maxRetries fetch (Z.to_nat maxRetries) 0) as H.
    cbv zeta. simpl in H. lia.
  - intros maxRetries Hfail H4. unfold notifyTenant. rewrite Hurl. cbv zeta.
    set (payload := JSON_stringify ev). set (signature := if Js.truthy secret then _ else _).
    destruct (Z.to_nat maxRetries) as [|[|[|[|k]]]] eqn:Hn; try lia.
    pose proof (attempts_from_sleep_past_table url ev payload signature maxRetries
                  fetch Hfail k 4) as Hk.
    pose proof (Hfail 0) as H0. pose proof (Hfail 1) as H1.
    pose proof (Hfail 2) as H2. pose proof (Hfail 3) as H3.
    cbn [attempts_from].
    destruct (Z.eqb_spec (Z.of_nat 0) (maxRetries - 1)); [lia |].
    destruct (Z.eqb_spec (Z.of_nat 1) (maxRetries - 1)); [lia |].
    destruct (Z.eqb_spec (Z.of_nat 2) (maxRetries - 1)); [lia |].
    destruct (Z.eqb_spec (Z.of_nat 3) (maxRetries - 1)) as [Heq|Hne].
    + assert (k = 0) as -> by lia.
      destruct (fetch 0), (fetch 1), (fetch 2), (fetch 3); try done;
        unfold total_sleep, sleep_of, sleep; simpl; lia.
    + specialize (Hk ltac:(lia) ltac:(lia)).
      set (tl := attempts_from _ _ _ _ _ _ k 4) in *. clearbody tl.
      destruct (fetch 0), (fetch 1), (fetch 2), (fetch 3); try done;
        unfold total_sleep, sleep_of, sleep in *; simpl; lia.
  - unfold notifyTenant. rewrite Hurl. unfold default_maxRetries. simpl.
    split; [| split].
    + by intros ->.
    + intros H0 H1. rewrite H1. by destruct (fetch 0).
    + intros H0 H1. by destruct (fetch 0), (fetch 1), (fetch 2).
Qed.

(** X24.  The requests of one delivery.  With a URL configured,
    [notifyTenant] makes at most [maxRetries] POST attempts, and exactly
    that many when none succeeds; the attempt at index [i] (from 0) goes
    to the configured URL and carries [X-Webhook-Attempt] [i + 1], the
    event's type and timestamp, the serialized event as body and, for a
    non-empty secret, the same signature every time, the HMAC of that
    body (no signature for a missing or an empty secret); attempt 0 is not
    delayed and attempts 1 to 3 wait for the table's entry of their index;
    the first success is the last attempt. *)
Theorem notifyTenant_attempts url ev secret maxRetries fetch :
  url ≠ "" →
  (∀ k p, hmac_sha256_hex k p ≠ "") →
  let tr := notifyTenant JSON_stringify hmac_sha256_hex
              url ev secret maxRetries fetch in
  let payload := JSON_stringify ev in
  (length tr ≤ Z.to_nat maxRetries)%nat
  ∧ ((∀ i, fetch i ≠ ResponseOk) → length tr = Z.to_nat maxRetries)
  ∧ ∀ i a, tr !! i = Some a →
      request a
      = {| Webhooks.url := url;
           X_Webhook_Event := type ev;
           X_Webhook_Timestamp := timestamp ev;
           X_Webhook_Attempt := i + 1;
           X_Webhook_Signature :=
             (if Js.truthy secret
              then Some (hmac_sha256_hex (default "" secret) payload) else None);
           body := payload |}
      ∧ (i = 0 → slept a = None)
      ∧ ((i < 4)%nat → ∃ d, delays !! i = Some d ∧ waited a = Some d)
      ∧ (fetch i = ResponseOk → length tr = S i)
      ∧ ((S i < length tr)%nat → fetch i ≠ ResponseOk).
Proof.
  intros Hurl Hmac tr payload. unfold tr, notifyTenant.
  apply String.eqb_neq in Hurl. rewrite Hurl. fold payload.
  set (signature := if Js.truthy secret
                    then Some (generateSignature hmac_sha256_hex payload
                                                 (default "" secret))
                    else None).
  destruct (attempts_from_spec url ev payload signature maxRetries fetch
              (Z.to_nat maxRetries) 0) as [Hlen Hspec].
  split; [exact Hlen |]. split.
  - intros Hfail.
    destruct (attempts_from_all_fail url ev payload signature maxRetries fetch
                Hfail (Z.to_nat maxRetries) 0) as [?|[Hne Hpos]]; [done |].
    exfalso. apply Hne. simpl. lia.
  - intros i a Hi. destruct (Hspec i a Hi) as (Hs & Hr & Hok & Hlt).
    simpl in Hs, Hr, Hok, Hlt. rewrite Hr.
    split.
    { f_equal. unfold signature. destruct (Js.truthy secret); [| done].
      unfold generateSignature. simpl.
      destruct (String.eqb_spec (hmac_sha256_hex (default "" secret) payload) "")
        as [He|_]; [by apply Hmac in He | done]. }
    split; [by intros -> |]. split; [| by split].
    intros Hi4. unfold waited. rewrite Hs.
    destruct i as [|[|[|[|i]]]]; simpl; eauto. lia.
Qed.

End WebhookBounds.

Lemma notifyTenant_total_sleep_witness :
  Webhooks.total_sleep
    (Webhooks.notifyTenant Scenario.sample_stringify Scenario.sample_hmac
       Scenario.hook Scenario.sent_event None Webhooks.default_maxRetries
       (λ _, Webhooks.FetchThrows "ECONNREFUSED")) = 35000%Z
  ∧ Webhooks.total_sleep
      (Webhooks.notifyTenant Scenario.sample_stringify Scenario.sample_hmac
         Scenario.hook Scenario.sent_event None 6
         (λ _, Webhooks.FetchThrows "ECONNREFUSED")) = (335000 + (6 - 4))%Z.
Proof.
  destruct (notifyTenant_total_sleep Scenario.sample_stringify Scenario.sample_hmac
              Scenario.hook Scenario.sent_event None
              (λ _, Webhooks.FetchThrows "ECONNREFUSED")) as (_ & Hpast & _ & _ & H).
  - discriminate.
  - split.
    + destruct H as [_ H]; [discriminate | discriminate | exact H].
    + apply Hpast; [discriminate | lia].
Defined.

Lemma notifyTenant_attempts_witness :
  let tr := Webhooks.notifyTenant Scenario.sample_stringify Scenario.sample_hmac
              Scenario.hook Scenario.sent_event (Some "secret") 3
              (λ i, if (i =? 0)%nat then Webhooks.ResponseNotOk 500
                    else Webhooks.ResponseOk) in
  length tr = 2
  ∧ (Webhooks.X_Webhook_Attempt ∘ Webhooks.request) <$> tr = [1; 2]
  ∧ Webhooks.waited <$> tr = [Some 0%Z; Some 5000%Z]
  ∧ ∀ a, tr !! 1 = Some a →
      Webhooks.X_Webhook_Signature (Webhooks.request a)
      = Some (Scenario.sample_hmac "secret"
                (Scenario.sample_stringify Scenario.sent_event)).
Proof.
  intros tr.
  split; [reflexivity |]. split; [reflexivity |]. split; [reflexivity |].
  intros a Ha.
  pose proof (notifyTenant_attempts Scenario.sample_stringify Scenario.sample_hmac
                Scenario.hook Scenario.sent_event (Some "secret") 3
                (λ i, if (i =? 0)%nat then Webhooks.ResponseNotOk 500
                      else Webhooks.ResponseOk)) as H.
  destruct H as (_ & _ & H); [discriminate | discriminate |].
  destruct (H 1 a Ha) as (Hreq & _). by rewrite Hreq.
Defined.

(** ** The session registry: sockets, regeneration, deletion *)

Section RegistryInvariant.
Import Sessions.

Implicit Types (w : World) (s : string) (env : Faults).

Lemma sd_same w w' :
  sessions w' = sessions w → sockets_made w' = sockets_made w →
  sockets_distinct w → sockets_distinct w'.
Proof. intros Hs Hn [H1 H2]. split; rewrite ?Hs, ?Hn; done. Qed.

Lemma sd_delete s w :
  sockets_distinct w → sockets_distinct (set_sessions (delete s) w).
Proof.
  intros [H1 H2]. split; simpl.
  - intros s0 sd Hs0. apply lookup_delete_Some in Hs0 as [_ Hs0]. eauto.
  - intros s1 s2 sd1 sd2 Hs1 Hs2.
    apply lookup_delete_Some in Hs1 as [_ Hs1].
    apply lookup_delete_Some in Hs2 as [_ Hs2]. eauto.
Qed.

Lemma sd_update s (f : SessionData → SessionData) w :
  (∀ sd, socket (f sd) = socket sd) →
  sockets_distinct w → sockets_distinct (update_session s f w).
Proof.
  intros Hf [H1 H2].
  assert (Hl : ∀ s0 sd, alter f s (sessions w) !! s0 = Some sd →
                 ∃ sd0, sessions w !! s0 = Some sd0 ∧ socket sd = socket sd0).
  { intros s0 sd. destruct (decide (s = s0)) as [<-|Hne].
    - rewrite lookup_alter_eq. destruct (sessions w !! s) as [sd0|]; [| done].
      intros [= <-]. eauto.
    - rewrite lookup_alter_ne by done. eauto. }
  split; simpl.
  - intros s0 sd (sd0 & Hs0 & ->)%Hl. eauto.
  - intros s1 s2 sd1 sd2 (sd1' & Hs1 & ->)%Hl (sd2' & Hs2 & ->)%Hl. eauto.
Qed.

(** The socket that [createSession] makes is a new one, also when the
    session has been registered again by the time the driver calls
    return. *)
Lemma sd_createSession_resume env s p w :
  sockets_distinct w → sockets_distinct (fst (createSession_resume env s p w)).
Proof.
  intros [H1 H2]. unfold createSession_resume.
  destruct (useMultiFileAuthState_throws env); [done |].
  destruct (makeWASocket_throws env); [done |].
  split; simpl.
  - intros s0 sd. destruct (decide (s = s0)) as [<-|Hne].
    + rewrite lookup_insert_eq. intros [= <-]. simpl. lia.
    + rewrite lookup_insert_ne by done. intros Hs0%H1. lia.
  - intros s1 s2 sd1 sd2.
    destruct (decide (s = s1)) as [<-|Hne1], (decide (s = s2)) as [<-|Hne2];
      rewrite ?lookup_insert_eq, ?lookup_insert_ne by done; try done.
    + intros [= <-] Hs2%H1. simpl. lia.
    + intros Hs1%H1 [= <-]. simpl. lia.
    + eauto.
Qed.

Lemma sd_createSession env s p w :
  sockets_distinct w → sockets_distinct (fst (createSession env s p w)).
Proof.
  intros Hw. unfold createSession. destruct (sessions w !! s); [done |].
  by apply sd_createSession_resume.
Qed.

Lemma sd_rmSync env path w w' :
  rmSync env path w = Returned w' → sockets_distinct w → sockets_distinct w'.
Proof.
  unfold rmSync. destruct (rmSync_throws env); [done |].
  intros [= <-]. by apply sd_same.
Qed.

Lemma sd_handleLogoutAndRegenerate_begin env s w :
  sockets_distinct w →
  sockets_distinct (fst (handleLogoutAndRegenerate_begin env s w)).
Proof.
  intros Hw. unfold handleLogoutAndRegenerate_begin.
  destruct (sessions w !! s) as [sd|]; [| done].
  pose proof (sd_delete s w Hw) as Hd.
  destruct (existsSync _ _); [| done].
  destruct (rmSync env (authPath sd) (set_sessions (delete s) w)) as [w2|e] eqn:Hrm;
    [| done].
  by eapply sd_rmSync.
Qed.

Lemma sd_handleLogoutAndRegenerate env s w :
  sockets_distinct w → sockets_distinct (handleLogoutAndRegenerate env s w).
Proof.
  intros Hw. unfold handleLogoutAndRegenerate.
  pose proof (sd_handleLogoutAndRegenerate_begin env s w Hw) as Hb.
  destruct (handleLogoutAndRegenerate_begin env s w) as [w1 [p|]]; [| done].
  by apply sd_createSession.
Qed.

Lemma sd_reconnectSession_begin s w :
  sockets_distinct w → sockets_distinct (fst (reconnectSession_begin s w)).
Proof.
  intros Hw. unfold reconnectSession_begin.
  destruct (sessions w !! s); [| done]. by apply sd_delete.
Qed.

Lemma sd_reconnectSession env s w :
  sockets_distinct w → sockets_distinct (reconnectSession env s w).
Proof.
  intros Hw. unfold reconnectSession.
  pose proof (sd_reconnectSession_begin s w Hw) as Hb.
  destruct (reconnectSession_begin s w) as [w1 [p|]]; [| done].
  by apply sd_createSession.
Qed.

Lemma sd_on_connection_update env s (u : ConnectionUpdate) w :
  sockets_distinct w → sockets_distinct (on_connection_update env s u w).
Proof.
  intros Hw. unfold on_connection_update.
  set (w0 := if Js.truthy (qr u) then _ else w).
  assert (Hw0 : sockets_distinct w0).
  { unfold w0. destruct (Js.truthy (qr u)); [by apply sd_update | done]. }
  clearbody w0.
  destruct (connection u) as [[| |]|]; try done.
  - assert (Hw1 : sockets_distinct
                    (update_session s
                       (λ sd, {| socket := socket sd; connected := false;
                                 reconnectAttempts := reconnectAttempts sd;
                                 authPath := authPath sd; qrCode := qrCode sd |}) w0))
      by (by apply sd_update).
    destruct (sessions w0 !! s) as [sd|];
      [| by apply sd_handleLogoutAndRegenerate].
    destruct (negb _); [| by apply sd_handleLogoutAndRegenerate].
    destruct (_ <? _)%nat; [| by apply sd_handleLogoutAndRegenerate].
    eapply (sd_same (update_session s _ (update_session s _ w0)));
      [reflexivity | reflexivity |].
    by apply sd_update.
  - by apply sd_update.
Qed.

Lemma sd_step env (e : Event) w :
  sockets_distinct w → sockets_distinct (step env e w).
Proof.
  intros Hw. destruct e as [s p|s|s u|s]; simpl.
  - by apply sd_createSession.
  - unfold on_creds_update. destruct (sessions w !! s); [| done].
    by eapply sd_same.
  - by apply sd_on_connection_update.
  - unfold on_timer. destruct (take_timer s (timers w)); [| done].
    apply sd_reconnectSession. by eapply sd_same.
Qed.

Lemma sd_deleteSession env s w :
  sockets_distinct w → sockets_distinct (settled w (deleteSession env s w)).
Proof.
  intros Hw. unfold deleteSession.
  assert (Hlogout :
            (match sessions w !! s with
             | Some sd => try_catch (socket_logout env (socket sd))
                                    (λ _, Returned ())
             | None => Returned ()
             end) = Returned ()).
  { destruct (sessions w !! s); [| done].
    unfold socket_logout. by destruct (logout_throws env). }
  rewrite Hlogout. unfold mbind, Outcome_bind.
  set (w1 := if decide (is_Some (sessions w !! s)) then _ else w).
  assert (Hw1 : sockets_distinct w1).
  { unfold w1. destruct (decide _); [by apply sd_delete | done]. }
  clearbody w1. destruct (existsSync _ w1); [| done].
  unfold rmSync. destruct (rmSync_throws env); simpl; [done |].
  by eapply sd_same.
Qed.

Lemma sd_regenerateQR env s w :
  sockets_distinct w → sockets_distinct (fst (regenerateQR env s w)).
Proof.
  intros Hw. unfold regenerateQR. cbn [fst].
  set (w1 := match sessions w !! s with Some _ => _ | None => _ end).
  assert (Hw1 : sockets_distinct w1).
  { unfold w1. destruct (sessions w !! s) as [sd|]; [| done].
    unfold socket_logout. destruct (logout_throws env); [done |].
    by apply sd_delete. }
  clearbody w1.
  set (w2 := if existsSync _ w1 then _ else w1).
  assert (Hw2 : sockets_distinct w2).
  { unfold w2. destruct (existsSync _ w1); [| done].
    unfold rmSync. destruct (rmSync_throws env); [done |]. by eapply sd_same. }
  clearbody w2. by apply sd_createSession.
Qed.

Lemma sd_call env (c : Call) w :
  sockets_distinct w → sockets_distinct (call env c w).
Proof.
  intros Hw. destruct c as [e|s|s|s|s|s p|s|s p]; simpl.
  - by apply sd_step.
  - unfold closeSession. destruct (sessions w !! s) as [sd|]; [| done].
    unfold socket_logout. destruct (logout_throws env); simpl; [done |].
    by apply sd_delete.
  - by apply sd_deleteSession.
  - by apply sd_regenerateQR.
  - by apply sd_handleLogoutAndRegenerate_begin.
  - by apply sd_createSession.
  - unfold on_timer_begin. destruct (take_timer s (timers w)); [| done].
    apply sd_reconnectSession_begin. by eapply sd_same.
  - by apply sd_createSession_resume.
Qed.

(** X11.  One socket per session: however the registry is driven from its
    initial state, by driver events, timers and the calls of the HTTP
    layer, run to their end or, for regenerations, reconnects and
    [createSession], with other calls in between their parts, and with
    any outcomes of the driver and of the file system, every registered
    session holds a socket that [makeWASocket] has made, and no two
    sessions hold the same socket. *)
Theorem registry_sockets_distinct (cs : list (Faults * Call)) :
  sockets_distinct (calls cs initial).
Proof.
  assert (H : ∀ w, sockets_distinct w → sockets_distinct (calls cs w)).
  { induction cs as [|[env c] cs IH]; intros w Hw; simpl; [done |].
    by apply IH, sd_call. }
  apply H. split; simpl.
  - intros s sd Hs. by rewrite lookup_empty in Hs.
  - intros s1 s2 sd1 sd2 Hs1. by rewrite lookup_empty in Hs1.
Qed.

(** *** Sessions that are not registered *)

Lemma createSession_resume_other env s s' p w :
  s ≠ s' → sessions (fst (createSession_resume env s' p w)) !! s = sessions w !! s.
Proof.
  intros Hne. unfold createSession_resume.
  destruct (useMultiFileAuthState_throws env); [done |].
  destruct (makeWASocket_throws env); [done |].
  simpl. by rewrite lookup_insert_ne.
Qed.

Lemma createSession_other env s s' p w :
  s ≠ s' → sessions (fst (createSession env s' p w)) !! s = sessions w !! s.
Proof.
  intros Hne. unfold createSession. destruct (sessions w !! s'); [done |].
  by apply createSession_resume_other.
Qed.

(** The first part of a regeneration removes its session from the
    registry and touches no other. *)
Lemma handleLogoutAndRegenerate_begin_sessions env s w :
  sessions (fst (handleLogoutAndRegenerate_begin env s w)) = delete s (sessions w).
Proof.
  unfold handleLogoutAndRegenerate_begin.
  destruct (sessions w !! s) as [sd|] eqn:Hs; [| by rewrite delete_id].
  unfold rmSync. by destruct (existsSync _ _), (rmSync_throws env).
Qed.

Lemma handleLogoutAndRegenerate_absent env s' s w :
  sessions w !! s = None → s ≠ s' ∨ sessions w !! s' = None →
  sessions (handleLogoutAndRegenerate env s' w) !! s = None.
Proof.
  intros Hs Hcase. unfold handleLogoutAndRegenerate.
  pose proof (handleLogoutAndRegenerate_begin_sessions env s' w) as Hb.
  destruct (handleLogoutAndRegenerate_begin env s' w) as [w1 [p|]] eqn:Hbegin;
    simpl in Hb.
  - destruct Hcase as [Hne|Hs'].
    + unfold handleLogoutAndRegenerate_resume.
      rewrite createSession_other by done. rewrite Hb.
      by rewrite lookup_delete_ne.
    + unfold handleLogoutAndRegenerate_begin in Hbegin. by rewrite Hs' in Hbegin.
  - rewrite Hb. apply lookup_delete_None. auto.
Qed.

Lemma reconnectSession_begin_sessions s w :
  sessions (fst (reconnectSession_begin s w)) = delete s (sessions w).
Proof.
  unfold reconnectSession_begin.
  destruct (sessions w !! s) as [sd|] eqn:Hs; [done | by rewrite delete_id].
Qed.

Lemma reconnectSession_absent env s' s w :
  sessions w !! s = None → s ≠ s' ∨ sessions w !! s' = None →
  sessions (reconnectSession env s' w) !! s = None.
Proof.
  intros Hs Hcase. unfold reconnectSession.
  pose proof (reconnectSession_begin_sessions s' w) as Hb.
  destruct (reconnectSession_begin s' w) as [w1 [p|]] eqn:Hbegin; simpl in Hb.
  - destruct Hcase as [Hne|Hs'].
    + rewrite createSession_other by done. rewrite Hb.
      by rewrite lookup_delete_ne.
    + unfold reconnectSession_begin in Hbegin. by rewrite Hs' in Hbegin.
  - rewrite Hb. apply lookup_delete_None. auto.
Qed.

Lemma update_session_absent s' (f : SessionData → SessionData) s w :
  sessions w !! s = None → sessions (update_session s' f w) !! s = None.
Proof.
  intros Hs. simpl. destruct (decide (s' = s)) as [->|Hne].
  - by rewrite lookup_alter_eq, Hs.
  - by rewrite lookup_alter_ne.
Qed.

Lemma on_connection_update_absent env s' (u : ConnectionUpdate) s w :
  sessions w !! s = None →
  sessions (on_connection_update env s' u w) !! s = None.
Proof.
  intros Hs. unfold on_connection_update.
  set (w0 := if Js.truthy (qr u) then _ else w).
  assert (Hw0 : sessions w0 !! s = None
                ∧ (sessions w0 !! s' = None ↔ sessions w !! s' = None)).
  { unfold w0. destruct (Js.truthy (qr u)); [| done].
    split; [by apply update_session_absent |]. simpl.
    rewrite lookup_alter_eq. by destruct (sessions w !! s'). }
  destruct Hw0 as [Hs0 Hs0']. clearbody w0.
  destruct (connection u) as [[| |]|]; try done;
    [| by apply update_session_absent].
  set (w1 := update_session s' _ w0).
  assert (Hw1 : sessions w1 !! s = None) by (by apply update_session_absent).
  assert (Hw1' : sessions w0 !! s' = None → sessions w1 !! s' = None).
  { intros H. unfold w1. simpl. by rewrite lookup_alter_eq, H. }
  destruct (sessions w0 !! s') as [sd|] eqn:Hs'.
  - assert (Hne : s ≠ s') by (intros ->; congruence).
    destruct (negb _); [| apply handleLogoutAndRegenerate_absent; auto].
    destruct (_ <? _)%nat; [| apply handleLogoutAndRegenerate_absent; auto].
    simpl. by rewrite lookup_alter_ne, lookup_alter_ne by done.
  - apply handleLogoutAndRegenerate_absent; auto.
Qed.

Lemma deleteSession_sessions env s w :
  ∃ w', deleteSession env s w = Returned w'
        ∧ sessions w' = delete s (sessions w)
        ∧ timers w' = timers w
        ∧ sockets_made w' = sockets_made w.
Proof.
  unfold deleteSession.
  assert (Hlogout :
            (match sessions w !! s with
             | Some sd => try_catch (socket_logout env (socket sd))
                                    (λ _, Returned ())
             | None => Returned ()
             end) = Returned ()).
  { destruct (sessions w !! s); [| done].
    unfold socket_logout. by destruct (logout_throws env). }
  rewrite Hlogout. unfold mbind, Outcome_bind.
  set (w1 := if decide (is_Some (sessions w !! s)) then _ else w).
  assert (Hw1 : sessions w1 = delete s (sessions w) ∧ timers w1 = timers w
                ∧ sockets_made w1 = sockets_made w).
  { unfold w1. destruct (decide _) as [|Hn]; [done |].
    split; [| done]. symmetry. apply delete_id. by apply eq_None_not_Some. }
  destruct Hw1 as (Hw1 & Ht1 & Hn1). clearbody w1.
  destruct (existsSync _ w1); [| eauto].
  unfold rmSync. destruct (rmSync_throws env); simpl; eauto.
Qed.

(** [deleteSession] removes no folder but one and creates none. *)
Lemma deleteSession_completes_shape env s w :
  ∃ w', deleteSession env s w = Returned w'
        ∧ sessions w' = delete s (sessions w)
        ∧ sockets_made w' = sockets_made w
        ∧ ∀ p c, files w' !! p = Some c → files w !! p = Some c.
Proof.
  unfold deleteSession.
  assert (Hlogout :
            (match sessions w !! s with
             | Some sd => try_catch (socket_logout env (socket sd))
                                    (λ _, Returned ())
             | None => Returned ()
             end) = Returned ()).
  { destruct (sessions w !! s); [| done].
    unfold socket_logout. by destruct (logout_throws env). }
  rewrite Hlogout. unfold mbind, Outcome_bind.
  set (w1 := if decide (is_Some (sessions w !! s)) then _ else w).
  assert (Hw1 : sessions w1 = delete s (sessions w) ∧ files w1 = files w
                ∧ sockets_made w1 = sockets_made w).
  { unfold w1. destruct (decide _) as [|Hn]; [done |].
    split; [| done]. symmetry. apply delete_id. by apply eq_None_not_Some. }
  destruct Hw1 as (Hw1 & Hf1 & Hn1). clearbody w1.
  destruct (existsSync _ w1); [| exists w1; by rewrite Hf1].
  unfold rmSync. destruct (rmSync_throws env); simpl;
    [exists w1; by rewrite Hf1 |].
  eexists. split; [reflexivity |]. simpl. split; [done |]. split; [done |].
  intros p c Hp. apply lookup_delete_Some in Hp as [_ Hp]. by rewrite <- Hf1.
Qed.

(** The part of [regenerateQR] before its wait removes no session but its
    own. *)
Lemma regenerateQR_other env s' s w :
  s ≠ s' → sessions (fst (regenerateQR env s' w)) !! s = sessions w !! s.
Proof.
  intros Hne. unfold regenerateQR. cbn [fst].
  set (w1 := match sessions w !! s' with Some _ => _ | None => _ end).
  assert (Hw1 : sessions w1 !! s = sessions w !! s).
  { unfold w1. destruct (sessions w !! s') as [sd|]; [| done].
    unfold socket_logout. destruct (logout_throws env); [done |].
    simpl. by rewrite lookup_delete_ne. }
  clearbody w1.
  set (w2 := if existsSync _ w1 then _ else w1).
  assert (Hw2 : sessions w2 = sessions w1).
  { unfold w2. destruct (existsSync _ w1); [| done].
    unfold rmSync. by destruct (rmSync_throws env). }
  clearbody w2. rewrite createSession_other by done. by rewrite Hw2.
Qed.

Lemma call_absent env (c : Call) s w :
  sessions w !! s = None → registers s c = false →
  sessions (call env c w) !! s = None.
Proof.
  intros Hs Hreg.
  destruct c as [[s' p|s'|s' u|s']|s'|s'|s'|s'|s' p|s'|s' p];
    cbn [call step registers] in *.
  - apply String.eqb_neq in Hreg. by rewrite createSession_other.
  - unfold on_creds_update. by destruct (sessions w !! s').
  - by apply on_connection_update_absent.
  - unfold on_timer. destruct (take_timer s' (timers w)); [| done].
    apply reconnectSession_absent; [done |]. simpl.
    destruct (decide (s = s')) as [->|?]; auto.
  - unfold closeSession. destruct (sessions w !! s') as [sd|] eqn:Hs'; [| done].
    unfold socket_logout. destruct (logout_throws env); simpl; [done |].
    destruct (decide (s' = s)) as [->|?];
      [by rewrite lookup_delete_eq | by rewrite lookup_delete_ne].
  - destruct (deleteSession_sessions env s' w) as (w' & -> & Hw' & _). simpl.
    rewrite Hw'. apply lookup_delete_None. auto.
  - apply String.eqb_neq in Hreg. by rewrite regenerateQR_other.
  - rewrite handleLogoutAndRegenerate_begin_sessions. apply lookup_delete_None. auto.
  - apply String.eqb_neq in Hreg. unfold handleLogoutAndRegenerate_resume.
    by rewrite createSession_other.
  - unfold on_timer_begin. destruct (take_timer s' (timers w)); [| done].
    rewrite reconnectSession_begin_sessions. apply lookup_delete_None. auto.
  - apply String.eqb_neq in Hreg. by rewrite createSession_resume_other.
Qed.

(** With its driver calls succeeding, [createSession] from its first
    [await] on registers the session. *)
Lemma createSession_resume_registers env s p w :
  useMultiFileAuthState_throws env = false →
  makeWASocket_throws env = false →
  is_Some (sessions (fst (createSession_resume env s p w)) !! s).
Proof.
  intros Hu Hm. unfold createSession_resume. rewrite Hu, Hm. simpl.
  rewrite lookup_insert_eq. eauto.
Qed.

Lemma createSession_registers env s p w :
  useMultiFileAuthState_throws env = false →
  makeWASocket_throws env = false →
  is_Some (sessions (fst (createSession env s p w)) !! s).
Proof.
  intros Hu Hm. unfold createSession.
  destruct (sessions w !! s) as [sd|] eqn:Hs; [simpl; rewrite Hs; eauto |].
  by apply createSession_resume_registers.
Qed.

(** X14.  A session is registered by [createSession] only.  One that is not
    registered stays out under late driver events for its old socket,
    reconnect timers still pending for it, [closeSession] and
    [deleteSession], the first part of a regeneration or of a reconnect,
    and anything that happens for other sessions; what registers it, when
    the driver calls succeed, is a create request or [regenerateQR] for
    that very id, or the rest of a regeneration or of a [createSession]
    for it that was under way already. *)
Theorem unregistered_session_stays_out s w :
  sessions w !! s = None →
  (∀ cs : list (Faults * Call),
     forallb (λ c, negb (registers s (snd c))) cs = true →
     sessions (calls cs w) !! s = None
     ∧ isConnected s (calls cs w) = false)
  ∧ (∀ env (c : Call),
       registers s c = true →
       useMultiFileAuthState_throws env = false →
       makeWASocket_throws env = false →
       is_Some (sessions (call env c w) !! s)).
Proof.
  intros Hs. split.
  - intros cs Hcs.
    assert (H : sessions (calls cs w) !! s = None).
    { revert w Hs. induction cs as [|[env c] cs IH]; intros w Hs; simpl; [done |].
      simpl in Hcs. apply andb_true_iff in Hcs as [Hc Hcs].
      apply negb_true_iff in Hc. apply IH; [done |]. by apply call_absent. }
    split; [done |]. unfold isConnected. by rewrite H.
  - intros env c Hreg Hu Hm.
    destruct c as [[s' p|s'|s' u|s']|s'|s'|s'|s'|s' p|s'|s' p];
      cbn [call step registers] in *; try discriminate Hreg;
      apply String.eqb_eq in Hreg as ->.
    + by apply createSession_registers.
    + unfold regenerateQR. cbn [fst]. by apply createSession_registers.
    + by apply createSession_registers.
    + by apply createSession_resume_registers.
Qed.

Lemma unregistered_session_stays_out_witness :
  let lost := on_connection_update no_faults "S" link_lost_recoverable
                Scenario.connected_S in
  let deleted := settled lost (deleteSession no_faults "S" lost) in
  timers deleted = [("S", 2000%Z)]
  ∧ sessions (calls [(no_faults, CallEvent (EvTimer "S"));
                     (no_faults, CallEvent (EvConnectionUpdate "S" link_established));
                     (no_faults, CallRegenerateBegin "S");
                     (no_faults, CallCreateResume "T" "auth_info_T")]
                    deleted) !! "S" = None
  ∧ is_Some (sessions (call no_faults (CallCreateResume "S" "auth_info_S") deleted)
             !! "S").
Proof.
  intros lost deleted. split; [reflexivity |].
  destruct (unregistered_session_stays_out "S" deleted) as [Hout Hin];
    [reflexivity |].
  split.
  - apply (Hout [(no_faults, CallEvent (EvTimer "S"));
                 (no_faults, CallEvent (EvConnectionUpdate "S" link_established));
                 (no_faults, CallRegenerateBegin "S");
                 (no_faults, CallCreateResume "T" "auth_info_T")]).
    reflexivity.
  - apply Hin; reflexivity.
Defined.

(** *** Regeneration *)

(** What [createSession] does for a session that is not registered. *)
Lemma createSession_fresh env s p w :
  sessions w !! s = None →
  useMultiFileAuthState_throws env = false →
  makeWASocket_throws env = false →
  createSession env s (Some p) w
  = ({| sessions := <[s := fresh_session w p]> (sessions w);
        files := match files w !! p with
                 | Some _ => files w
                 | None => <[p := BlankCreds]> (files w)
                 end;
        timers := timers w; sockets_made := S (sockets_made w) |},
     Returned (sockets_made w)).
Proof.
  intros Hs Hu Hm. unfold createSession, createSession_resume.
  by rewrite Hs, Hu, Hm.
Qed.

Lemma createSession_fails env s p w :
  sessions w !! s = None →
  useMultiFileAuthState_throws env = true ∨ makeWASocket_throws env = true →
  ∃ w' e, createSession env s (Some p) w = (w', Threw e)
          ∧ sessions w' = sessions w ∧ timers w' = timers w
          ∧ sockets_made w' = sockets_made w.
Proof.
  intros Hs Hfault. unfold createSession, createSession_resume. rewrite Hs.
  destruct (useMultiFileAuthState_throws env); [by eauto 10 |].
  destruct Hfault as [?| ->]; [done | by eauto 10].
Qed.

(** The first part of a regeneration of a registered session: the session
    is removed from the registry and its auth folder from the disk; when
    [rmSync] throws on an existing folder the method ends there. *)
Lemma handleLogoutAndRegenerate_begin_registered env s w sd :
  sessions w !! s = Some sd →
  handleLogoutAndRegenerate_begin env s w
  = if rmSync_throws env && bool_decide (is_Some (files w !! authPath sd))
    then (set_sessions (delete s) w, None)
    else ({| sessions := delete s (sessions w);
             files := delete (authPath sd) (files w);
             timers := timers w; sockets_made := sockets_made w |},
          Some (authPath sd)).
Proof.
  intros Hs. unfold handleLogoutAndRegenerate_begin, existsSync, rmSync.
  rewrite Hs. cbn [files set_sessions sessions timers sockets_made].
  destruct (bool_decide_reflect (is_Some (files w !! authPath sd))) as [Hf|Hf].
  - destruct (rmSync_throws env); done.
  - rewrite andb_false_r. unfold set_sessions.
    rewrite (delete_id (files w)); [done |]. by apply eq_None_not_Some.
Qed.

(** A regeneration does not depend on what the record of the session
    holds beside its [authPath]. *)
Lemma handleLogoutAndRegenerate_update env s (f : SessionData → SessionData) w :
  (∀ sd, authPath (f sd) = authPath sd) →
  handleLogoutAndRegenerate env s (update_session s f w)
  = handleLogoutAndRegenerate env s w.
Proof.
  intros Hf.
  assert (Hb : handleLogoutAndRegenerate_begin env s (update_session s f w)
               = handleLogoutAndRegenerate_begin env s w).
  { unfold handleLogoutAndRegenerate_begin. simpl. rewrite lookup_alter_eq.
    destruct (sessions w !! s) as [sd|] eqn:Hs; simpl.
    - rewrite Hf. unfold set_sessions, existsSync, rmSync. simpl.
      by rewrite delete_alter_eq.
    - unfold update_session, set_sessions. f_equal.
      destruct w as [m fs ts n]. simpl in *. f_equal.
      apply map_eq. intros i. destruct (decide (s = i)) as [<-|Hne].
      + by rewrite lookup_alter_eq, Hs.
      + by rewrite lookup_alter_ne. }
  unfold handleLogoutAndRegenerate. by rewrite Hb.
Qed.

(** A terminal link loss is a regeneration of the session. *)
Lemma on_connection_update_terminal env s (u : ConnectionUpdate) w sd :
  sessions w !! s = Some sd →
  connection u = Some connection_close →
  statusCode u = Some DisconnectReason_loggedOut
  ∨ (maxReconnectAttempts ≤ reconnectAttempts sd)%nat →
  on_connection_update env s u w = handleLogoutAndRegenerate env s w.
Proof.
  intros Hs Hc Hwhy. unfold on_connection_update. rewrite Hc.
  set (w0 := if Js.truthy (qr u) then _ else w).
  assert (Hw0 : handleLogoutAndRegenerate env s w0
                = handleLogoutAndRegenerate env s w
                ∧ ∃ sd0, sessions w0 !! s = Some sd0
                         ∧ reconnectAttempts sd0 = reconnectAttempts sd).
  { unfold w0. destruct (Js.truthy (qr u)).
    - split; [by apply handleLogoutAndRegenerate_update |].
      simpl. rewrite lookup_alter_eq, Hs. simpl. eauto.
    - eauto. }
  destruct Hw0 as (Hh0 & sd0 & Hs0 & Hr0). rewrite Hs0.
  rewrite handleLogoutAndRegenerate_update by done. rewrite Hh0.
  destruct Hwhy as [Hcode|Hceil].
  - by rewrite Hcode, bool_decide_eq_true_2.
  - destruct (negb _); [| done].
    rewrite Hr0. apply Nat.ltb_ge in Hceil. by rewrite Hceil.
Qed.

(** The parts of a reconnect, run one after the other, are the reconnect:
    the [has] check of its [createSession] finds no session. *)
Lemma on_timer_split env s w :
  on_timer env s w
  = match on_timer_begin s w with
    | (w1, None) => w1
    | (w1, Some authPath) => fst (createSession_resume env s authPath w1)
    end.
Proof.
  unfold on_timer, on_timer_begin. destruct (take_timer s (timers w)); [| done].
  unfold reconnectSession, reconnectSession_begin. simpl.
  destruct (sessions w !! s) as [sd|]; [| done].
  unfold createSession. simpl. by rewrite lookup_delete_eq.
Qed.

(** X12.  A terminal link loss ([loggedOut]), like a recoverable one that
    finds the counter at the ceiling, starts no reconnect timer.  When the
    auth folder can be removed, or is not there, and the driver calls of
    [createSession] succeed, the session is registered anew on a new
    socket, not connected, counter 0, no pairing code, and its auth folder
    holds blank credentials; when [rmSync] throws on an existing folder,
    the session is left out of the registry and nothing on disk changes;
    when a driver call of [createSession] fails, the session is left out
    of the registry too. *)
Theorem terminal_loss_regenerates env s (u : ConnectionUpdate) w (sd : SessionData) :
  sessions w !! s = Some sd →
  connection u = Some connection_close →
  statusCode u = Some DisconnectReason_loggedOut
  ∨ (maxReconnectAttempts ≤ reconnectAttempts sd)%nat →
  let w' := on_connection_update env s u w in
  timers w' = timers w
  ∧ (rmSync_throws env = false ∨ files w !! authPath sd = None →
     useMultiFileAuthState_throws env = false →
     makeWASocket_throws env = false →
     sessions w' !! s = Some (fresh_session w (authPath sd))
     ∧ files w' !! authPath sd = Some BlankCreds
     ∧ sockets_made w' = S (sockets_made w))
  ∧ (rmSync_throws env = true → is_Some (files w !! authPath sd) →
     sessions w' !! s = None ∧ files w' = files w)
  ∧ (useMultiFileAuthState_throws env = true ∨ makeWASocket_throws env = true →
     sessions w' !! s = None ∧ sockets_made w' = sockets_made w).
Proof.
  intros Hs Hc Hwhy w'. unfold w'.
  rewrite (on_connection_update_terminal env s u w sd Hs Hc Hwhy).
  split; [apply handleLogoutAndRegenerate_timers |].
  unfold handleLogoutAndRegenerate.
  rewrite (handleLogoutAndRegenerate_begin_registered env s w sd Hs).
  set (w2 := {| sessions := delete s (sessions w);
                files := delete (authPath sd) (files w);
                timers := timers w; sockets_made := sockets_made w |}).
  assert (Hs2 : sessions w2 !! s = None) by apply lookup_delete_eq.
  assert (Hf2 : files w2 !! authPath sd = None) by apply lookup_delete_eq.
  unfold handleLogoutAndRegenerate_resume.
  destruct (rmSync_throws env) eqn:Hrm;
    destruct (bool_decide_reflect (is_Some (files w !! authPath sd))) as [Hf|Hf];
    cbn [andb].
  - split; [intros [?|Hn]; [done | rewrite Hn in Hf; by destruct Hf] |].
    split; [intros _ _; split; [apply lookup_delete_eq | done] |].
    intros _. split; [apply lookup_delete_eq | done].
  - split; [| split; [done |]].
    + intros _ Hu Hm. rewrite (createSession_fresh env s _ w2 Hs2 Hu Hm).
      cbn [fst sessions files sockets_made]. rewrite Hf2.
      by rewrite !lookup_insert_eq.
    + intros Hfault.
      destruct (createSession_fails env s (authPath sd) w2 Hs2 Hfault)
        as (w3 & e & -> & Hs3 & _ & Hn3).
      cbn [fst]. by rewrite Hs3, Hn3.
  - split; [| split; [done |]].
    + intros _ Hu Hm. rewrite (createSession_fresh env s _ w2 Hs2 Hu Hm).
      cbn [fst sessions files sockets_made]. rewrite Hf2.
      by rewrite !lookup_insert_eq.
    + intros Hfault.
      destruct (createSession_fails env s (authPath sd) w2 Hs2 Hfault)
        as (w3 & e & -> & Hs3 & _ & Hn3).
      cbn [fst]. by rewrite Hs3, Hn3.
  - split; [| split; [done |]].
    + intros _ Hu Hm. rewrite (createSession_fresh env s _ w2 Hs2 Hu Hm).
      cbn [fst sessions files sockets_made]. rewrite Hf2.
      by rewrite !lookup_insert_eq.
    + intros Hfault.
      destruct (createSession_fails env s (authPath sd) w2 Hs2 Hfault)
        as (w3 & e & -> & Hs3 & _ & Hn3).
      cbn [fst]. by rewrite Hs3, Hn3.
Qed.

Lemma terminal_loss_regenerates_witness :
  let w' := on_connection_update no_faults "S" link_lost_terminal
              Scenario.connected_S in
  timers w' = []
  ∧ sessions w' !! "S" = Some (fresh_session Scenario.connected_S "auth_info_S")
  ∧ files w' !! "auth_info_S" = Some BlankCreds.
Proof.
  intros w'.
  destruct (terminal_loss_regenerates no_faults "S" link_lost_terminal
              Scenario.connected_S
              {| socket := 0; connected := true; reconnectAttempts := 0;
                 authPath := "auth_info_S"; qrCode := None |})
    as (Ht & Hok & _).
  - reflexivity.
  - reflexivity.
  - left. reflexivity.
  - split; [exact Ht |].
    destruct Hok as (Hs & Hf & _); [by left | reflexivity | reflexivity |].
    split; [exact Hs | exact Hf].
Defined.

(** [regenerateQR] on a registered session whose logout throws: the
    [catch] is entered before [sessions.delete], the folder is removed all
    the same, and [createSession] returns the session it finds. *)
Lemma regenerateQR_registered_logout_throws env s w sd :
  sessions w !! s = Some sd → logout_throws env = true →
  ∃ w', regenerateQR env s w = (w', Returned ())
        ∧ sessions w' = sessions w ∧ sockets_made w' = sockets_made w
        ∧ timers w' = timers w
        ∧ ∀ path,
            (authPath sd ≠ "" ∧ path = authPath sd)
            ∨ (authPath sd = "" ∧ path = "auth_info_" +:+ s) →
            files w' = if rmSync_throws env then files w
                       else delete path (files w).
Proof.
  intros Hs Hlo. unfold regenerateQR, socket_logout. rewrite Hs, Hlo.
  set (path0 := authPath_or_default (Some sd) s).
  set (w2 := if existsSync path0 w then _ else w).
  assert (Hw2 : sessions w2 = sessions w ∧ sockets_made w2 = sockets_made w
                ∧ timers w2 = timers w
                ∧ files w2 = if rmSync_throws env then files w
                             else delete path0 (files w)).
  { unfold w2, existsSync, rmSync.
    destruct (bool_decide_reflect (is_Some (files w !! path0))) as [Hf|Hf];
      destruct (rmSync_throws env); try done.
    repeat (split; [done |]). symmetry. apply delete_id.
    by apply eq_None_not_Some. }
  destruct Hw2 as (Hs2 & Hn2 & Ht2 & Hf2). clearbody w2.
  unfold createSession. rewrite Hs2, Hs. cbn [fst snd].
  exists w2. repeat (split; [done |]).
  intros path Hpath. rewrite Hf2.
  assert (path0 = path) as ->; [| done].
  unfold path0, authPath_or_default, Js.or_default, Js.truthy. simpl.
  destruct Hpath as [[Hne ->]|[He ->]].
  - apply String.eqb_neq in Hne. by rewrite Hne.
  - by rewrite He.
Qed.

(** [regenerateQR] before its wait, when the logout does not throw or
    there is no session: the session is out of the registry, and the
    folder [path] is removed unless [rmSync] throws. *)
Lemma regenerateQR_removed env s w path :
  (∃ sd, sessions w !! s = Some sd ∧ logout_throws env = false
         ∧ authPath sd ≠ "" ∧ path = authPath sd)
  ∨ ((sessions w !! s = None
      ∨ ∃ sd, sessions w !! s = Some sd ∧ logout_throws env = false
              ∧ authPath sd = "")
     ∧ path = "auth_info_" +:+ s) →
  ∃ w2, regenerateQR env s w
        = (fst (createSession env s (Some path) w2),
           _ ← snd (createSession env s (Some path) w2); Returned ())
        ∧ sessions w2 = delete s (sessions w)
        ∧ timers w2 = timers w ∧ sockets_made w2 = sockets_made w
        ∧ files w2 = (if rmSync_throws env then files w
                      else delete path (files w)).
Proof.
  intros Hcase. unfold regenerateQR.
  set (w1 := match sessions w !! s with Some _ => _ | None => _ end).
  assert (Hpath : authPath_or_default (sessions w !! s) s = path
                  ∧ w1 = set_sessions (delete s) w).
  { unfold authPath_or_default, Js.or_default, Js.truthy, w1, socket_logout.
    destruct Hcase as [(sd & -> & -> & Hne & ->)|[[Hn|(sd & -> & -> & He)] ->]];
      simpl.
    - apply String.eqb_neq in Hne. by rewrite Hne.
    - rewrite Hn. simpl. split; [done |]. unfold set_sessions.
      rewrite delete_id by done. by destruct w.
    - by rewrite He. }
  destruct Hpath as [-> ->].
  set (w2 := if existsSync path _ then _ else _).
  exists w2. split; [done |].
  unfold w2, existsSync, rmSync. cbn [files set_sessions].
  destruct (bool_decide_reflect (is_Some (files w !! path))) as [Hf|Hf];
    destruct (rmSync_throws env); try done.
  cbn [sessions timers sockets_made files]. repeat (split; [done |]).
  symmetry. apply delete_id. by apply eq_None_not_Some.
Qed.

(** X13.  [regenerateQR] on a registered session whose logout throws
    removes nothing from the registry: [createSession] finds the session
    and returns, the old record and its socket stay and no new socket is
    made, while the auth folder of the session is removed all the same.
    In every other case the session is removed from the registry
    and, unless [rmSync] throws, the auth folder from the disk: the folder
    named by the session's [authPath] when that is not empty, and
    [auth_info_<id>] otherwise.  Then, when the driver calls of
    [createSession] succeed, the method returns and the session is a new
    one on a new socket, with blank credentials in that folder unless the
    old folder could not be removed; when one of them fails, the method
    throws and the session is left out of the registry. *)
Theorem regenerateQR_outcomes env s w :
  (∀ sd, sessions w !! s = Some sd → logout_throws env = true →
     ∃ w', regenerateQR env s w = (w', Returned ())
           ∧ sessions w' = sessions w ∧ sockets_made w' = sockets_made w
           ∧ (authPath sd ≠ "" → rmSync_throws env = false →
              files w' = delete (authPath sd) (files w)))
  ∧ ∀ path,
      (∃ sd, sessions w !! s = Some sd ∧ logout_throws env = false
             ∧ authPath sd ≠ "" ∧ path = authPath sd)
      ∨ ((sessions w !! s = None
          ∨ ∃ sd, sessions w !! s = Some sd ∧ logout_throws env = false
                  ∧ authPath sd = "")
         ∧ path = "auth_info_" +:+ s) →
      (useMultiFileAuthState_throws env = false →
       makeWASocket_throws env = false →
       ∃ w', regenerateQR env s w = (w', Returned ())
             ∧ sessions w' = <[s := fresh_session w path]> (sessions w)
             ∧ sockets_made w' = S (sockets_made w)
             ∧ (rmSync_throws env = false ∨ files w !! path = None →
                files w' = <[path := BlankCreds]> (files w))
             ∧ (rmSync_throws env = true → is_Some (files w !! path) →
                files w' = files w))
      ∧ (useMultiFileAuthState_throws env = true
         ∨ makeWASocket_throws env = true →
         ∃ w' e, regenerateQR env s w = (w', Threw e)
                 ∧ sessions w' = delete s (sessions w)
                 ∧ sockets_made w' = sockets_made w).
Proof.
  split.
  - intros sd Hs Hlo.
    destruct (regenerateQR_registered_logout_throws env s w sd Hs Hlo)
      as (w' & Hr & Hs' & Hn' & _ & Hf').
    exists w'. split; [done |]. split; [done |]. split; [done |].
    intros Hne Hrm. rewrite (Hf' (authPath sd)) by auto. by rewrite Hrm.
  - intros path Hcase.
    destruct (regenerateQR_removed env s w path Hcase)
      as (w2 & -> & Hs2 & Ht2 & Hn2 & Hf2).
    assert (Hnone : sessions w2 !! s = None)
      by (rewrite Hs2; apply lookup_delete_eq).
    split.
    + intros Hu Hm. rewrite (createSession_fresh env s path w2 Hnone Hu Hm).
      cbn [fst snd]. eexists. split; [reflexivity |].
      cbn [sessions sockets_made files].
      split; [unfold fresh_session; by rewrite Hs2, Hn2, insert_delete_eq |].
      split; [by rewrite Hn2 |].
      rewrite Hf2. split.
      * intros [->|Hn].
        -- by rewrite lookup_delete_eq, insert_delete_eq.
        -- destruct (rmSync_throws env); [by rewrite Hn |].
           by rewrite lookup_delete_eq, insert_delete_eq.
      * intros -> [c Hc]. by rewrite Hc.
    + intros Hfault.
      destruct (createSession_fails env s path w2 Hnone Hfault)
        as (w3 & e & -> & Hs3 & _ & Hn3).
      cbn [fst snd]. exists w3, e. split; [done |].
      split; [by rewrite Hs3 | by rewrite Hn3].
Qed.

(** X25.  A [deleteSession] that runs while a regeneration of the same
    session waits is undone.  The first part of the regeneration removes
    the session and its auth folder; [deleteSession], called during the
    1 s wait, finds no session, returns normally and leaves the session
    absent; when the wait is over [createSession] registers the session
    again, on a new socket and with a new auth folder. *)
Theorem delete_during_regeneration_is_undone (env env_delete env_resume : Faults)
    s w (sd : SessionData) :
  sessions w !! s = Some sd →
  rmSync_throws env = false ∨ files w !! authPath sd = None →
  useMultiFileAuthState_throws env_resume = false →
  makeWASocket_throws env_resume = false →
  ∃ w1 w2,
    handleLogoutAndRegenerate_begin env s w = (w1, Some (authPath sd))
    ∧ sessions w1 !! s = None
    ∧ deleteSession env_delete s w1 = Returned w2
    ∧ sessions w2 !! s = None
    ∧ let w3 := handleLogoutAndRegenerate_resume env_resume s (authPath sd) w2 in
      sessions w3 !! s = Some (fresh_session w (authPath sd))
      ∧ files w3 !! authPath sd = Some BlankCreds
      ∧ sockets_made w3 = S (sockets_made w).
Proof.
  intros Hs Hrm Hu Hm.
  rewrite (handleLogoutAndRegenerate_begin_registered env s w sd Hs).
  assert (Hcond : rmSync_throws env
                  && bool_decide (is_Some (files w !! authPath sd)) = false).
  { destruct Hrm as [->|Hn]; [done |]. rewrite Hn.
    rewrite bool_decide_eq_false_2 by (by intros [? ?]). apply andb_false_r. }
  rewrite Hcond.
  set (w1 := {| sessions := delete s (sessions w);
                files := delete (authPath sd) (files w);
                timers := timers w; sockets_made := sockets_made w |}).
  destruct (deleteSession_completes_shape env_delete s w1)
    as (w2 & Hret & Hs2 & Hn2 & Hf2).
  exists w1, w2. split; [done |]. split; [apply lookup_delete_eq |].
  split; [exact Hret |].
  assert (Hnone : sessions w2 !! s = None)
    by (rewrite Hs2; apply lookup_delete_eq).
  split; [exact Hnone |]. cbv zeta.
  unfold handleLogoutAndRegenerate_resume.
  rewrite (createSession_fresh env_resume s _ w2 Hnone Hu Hm).
  cbn [fst sessions files sockets_made].
  unfold fresh_session. rewrite lookup_insert_eq, Hn2.
  split; [done |]. split; [| done].
  destruct (files w2 !! authPath sd) as [c|] eqn:Hc; [| apply lookup_insert_eq].
  exfalso. apply Hf2 in Hc. cbn [files w1] in Hc.
  by rewrite lookup_delete_eq in Hc.
Qed.

(** The link-loss handler always leaves the session not connected. *)
Lemma close_disconnects env s (u : ConnectionUpdate) w :
  connection u = Some connection_close →
  isConnected s (on_connection_update env s u w) = false.
Proof.
  intros Hc. unfold isConnected, on_connection_update. rewrite Hc.
  set (w0 := if Js.truthy (qr u) then _ else w). clearbody w0.
  set (w1 := update_session s _ w0).
  assert (Hw1 : ∀ sd1, sessions w1 !! s = Some sd1 → connected sd1 = false).
  { intros sd1. unfold w1. simpl. rewrite lookup_alter_eq.
    destruct (sessions w0 !! s); [| done]. by intros [= <-]. }
  assert (Hreg : match sessions (handleLogoutAndRegenerate env s w1) !! s with
                 | Some sd1 => connected sd1
                 | None => false
                 end = false).
  { unfold handleLogoutAndRegenerate.
    pose proof (handleLogoutAndRegenerate_begin_sessions env s w1) as Hb.
    destruct (handleLogoutAndRegenerate_begin env s w1) as [w2 [p|]];
      cbn [fst] in Hb; cbn beta iota; [| by rewrite Hb, lookup_delete_eq].
    unfold handleLogoutAndRegenerate_resume, createSession, createSession_resume.
    rewrite Hb, lookup_delete_eq.
    destruct (useMultiFileAuthState_throws env);
      [by cbn [fst]; rewrite ?Hb, lookup_delete_eq |].
    destruct (makeWASocket_throws env); cbn [fst sessions];
      [by rewrite ?Hb, lookup_delete_eq | by rewrite lookup_insert_eq]. }
  destruct (sessions w0 !! s) as [sd|] eqn:Hs0; [| exact Hreg].
  destruct (negb _); [| exact Hreg].
  destruct (_ <? _)%nat; [| exact Hreg].
  simpl. rewrite lookup_alter_eq.
  destruct (alter _ s (sessions w0) !! s) as [sd1|] eqn:Hs1; [| done].
  simpl. apply (Hw1 sd1). exact Hs1.
Qed.

End RegistryInvariant.

Lemma regenerateQR_outcomes_witness :
  let w := Scenario.custom_S in
  (∃ w', Sessions.regenerateQR Sessions.logout_fails "S" w = (w', Returned ())
         ∧ Sessions.sessions w' = Sessions.sessions w
         ∧ Sessions.files w' !! "sessions/S" = None)
  ∧ (∃ w' e, Sessions.regenerateQR Sessions.makeWASocket_fails "S" w = (w', Threw e)
             ∧ Sessions.sessions w' !! "S" = None)
  ∧ (∃ w', Sessions.regenerateQR Sessions.no_faults "S" w = (w', Returned ())
           ∧ Sessions.sessions w' !! "S"
             = Some (Sessions.fresh_session w "sessions/S")
           ∧ Sessions.files w' !! "sessions/S" = Some Sessions.BlankCreds).
Proof.
  intros w.
  set (sd := {| Sessions.socket := 0; Sessions.connected := true;
                Sessions.reconnectAttempts := 0;
                Sessions.authPath := "sessions/S"; Sessions.qrCode := None |}).
  assert (Hs : Sessions.sessions w !! "S" = Some sd) by reflexivity.
  split; [| split].
  - destruct (regenerateQR_outcomes Sessions.logout_fails "S" w) as [Hkeep _].
    destruct (Hkeep sd Hs eq_refl) as (w' & Hr & Hs' & _ & Hf).
    exists w'. split; [exact Hr |]. split; [exact Hs' |].
    rewrite Hf; [apply lookup_delete_eq | discriminate | reflexivity].
  - destruct (regenerateQR_outcomes Sessions.makeWASocket_fails "S" w)
      as [_ Hgone].
    destruct (Hgone "sessions/S") as [_ Hthrow].
    { left. exists sd. split; [exact Hs |]. split; [reflexivity |].
      split; [discriminate | reflexivity]. }
    destruct Hthrow as (w' & e & Hr & Hs' & _); [by right |].
    exists w', e. split; [exact Hr |]. rewrite Hs'. apply lookup_delete_eq.
  - destruct (regenerateQR_outcomes Sessions.no_faults "S" w) as [_ Hnew].
    destruct (Hnew "sessions/S") as [Hok _].
    { left. exists sd. split; [exact Hs |]. split; [reflexivity |].
      split; [discriminate | reflexivity]. }
    destruct Hok as (w' & Hr & Hs' & _ & Hf & _); [reflexivity | reflexivity |].
    exists w'. split; [exact Hr |]. split.
    + rewrite Hs'. apply lookup_insert_eq.
    + rewrite Hf by (by left). apply lookup_insert_eq.
Defined.

Lemma delete_during_regeneration_is_undone_witness :
  let begun :=
    fst (Sessions.handleLogoutAndRegenerate_begin Sessions.no_faults "S"
           Scenario.custom_S) in
  let deleted :=
    Sessions.settled begun (Sessions.deleteSession Sessions.no_faults "S" begun) in
  Sessions.sessions deleted !! "S" = None
  ∧ Sessions.sessions
      (Sessions.handleLogoutAndRegenerate_resume Sessions.no_faults "S"
         "sessions/S" deleted) !! "S"
    = Some (Sessions.fresh_session Scenario.custom_S "sessions/S").
Proof.
  intros begun deleted.
  destruct (delete_during_regeneration_is_undone Sessions.no_faults
              Sessions.no_faults Sessions.no_faults "S" Scenario.custom_S
              {| Sessions.socket := 0; Sessions.connected := true;
                 Sessions.reconnectAttempts := 0;
                 Sessions.authPath := "sessions/S"; Sessions.qrCode := None |})
    as (w1 & w2 & Hb & _ & Hd & Hs2 & Hs3 & _).
  - reflexivity.
  - by left.
  - reflexivity.
  - reflexivity.
  - assert (Hbegun : begun = w1) by (unfold begun; by rewrite Hb).
    assert (Hdeleted : deleted = w2) by (unfold deleted; by rewrite Hbegun, Hd).
    rewrite Hdeleted. split; [exact Hs2 | exact Hs3].
Defined.

(** ** The scheduler and the poll: locks, pace and order *)

Section SchedulerFacts.
Import Orchestrator.

Implicit Types (st : State) (s : string) (cfg : QueueConfig) (env : TickEnv).

(** X15.  After a link loss on a session, whatever its cause and whatever
    the handler did about it, the scheduler sends nothing for that
    session: its tick returns the state unchanged, and the queued messages
    stay where they are. *)
Theorem nothing_is_sent_after_a_link_loss cfg env (fenv : Sessions.Faults) s
    (u : Sessions.ConnectionUpdate) st :
  Sessions.connection u = Some Sessions.connection_close →
  let st' := set_sessionManager
               (Sessions.on_connection_update fenv s u (sessionManager st)) st in
  processDripQueue cfg env s st' = st'.
Proof.
  intros Hc st'.
  pose proof (close_disconnects fenv s u (sessionManager st) Hc) as Hd.
  unfold processDripQueue, processDripQueue_begin.
  destruct (_ || _); [done |]. simpl. by rewrite Hd.
Qed.

Lemma nothing_is_sent_after_a_link_loss_witness :
  let st' := set_sessionManager
               (Sessions.on_connection_update Sessions.no_faults "S"
                  Sessions.link_lost_terminal (sessionManager Scenario.ready))
               Scenario.ready in
  Queue.queue_of "S" (messageQueue st') = [Scenario.A; Scenario.B; Scenario.C]
  ∧ processDripQueue config_queue (send_ok "x") "S" st' = st'.
Proof.
  intros st'. split; [vm_compute; reflexivity |].
  apply (nothing_is_sent_after_a_link_loss config_queue (send_ok "x")
           Sessions.no_faults "S" Sessions.link_lost_terminal Scenario.ready).
  reflexivity.
Defined.

Lemma held_insert (locks : gmap string bool) s s' (b : bool) :
  held (<[s := b]> locks) s' = if decide (s = s') then b else held locks s'.
Proof.
  unfold held. destruct (decide (s = s')) as [->|Hne].
  - by rewrite lookup_insert_eq.
  - by rewrite lookup_insert_ne.
Qed.

Lemma poll_loop_locks storage_throws s (messages : list Message) :
  ∀ st, pollingLocks (poll_loop storage_throws s messages st) = pollingLocks st
        ∧ sendingLocks (poll_loop storage_throws s messages st) = sendingLocks st
        ∧ sessionManager (poll_loop storage_throws s messages st)
          = sessionManager st.
Proof.
  induction messages as [|msg rest IH]; intros st; simpl; [done |].
  destruct (negb _).
  - destruct (storage_throws _); [done |]. by rewrite !(proj1 (IH _)),
      !(proj1 (proj2 (IH _))), !(proj2 (proj2 (IH _))).
  - destruct (IH (set_queue (Queue.enqueue (queuedMessage_of s msg)
                                           (messageQueue st)) st))
      as (-> & -> & ->). done.
Qed.

Lemma resume_locks cfg env s (f : InFlight) st :
  pollingLocks (processDripQueue_resume cfg env s f st) = pollingLocks st
  ∧ sendingLocks (processDripQueue_resume cfg env s f st)
    = <[s := false]> (sendingLocks st)
  ∧ sessionManager (processDripQueue_resume cfg env s f st) = sessionManager st.
Proof.
  unfold processDripQueue_resume, on_send_failure, notify.
  destruct (send_result env); [destruct (markMessageSent_error env) |];
    repeat (match goal with
            | |- context [if ?b then _ else _] => destruct b
            end); done.
Qed.

(** X16.  Every lock is left as it was found.  A poll and a tick that
    have run to their end, whatever the driver and storage answered,
    leave each polling lock and each sending lock held exactly when it
    was held before: the single-flight flags are always released, also on
    the paths that throw, and the registry is not touched. *)
Theorem locks_are_released cfg env (storage_throws : string → bool)
    (messages : list Message) s st :
  let polled := pollSupabaseForMessages storage_throws messages s st in
  let ticked := processDripQueue cfg env s st in
  (∀ s', held (pollingLocks polled) s' = held (pollingLocks st) s'
         ∧ held (sendingLocks polled) s' = held (sendingLocks st) s')
  ∧ (∀ s', held (pollingLocks ticked) s' = held (pollingLocks st) s'
           ∧ held (sendingLocks ticked) s' = held (sendingLocks st) s')
  ∧ sessionManager polled = sessionManager st
  ∧ sessionManager ticked = sessionManager st.
Proof.
  intros polled ticked.
  assert (Hpoll : (∀ s', held (pollingLocks polled) s' = held (pollingLocks st) s'
                         ∧ held (sendingLocks polled) s' = held (sendingLocks st) s')
                  ∧ sessionManager polled = sessionManager st).
  { unfold polled, pollSupabaseForMessages.
    destruct (held (pollingLocks st) s) eqn:Hh; [done |].
    destruct (poll_loop_locks storage_throws s messages (set_polling s true st))
      as (Hp & Hs & Hm).
    split; [| simpl; by rewrite Hm]. intros s'. simpl. rewrite Hp, Hs. simpl.
    split; [| done]. rewrite !held_insert.
    destruct (decide (s = s')) as [<-|?]; done. }
  assert (Htick : (∀ s', held (pollingLocks ticked) s' = held (pollingLocks st) s'
                         ∧ held (sendingLocks ticked) s' = held (sendingLocks st) s')
                  ∧ sessionManager ticked = sessionManager st).
  { unfold ticked, processDripQueue, processDripQueue_begin.
    destruct (held (sendingLocks st) s) eqn:Hh; [done |]. simpl.
    destruct (Queue.isEmpty _ _); [done |].
    destruct (negb _); [done |].
    assert (Hfalse : ∀ (locks : gmap string bool) s',
              locks = sendingLocks st →
              held (<[s := false]> (<[s := true]> locks)) s' = held locks s').
    { intros locks s' ->. rewrite !held_insert.
      destruct (decide (s = s')) as [<-|?]; done. }
    destruct (Queue.dequeue _ _) as [[m|] q'].
    - destruct (negb (Js.truthy _)).
      + simpl. split; [| done]. intros s'. split; [done |]. by apply Hfalse.
      + simpl. destruct (Sessions.getSocket _ _) as [socket|].
        * match goal with
          | |- context [processDripQueue_resume cfg env s ?f ?st0] =>
              destruct (resume_locks cfg env s f st0) as (-> & -> & ->)
          end.
          simpl. split; [| done]. intros s'. split; [done |].
          rewrite held_insert. destruct (decide (s = s')) as [<-|?]; [done |].
          by rewrite held_insert, decide_False.
        * simpl. split; [| done]. intros s'. split; [done |]. by apply Hfalse.
    - simpl. split; [| done]. intros s'. split; [done |]. by apply Hfalse. }
  destruct Hpoll as [Hp1 Hp2], Htick as [Ht1 Ht2]. done.
Qed.

End SchedulerFacts.

Section SchedulerPace.
Import Orchestrator.

Implicit Types (st : State) (s : string) (cfg : QueueConfig) (env : TickEnv).

Lemma attempted_app (l1 l2 : list Effect) :
  attempted (l1 ++ l2) = attempted l1 ++ attempted l2.
Proof. unfold attempted. apply omap_app. Qed.

Lemma sent_ids_app (l1 l2 : list Effect) :
  sent_ids (l1 ++ l2) = sent_ids l1 ++ sent_ids l2.
Proof. unfold sent_ids. apply omap_app. Qed.

(** After the send has settled, the tick hands nothing more to the driver
    and leaves the queue as the dequeue left it. *)
Lemma resume_queue_and_sends cfg env s (f : InFlight) st :
  qm_id (if_message f) ∈ Queue.processedIds (messageQueue st) →
  messageQueue (processDripQueue_resume cfg env s f st) = messageQueue st
  ∧ attempted (effects (processDripQueue_resume cfg env s f st))
    = attempted (effects st).
Proof.
  intros Hp. unfold processDripQueue_resume, on_send_failure, notify.
  destruct (send_result env); [destruct (markMessageSent_error env) |];
    repeat (match goal with
            | |- context [if ?b then _ else _] => destruct b
            end);
    simpl; rewrite ?enqueue_processed by done;
    rewrite ?attempted_app; simpl; rewrite ?app_nil_r; done.
Qed.

(** X17.  One tick, one message at most.  Whatever the state and the
    outcomes, a tick hands at most one message to the driver, and it
    leaves the queues either untouched or as a single [dequeue] on its own
    session leaves them. *)
Theorem tick_sends_at_most_one cfg env s st :
  let st' := processDripQueue cfg env s st in
  (∃ l, attempted (effects st') = attempted (effects st) ++ l
        ∧ (length l ≤ 1)%nat)
  ∧ (messageQueue st' = messageQueue st
     ∨ messageQueue st' = snd (Queue.dequeue s (messageQueue st))).
Proof.
  intros st'. unfold st', processDripQueue.
  destruct (processDripQueue_begin s st) as [st1 o] eqn:Hb.
  destruct o as [f|].
  - pose proof (begin_in_flight s st st1 f Hb) as (Hd & Hp & _).
    destruct (resume_queue_and_sends cfg env s f st1 Hp) as [-> ->].
    rewrite Hd. split; [| by right].
    revert Hb. unfold processDripQueue_begin.
    destruct (_ || _); [done |]. destruct (negb _); [done |]. simpl.
    destruct (Queue.dequeue s (messageQueue st)) as [[m|] q']; [| done].
    destruct (negb (Js.truthy _)); [done |].
    destruct (Sessions.getSocket _ _); [| done].
    intros [= <- _]. simpl. rewrite attempted_app. simpl.
    eexists. split; [reflexivity |]. simpl. lia.
  - revert Hb. unfold processDripQueue_begin.
    destruct (_ || _); [intros [= <-]; split; [exists []; rewrite app_nil_r; split; [done | simpl; lia] | by left] |].
    destruct (negb _); [intros [= <-]; split; [exists []; rewrite app_nil_r; split; [done | simpl; lia] | by left] |].
    simpl.
    destruct (Queue.dequeue s (messageQueue st)) as [[m|] q'] eqn:Hd.
    + destruct (negb (Js.truthy _)).
      * intros [= <-]. simpl. split; [| by right].
        exists []. rewrite attempted_app. simpl. split; [done | lia].
      * destruct (Sessions.getSocket _ _); [done |].
        intros [= <-]. simpl. split; [| by right].
        exists []. rewrite app_nil_r. split; [done | simpl; lia].
    + intros [= <-]. simpl. split; [exists []; rewrite app_nil_r; split; [done | simpl; lia] | by left].
Qed.

(** The successful tick, step by step. *)
Lemma tick_success cfg env s st (m : QueuedMessage)
    (rest : list QueuedMessage) (jid : string) :
  held (sendingLocks st) s = false →
  Sessions.isConnected s (sessionManager st) = true →
  Queue.queue_of s (messageQueue st) = m :: rest →
  Js.truthy (Js.or (qm_jid m) (qm_phoneNumber m)) = true →
  send_result env = SendResolves jid →
  markMessageSent_error env = None →
  let st' := processDripQueue cfg env s st in
  ∃ socket recipient,
    Sessions.getSocket s (sessionManager st) = Some socket
    ∧ Js.or (qm_jid m) (qm_phoneNumber m) = Some recipient
    ∧ attempted (effects st')
      = attempted (effects st) ++ [(recipient, qm_message m)]
    ∧ (∃ l, effects st'
            = effects st
              ++ [SendMessage s socket recipient (qm_message m);
                  MarkMessageSent (qm_id m) jid] ++ l
            ∧ sent_ids l = [] ∧ failed_ids l = [])
    ∧ Queue.queue_of s (messageQueue st') = rest
    ∧ held (sendingLocks st') s = false
    ∧ Sessions.isConnected s (sessionManager st') = true.
Proof.
  intros Hheld Hconn Hq Hrec Hsend Hmark st'.
  assert (Hsock : ∃ socket, Sessions.getSocket s (sessionManager st) = Some socket).
  { unfold Sessions.isConnected, Sessions.getSocket in *.
    destruct (Sessions.sessions (sessionManager st) !! s); [simpl; eauto | done]. }
  destruct Hsock as [socket Hsock].
  assert (Hr : ∃ recipient, Js.or (qm_jid m) (qm_phoneNumber m) = Some recipient).
  { destruct (Js.or _ _); [eauto | done]. }
  destruct Hr as [recipient Hr].
  assert (Hne : Queue.isEmpty s (messageQueue st) = false).
  { destruct (Queue.isEmpty s (messageQueue st)) eqn:He; [| done].
    apply isEmpty_queue_of in He. congruence. }
  assert (Hd : ∃ q', Queue.dequeue s (messageQueue st) = (Some m, q')
                     ∧ Queue.queue_of s q' = rest).
  { destruct (Queue.dequeue s (messageQueue st)) as [[m0|] q'] eqn:Hd.
    - apply dequeue_Some in Hd as (Hq' & _). rewrite Hq in Hq'.
      injection Hq' as Hm Hrest. exists q'. by rewrite Hm, Hrest.
    - assert (Hn : fst (Queue.dequeue s (messageQueue st)) = None)
        by (by rewrite Hd).
      apply dequeue_None_iff in Hn. congruence. }
  destruct Hd as (q' & Hd & Hq').
  exists socket, recipient.
  unfold st', processDripQueue, processDripQueue_begin.
  rewrite Hheld, Hne, Hconn. simpl. rewrite Hd. simpl.
  rewrite Hrec, Hsock, Hr. simpl.
  unfold processDripQueue_resume. simpl. rewrite Hsend, Hmark. unfold notify.
  split; [done |]. split; [done |].
  destruct (_ && _); simpl; rewrite ?attempted_app; simpl;
    rewrite ?held_insert, ?decide_True by done;
    (split; [by rewrite ?app_nil_r |]);
    (split; [eexists; split; [by rewrite <- !app_assoc | done] |]);
    done.
Qed.

(** X18.  A tick whose send and storage update succeed, on a connected
    session with the lock free: the message sent is the head of the
    session's queue, to [jid || phoneNumber] on the session's socket; the
    record is marked sent with the jid that the driver returned and is not
    marked failed; the head is gone from the queue and the lock is free
    again. *)
Theorem tick_sends_the_head cfg env s st (m : QueuedMessage)
    (rest : list QueuedMessage) (jid : string) :
  held (sendingLocks st) s = false →
  Sessions.isConnected s (sessionManager st) = true →
  Queue.queue_of s (messageQueue st) = m :: rest →
  Js.truthy (Js.or (qm_jid m) (qm_phoneNumber m)) = true →
  send_result env = SendResolves jid →
  markMessageSent_error env = None →
  let st' := processDripQueue cfg env s st in
  ∃ socket recipient,
    Sessions.getSocket s (sessionManager st) = Some socket
    ∧ Js.or (qm_jid m) (qm_phoneNumber m) = Some recipient
    ∧ attempted (effects st')
      = attempted (effects st) ++ [(recipient, qm_message m)]
    ∧ (∃ l, effects st'
            = effects st
              ++ [SendMessage s socket recipient (qm_message m);
                  MarkMessageSent (qm_id m) jid] ++ l
            ∧ sent_ids l = [] ∧ failed_ids l = [])
    ∧ Queue.queue_of s (messageQueue st') = rest
    ∧ held (sendingLocks st') s = false
    ∧ Sessions.isConnected s (sessionManager st') = true.
Proof.
  intros Hheld Hconn Hq Hrec Hsend Hmark st'.
  destruct (tick_success cfg env s st m rest jid Hheld Hconn Hq Hrec Hsend Hmark)
    as (socket & recipient & Hsock & Hr & Hatt & Heff & Hrest & Hlock & Hc).
  exists socket, recipient. by repeat (split; [done |]).
Qed.

Lemma tick_sends_the_head_witness :
  let st' := processDripQueue config_queue (send_ok "391234567890@s.whatsapp.net")
               "S" Scenario.ready in
  attempted (effects st') = [("391234567890", "hello A")]
  ∧ Queue.queue_of "S" (messageQueue st') = [Scenario.B; Scenario.C].
Proof.
  intros st'.
  destruct (tick_sends_the_head config_queue
              (send_ok "391234567890@s.whatsapp.net") "S" Scenario.ready
              Scenario.A [Scenario.B; Scenario.C] "391234567890@s.whatsapp.net")
    as (socket & recipient & _ & Hr & Hatt & _ & Hrest & _);
    try reflexivity.
  injection Hr as <-. split; [exact Hatt | exact Hrest].
Defined.

(** [n] successful ticks on a queue of [n] messages. *)
Lemma ticks_success cfg s (ms : list QueuedMessage) :
  ∀ (envs : list TickEnv) st,
    held (sendingLocks st) s = false →
    Sessions.isConnected s (sessionManager st) = true →
    Queue.queue_of s (messageQueue st) = ms →
    Forall (λ m, Js.truthy (Js.or (qm_jid m) (qm_phoneNumber m)) = true) ms →
    Forall succeeds envs →
    length envs = length ms →
    let st' := ticks cfg envs s st in
    sent_ids (effects st') = sent_ids (effects st) ++ (qm_id <$> ms)
    ∧ attempted (effects st')
      = attempted (effects st)
        ++ ((λ m, (default "" (Js.or (qm_jid m) (qm_phoneNumber m)),
                   qm_message m)) <$> ms)
    ∧ Queue.queue_of s (messageQueue st') = [].
Proof.
  unfold ticks.
  induction ms as [|m ms IH]; intros envs st Hheld Hconn Hq Hrec Henvs Hlen.
  - destruct envs; [| done]. simpl. by rewrite !app_nil_r.
  - destruct envs as [|env envs]; [done |].
    apply Forall_cons in Hrec as [Hm Hrec].
    apply Forall_cons in Henvs as [[[jid Hsend] Hmark] Henvs].
    destruct (tick_success cfg env s st m ms jid Hheld Hconn Hq Hm Hsend Hmark)
      as (socket & recipient & _ & Hr & Hatt & (l & Heff & Hl & _) & Hrest & Hlock & Hc).
    simpl.
    destruct (IH envs (processDripQueue cfg env s st) Hlock Hc Hrest Hrec Henvs)
      as (Hs & Ha & He); [by injection Hlen |].
    rewrite Hs, Ha, He, Hatt, Heff, Hr.
    rewrite !sent_ids_app. simpl. rewrite Hl.
    by rewrite <- !app_assoc.
Qed.

(** X19.  Delivery in order of arrival.  On a connected session with the
    lock free, as many successful ticks as there are messages waiting send
    them in queue order, each exactly once, mark them sent in that order
    and leave the queue empty. *)
Theorem ticks_deliver_in_order cfg s (ms : list QueuedMessage)
    (envs : list TickEnv) st :
  held (sendingLocks st) s = false →
  Sessions.isConnected s (sessionManager st) = true →
  Queue.queue_of s (messageQueue st) = ms →
  Forall (λ m, Js.truthy (Js.or (qm_jid m) (qm_phoneNumber m)) = true) ms →
  Forall succeeds envs →
  length envs = length ms →
  let st' := ticks cfg envs s st in
  sent_ids (effects st') = sent_ids (effects st) ++ (qm_id <$> ms)
  ∧ length (attempted (effects st'))
    = (length (attempted (effects st)) + length ms)%nat
  ∧ Queue.queue_of s (messageQueue st') = [].
Proof.
  intros Hheld Hconn Hq Hrec Henvs Hlen st'.
  destruct (ticks_success cfg s ms envs st Hheld Hconn Hq Hrec Henvs Hlen)
    as (Hs & Ha & He).
  split; [exact Hs |]. split; [| exact He].
  unfold st'. by rewrite Ha, length_app, length_fmap.
Qed.

Lemma ticks_deliver_in_order_witness :
  let ok := send_ok "391234567890@s.whatsapp.net" in
  sent_ids (effects (ticks config_queue [ok; ok; ok] "S" Scenario.ready))
  = ["A"; "B"; "C"].
Proof.
  intros ok.
  assert (Hrec : Forall (λ m, Js.truthy (Js.or (qm_jid m) (qm_phoneNumber m)) = true)
                        [Scenario.A; Scenario.B; Scenario.C])
    by (repeat constructor).
  assert (Henvs : Forall succeeds [ok; ok; ok])
    by (repeat constructor; eexists; reflexivity).
  exact (proj1 (ticks_deliver_in_order config_queue "S"
                  [Scenario.A; Scenario.B; Scenario.C] [ok; ok; ok]
                  Scenario.ready eq_refl eq_refl eq_refl Hrec Henvs eq_refl)).
Defined.

End SchedulerPace.

Section PollFacts.
Import Orchestrator.

Implicit Types (st : State) (s : string) (q : Queue.MessageQueue).

(** What a poll does to the queue: [enqueue] on the admitted records. *)
Lemma poll_loop_queue storage_throws s (messages : list Message) :
  ∀ st, messageQueue (poll_loop storage_throws s messages st)
        = Queue.enqueue_all (queuedMessage_of s <$> admitted storage_throws messages)
                            (messageQueue st).
Proof.
  unfold Queue.enqueue_all.
  induction messages as [|msg rest IH]; intros st; simpl; [done |].
  fold (has_recipient msg). destruct (has_recipient msg); simpl.
  - by rewrite IH.
  - destruct (storage_throws (msg_id msg)); [done |]. by rewrite IH.
Qed.

Lemma enqueue_refused (m : QueuedMessage) q :
  Queue.refused m q → Queue.enqueue m q = q.
Proof. intros [?|?]; [by apply enqueue_processed | by apply enqueue_present]. Qed.

Lemma enqueue_makes_refused (m : QueuedMessage) q :
  Queue.refused m (Queue.enqueue m q).
Proof.
  destruct (decide (qm_id m ∈ Queue.processedIds q)) as [Hp|Hp].
  - rewrite enqueue_processed by done. by left.
  - destruct (decide (qm_id m ∈ qm_id <$> Queue.queue_of (Queue.session_of m) q))
      as [Hin|Hin].
    + rewrite enqueue_present by done. by right.
    + destruct (enqueue_fresh m q Hp Hin) as (Hq & _). right.
      rewrite Hq, fmap_app. apply elem_of_app. right. simpl.
      apply list_elem_of_singleton. done.
Qed.

Lemma enqueue_keeps_refused (m m' : QueuedMessage) q :
  Queue.refused m q → Queue.refused m (Queue.enqueue m' q).
Proof.
  intros Hr.
  destruct (decide (qm_id m' ∈ Queue.processedIds q)) as [Hp|Hp];
    [by rewrite enqueue_processed |].
  destruct (decide (qm_id m' ∈ qm_id <$> Queue.queue_of (Queue.session_of m') q))
    as [Hin|Hin]; [by rewrite enqueue_present |].
  destruct (enqueue_fresh m' q Hp Hin) as (Hq & Hp' & Hother).
  destruct Hr as [?|Hr]; [left; by rewrite Hp' |]. right.
  destruct (decide (Queue.session_of m = Queue.session_of m')) as [Heq|Hne].
  - rewrite Heq, Hq, fmap_app. apply elem_of_app. left. by rewrite <- Heq.
  - by rewrite Hother.
Qed.

Lemma enqueue_all_refused (ms : list QueuedMessage) :
  ∀ q, (∀ m, m ∈ ms → Queue.refused m q) → Queue.enqueue_all ms q = q.
Proof.
  unfold Queue.enqueue_all.
  induction ms as [|m ms IH]; intros q Hall; simpl; [done |].
  rewrite enqueue_refused by (apply Hall, elem_of_cons; auto).
  apply IH. intros m' Hm'. apply Hall, elem_of_cons. auto.
Qed.

Lemma enqueue_all_makes_refused (ms : list QueuedMessage) :
  ∀ q m, m ∈ ms ∨ Queue.refused m q → Queue.refused m (Queue.enqueue_all ms q).
Proof.
  unfold Queue.enqueue_all.
  induction ms as [|m0 ms IH]; intros q m; simpl.
  - intros [Hm|?]; [by apply elem_of_nil in Hm | done].
  - intros [[->|Hm]%elem_of_cons|Hr]; apply IH; auto.
    + right. apply enqueue_makes_refused.
    + right. by apply enqueue_keeps_refused.
Qed.

Lemma admitted_recipient storage_throws (messages : list Message) (m : Message) :
  m ∈ admitted storage_throws messages → m ∈ messages ∧ has_recipient m = true.
Proof.
  induction messages as [|m0 rest IH]; simpl; [by intros ?%elem_of_nil |].
  destruct (has_recipient m0) eqn:Hr.
  - intros [->|Hm]%elem_of_cons; [split; [apply elem_of_cons; auto | done] |].
    destruct (IH Hm). split; [apply elem_of_cons; auto | done].
  - destruct (storage_throws (msg_id m0)); [by intros ?%elem_of_nil |].
    intros Hm. destruct (IH Hm). split; [apply elem_of_cons; auto | done].
Qed.

(** A poll in which no update is rejected admits every record that has a
    recipient. *)
Lemma admitted_all storage_throws (messages : list Message) :
  (∀ m, m ∈ messages → has_recipient m = false →
        storage_throws (msg_id m) = false) →
  ∀ m, m ∈ messages → has_recipient m = true →
       m ∈ admitted storage_throws messages.
Proof.
  induction messages as [|m0 rest IH]; intros Hok m; simpl;
    [by intros ?%elem_of_nil |].
  assert (Hrest : ∀ m, m ∈ rest → has_recipient m = false →
                       storage_throws (msg_id m) = false)
    by (intros m' Hm'; apply Hok, elem_of_cons; auto).
  intros [->|Hm]%elem_of_cons Hr.
  - rewrite Hr. apply elem_of_cons. auto.
  - destruct (has_recipient m0) eqn:Hr0.
    + apply elem_of_cons. right. by apply IH.
    + rewrite (Hok m0) by (done || apply elem_of_cons; auto). by apply IH.
Qed.

(** X20.  Polling again does not enqueue a record twice.  The queue after
    a poll is the queue before it with [enqueue] applied, in the order of
    the records, to the records with a recipient that the loop got to.  A
    later poll, whatever storage answers to it, leaves every queue and the
    processed set as they are when every record with a recipient that it
    finds was admitted by the first poll: so when it finds the same
    records again and no update of the first poll was rejected. *)
Theorem poll_again_adds_nothing (storage_throws storage_throws' : string → bool)
    (messages messages' : list Message) s st :
  held (pollingLocks st) s = false →
  let once := pollSupabaseForMessages storage_throws messages s st in
  messageQueue once
  = Queue.enqueue_all (queuedMessage_of s <$> admitted storage_throws messages)
                      (messageQueue st)
  ∧ ((∀ m, m ∈ messages' → has_recipient m = true →
           m ∈ admitted storage_throws messages) →
     messageQueue (pollSupabaseForMessages storage_throws' messages' s once)
     = messageQueue once)
  ∧ ((∀ m, m ∈ messages → has_recipient m = false →
           storage_throws (msg_id m) = false) →
     messageQueue (pollSupabaseForMessages storage_throws' messages s once)
     = messageQueue once).
Proof.
  intros Hheld once.
  assert (Hq : ∀ st0 f ms, held (pollingLocks st0) s = false →
            messageQueue (pollSupabaseForMessages f ms s st0)
            = Queue.enqueue_all (queuedMessage_of s <$> admitted f ms)
                                (messageQueue st0)).
  { intros st0 f ms H0. unfold pollSupabaseForMessages. rewrite H0. simpl.
    by rewrite poll_loop_queue. }
  assert (Hlock : held (pollingLocks once) s = false).
  { unfold once, pollSupabaseForMessages. rewrite Hheld. simpl.
    by rewrite held_insert, decide_True. }
  assert (Hagain : ∀ ms,
            (∀ m, m ∈ ms → has_recipient m = true →
                  m ∈ admitted storage_throws messages) →
            messageQueue (pollSupabaseForMessages storage_throws' ms s once)
            = messageQueue once).
  { intros ms Hsub. rewrite (Hq once _ _ Hlock). apply enqueue_all_refused.
    intros qm (m & -> & Hm)%list_elem_of_fmap.
    apply admitted_recipient in Hm as [Hm Hr].
    unfold once. rewrite (Hq st _ _ Hheld).
    apply enqueue_all_makes_refused. left.
    apply list_elem_of_fmap. exists m. split; [done |]. by apply Hsub. }
  split; [by apply Hq |]. split; [apply Hagain |].
  intros Hok. apply Hagain. by apply admitted_all.
Qed.

Lemma poll_again_adds_nothing_witness :
  let messages := [Scenario.stored "A"; Scenario.no_recipient "X";
                   Scenario.stored "B"] in
  let once := pollSupabaseForMessages (λ _, false) messages "S" Scenario.started in
  Queue.queue_of "S" (messageQueue once) = [Scenario.A; Scenario.B]
  ∧ messageQueue (pollSupabaseForMessages (λ i, String.eqb i "X") messages "S" once)
    = messageQueue once.
Proof.
  intros messages once. split; [vm_compute; reflexivity |].
  destruct (poll_again_adds_nothing (λ _, false) (λ i, String.eqb i "X")
              messages messages "S" Scenario.started) as (_ & _ & H).
  - reflexivity.
  - apply H. reflexivity.
Defined.

End PollFacts.

(** ** Recipients: from phone number to jid and back *)

Section RecipientFacts.
Import Recipient.
Import Stdlib.Strings.Ascii.

Variable isPnUser : string → bool.

Lemma includes_char_app (c : ascii) (s1 s2 : string) :
  includes_char c (s1 +:+ s2) = includes_char c s1 || includes_char c s2.
Proof.
  induction s1 as [|c1 s1 IH]; simpl; [done |].
  by rewrite IH, orb_assoc.
Qed.

Lemma remove_first_cons (c : ascii) (s : string) :
  Ascii.eqb c "@" = false →
  remove_first pn_suffix (String c s) = String c (remove_first pn_suffix s).
Proof.
  intros Hc. rewrite Ascii.eqb_sym in Hc.
  change (remove_first pn_suffix (String c s))
    with (match strip_prefix pn_suffix (String c s) with
          | Some rest => rest
          | None => String c (remove_first pn_suffix s)
          end).
  change (strip_prefix pn_suffix (String c s))
    with (if Ascii.eqb "@" c then strip_prefix "s.whatsapp.net" s else None).
  by rewrite Hc.
Qed.

Lemma remove_first_pn_suffix (phone : string) :
  includes_char "@" phone = false →
  remove_first pn_suffix (phone +:+ pn_suffix) = phone.
Proof.
  induction phone as [|c phone IH]; [done |].
  cbn [includes_char]. intros [Hc Hrest]%orb_false_iff.
  change (String c phone +:+ pn_suffix) with (String c (phone +:+ pn_suffix)).
  rewrite remove_first_cons by done. by rewrite IH.
Qed.

(** X21.  A phone number survives the trip through the jid.  The
    formatting step of [sendMessage] turns a recipient without [@] into
    [<recipient>@s.whatsapp.net], and on a driver whose [isPnUser] accepts
    such jids, the phone number extracted from that jid, as done for an
    incoming message, is the recipient again.  [sendMessage] sends to that
    jid and reports it when [getLIDForPN] yields no LID for it; when it
    returns a non-empty LID, the message goes to the LID and the LID is
    what is reported. *)
Theorem phone_number_round_trip (lookup : string → LidLookup) (phone : string) :
  (∀ p, isPnUser (p +:+ pn_suffix) = true) →
  includes_char "@" phone = false →
  target_jid phone = phone +:+ pn_suffix
  ∧ extractPhoneNumber isPnUser (target_jid phone) = Some phone
  ∧ ((∀ lid, lookup (phone +:+ pn_suffix) = LookupReturns lid →
             Js.truthy lid = false) →
     ∀ socket message,
       sendMessage isPnUser (Some socket) lookup None phone message
       = Returned (true, phone +:+ pn_suffix))
  ∧ (∀ lid, lookup (phone +:+ pn_suffix) = LookupReturns (Some lid) →
            lid ≠ "" →
            ∀ socket message,
              sendMessage isPnUser (Some socket) lookup None phone message
              = Returned (true, lid)).
Proof.
  intros Hpn Hat.
  assert (Ht : target_jid phone = phone +:+ pn_suffix)
    by (unfold target_jid; by rewrite Hat).
  split; [done |]. split; [| split].
  - unfold extractPhoneNumber. by rewrite Ht, Hpn, remove_first_pn_suffix.
  - intros Hnone socket message. unfold sendMessage, resolveRecipient.
    rewrite Ht, Hpn.
    destruct (lookup _) as [| |lid] eqn:Hl; [done | done |].
    by rewrite (Hnone lid).
  - intros lid Hl Hne socket message. unfold sendMessage, resolveRecipient.
    rewrite Ht, Hpn, Hl. apply truthy_Some_nonempty in Hne. by rewrite Hne.
Qed.

(** X22.  Where a message goes.  The formatting step gives a jid that
    contains an [@] and leaves a recipient that already has one as it is.
    The jid that [sendMessage] and the media senders address is that
    formatted jid, or the non-empty LID that [getLIDForPN] has returned
    for it when it is a phone-number jid: in every other case (no
    repository, a lookup that throws, nothing found) the formatted jid is
    used.  So the addressed jid contains an [@] when the LIDs of the
    repository do.  [sendMessage] never reports a failure as a result:
    when it returns, it reports success with the jid it sent to; without
    a socket, or when the driver rejects, it throws. *)
Theorem resolveRecipient_target (lookup : string → LidLookup) (recipient : string) :
  includes_char "@" (target_jid recipient) = true
  ∧ target_jid (target_jid recipient) = target_jid recipient
  ∧ (includes_char "@" recipient = true → target_jid recipient = recipient)
  ∧ (resolveRecipient isPnUser lookup recipient = target_jid recipient
     ∨ ∃ lid, isPnUser (target_jid recipient) = true
              ∧ lookup (target_jid recipient) = LookupReturns (Some lid)
              ∧ lid ≠ ""
              ∧ resolveRecipient isPnUser lookup recipient = lid)
  ∧ (isPnUser (target_jid recipient) = false →
     resolveRecipient isPnUser lookup recipient = target_jid recipient)
  ∧ ((∀ lid, lookup (target_jid recipient) = LookupReturns lid →
             Js.truthy lid = false) →
     resolveRecipient isPnUser lookup recipient = target_jid recipient)
  ∧ (∀ lid, isPnUser (target_jid recipient) = true →
            lookup (target_jid recipient) = LookupReturns (Some lid) →
            lid ≠ "" →
            resolveRecipient isPnUser lookup recipient = lid)
  ∧ ((∀ lid, lookup (target_jid recipient) = LookupReturns (Some lid) →
             includes_char "@" lid = true) →
     includes_char "@" (resolveRecipient isPnUser lookup recipient) = true)
  ∧ (∀ socket driver_error message ok jid,
       sendMessage isPnUser socket lookup driver_error recipient message
       = Returned (ok, jid) →
       ok = true ∧ jid = resolveRecipient isPnUser lookup recipient
       ∧ is_Some socket ∧ driver_error = None).
Proof.
  assert (Hat : includes_char "@" (target_jid recipient) = true).
  { unfold target_jid. destruct (includes_char "@" recipient) eqn:H; [done |].
    rewrite includes_char_app. by rewrite orb_true_r. }
  assert (Hcases : resolveRecipient isPnUser lookup recipient = target_jid recipient
                   ∨ ∃ lid, isPnUser (target_jid recipient) = true
                            ∧ lookup (target_jid recipient) = LookupReturns (Some lid)
                            ∧ lid ≠ ""
                            ∧ resolveRecipient isPnUser lookup recipient = lid).
  { unfold resolveRecipient.
    destruct (isPnUser (target_jid recipient)) eqn:Hpn; [| by left].
    destruct (lookup (target_jid recipient)) as [| |[lid|]] eqn:Hl;
      [by left | by left | | by left].
    destruct (Js.truthy (Some lid)) eqn:Htruthy; [| by left].
    right. exists lid. split; [done |]. split; [done |]. split; [| done].
    intros ->. discriminate Htruthy. }
  split; [done |].
  split; [| split; [| split; [done | split; [| split; [| split; [| split]]]]]].
  - unfold target_jid at 1. by rewrite Hat.
  - intros H. unfold target_jid. by rewrite H.
  - intros Hpn. unfold resolveRecipient. by rewrite Hpn.
  - intros Hnone. unfold resolveRecipient.
    destruct (isPnUser _); [| done].
    destruct (lookup _) as [| |lid] eqn:Hl; [done | done |].
    by rewrite (Hnone lid).
  - intros lid Hpn Hl Hne. unfold resolveRecipient. rewrite Hpn, Hl.
    apply truthy_Some_nonempty in Hne. by rewrite Hne.
  - intros Hlids. destruct Hcases as [->|(lid & _ & Hl & _ & ->)]; [done |].
    by apply Hlids.
  - intros socket driver_error message ok jid. unfold sendMessage.
    destruct socket as [sock|]; [| done].
    destruct driver_error as [e|]; [done |].
    intros [= <- <-]. eauto.
Qed.

End RecipientFacts.

Lemma phone_number_round_trip_witness :
  let isPnUser := Recipient.ends_with Recipient.pn_suffix in
  let found (jid : string) := Recipient.LookupReturns (Some "555@lid") in
  Recipient.extractPhoneNumber isPnUser (Recipient.target_jid "391234567890")
  = Some "391234567890"
  ∧ Recipient.sendMessage isPnUser (Some 0) (λ _, Recipient.NoRepository) None
      "391234567890" "hello"
    = Returned (true, "391234567890@s.whatsapp.net")
  ∧ Recipient.sendMessage isPnUser (Some 0) found None "391234567890" "hello"
    = Returned (true, "555@lid").
Proof.
  intros isPnUser found.
  assert (Hpn : ∀ p, isPnUser (p +:+ Recipient.pn_suffix) = true).
  { intros p. induction p as [|c p IH]; [reflexivity |].
    change (isPnUser (String c p +:+ Recipient.pn_suffix))
      with (String.eqb (String c (p +:+ Recipient.pn_suffix)) Recipient.pn_suffix
            || Recipient.ends_with Recipient.pn_suffix (p +:+ Recipient.pn_suffix)).
    fold isPnUser. rewrite IH. apply orb_true_r. }
  destruct (phone_number_round_trip isPnUser (λ _, Recipient.NoRepository)
              "391234567890" Hpn eq_refl) as (_ & Hback & Hsend & _).
  destruct (phone_number_round_trip isPnUser found
              "391234567890" Hpn eq_refl) as (_ & _ & _ & Hlid).
  split; [exact Hback |]. split.
  - apply Hsend. intros lid Hl. discriminate Hl.
  - apply (Hlid "555@lid"); [reflexivity | discriminate].
Defined.

(** ** File names of received media *)

Section MediaFacts.
Import Media.

Lemma allowed_fixed (u : N) :
  allowed (if allowed u then u else 95%N) = true.
Proof. destruct (allowed u) eqn:Hu; [done | reflexivity]. Qed.

Lemma sanitized_is_dot (u : N) :
  ((if allowed u then u else 95) =? 46)%N = (u =? 46)%N.
Proof.
  destruct (allowed u) eqn:Hu; [done |].
  destruct (N.eqb_spec u 46) as [->|Hne]; [by vm_compute in Hu | done].
Qed.

Lemma sanitized_not_unit (u v : N) :
  allowed v = false → (v =? (if allowed u then u else 95))%N = false.
Proof.
  intros Hv. apply N.eqb_neq. intros ->. by rewrite allowed_fixed in Hv.
Qed.

Lemma sanitize_cons (u : N) (l : list N) :
  sanitize (u :: l) = (if allowed u then u else 95%N) :: sanitize l.
Proof. reflexivity. Qed.

(** X23.  The name under which received media is saved has the length of
    the original name, consists of letters, digits, [.], [_] and [-] only,
    and sanitizing it again changes nothing.  It never contains [/] or
    [\\]; the [/files] endpoint refuses it exactly when the original name
    contains two dots in a row, which the sanitizer keeps. *)
Theorem sanitized_file_name (fileName : list N) :
  length (sanitize fileName) = length fileName
  ∧ forallb allowed (sanitize fileName) = true
  ∧ sanitize (sanitize fileName) = sanitize fileName
  ∧ includes_unit 47 (sanitize fileName) = false
  ∧ includes_unit 92 (sanitize fileName) = false
  ∧ invalid_file_name (sanitize fileName) = includes_dotdot fileName.
Proof.
  assert (Hall : forallb allowed (sanitize fileName) = true).
  { induction fileName as [|u l IH]; [done |].
    rewrite sanitize_cons. cbn [forallb]. by rewrite allowed_fixed, IH. }
  assert (Hunit : ∀ v, allowed v = false →
            includes_unit v (sanitize fileName) = false).
  { clear Hall. intros v Hv. unfold includes_unit.
    induction fileName as [|u l IH]; [done |].
    rewrite sanitize_cons. cbn [existsb].
    rewrite sanitized_not_unit by done. by rewrite IH. }
  assert (Hdots : includes_dotdot (sanitize fileName) = includes_dotdot fileName).
  { clear Hall Hunit. induction fileName as [|a l IH]; [done |].
    rewrite sanitize_cons. cbn [includes_dotdot]. rewrite IH. f_equal.
    destruct l as [|b l']; [done |]. rewrite sanitize_cons.
    by rewrite !sanitized_is_dot. }
  assert (Hidem : sanitize (sanitize fileName) = sanitize fileName).
  { clear Hall Hunit Hdots. induction fileName as [|u l IH]; [done |].
    rewrite !sanitize_cons, IH. by rewrite allowed_fixed. }
  split; [unfold sanitize; apply length_fmap |]. split; [done |].
  split; [done |].
  split; [by apply Hunit |]. split; [by apply Hunit |].
  unfold invalid_file_name. rewrite !Hunit by done.
  by rewrite Hdots, !orb_false_r.
Qed.

End MediaFacts.
